(** * Reverse-mode automatic differentiation pass (SimpleAD)

    A shallow embedding of [SimpleADMutator] and of the pass entry [SimpleAD]
    (src/relax/transform/utils.cc), of the struct info predicates of the
    same file, and of the shape and type inference of the binary broadcast
    operators (src/relax/op/tensor/binary.cc).

    Objects of the IR are reference counted heap nodes and the pass keys all
    of its tables by node identity.  Every node therefore carries the address
    it was allocated at; the allocator and the fields the pass writes in place
    ([checked_type_], [shape_]) live in the state that is threaded through
    the operations.  Fatal errors ([ICHECK], [LOG(FATAL)], failed [Downcast],
    out-of-range [Array] access, [Map::at] on a missing key) abandon the
    computation and are modelled by the [Fatal] result; where a statement is
    about what an abandoned invocation leaves behind, the operations are
    given once more as runs, whose [Raised] outcome records the state in
    which the error is raised. *)

From stdpp Require Import gmap strings list.
From Stdlib Require Import ZArith.

Open Scope string_scope.
Open Scope list_scope.
Open Scope nat_scope.
Set Warnings "-register-all".

(** ** Types and shapes *)

Abbreviation addr := nat.

Abbreviation DataType := string.

(** [PrimExpr]: the dimensions of a [ShapeExpr]. *)
Inductive PrimExpr :=
| IntImm (value : Z)
| SizeVar (name : string).

(** [Type]: [DynTensorType], [TupleType], and the types that carry no tensor. *)
Inductive Type_ :=
| DynTensorType (ndim : Z) (dtype : DataType)
| TupleType (fields : list Type_)
| ShapeType
| ObjectType.

Inductive Attrs :=
| NoAttrs
| InitAttrs (dtype : DataType)
| OtherAttrs (key : string).

Abbreviation Span := (option string).

(** [Id]: the identity of a variable's name; shared by a parameter and its
    clone. *)
Record Id := mkId { id_addr : addr; name_hint : string }.

(** The callee of a [Call]: an [Op] (a process-wide singleton, named) or
    anything else ([node->op.as<OpNode>()] is null). *)
Inductive Callee :=
| Op (name : string)
| NotOp (name : string).

(** ** Expressions *)

(** [VarNode] / [DataflowVarNode].  [var_shape] and [var_type] are the
    [shape_] and [checked_type_] the constructor received. *)
Record VarNode (E : Type) := mkVar {
  var_addr : addr;
  var_is_dataflow : bool;      (* IsInstance<DataflowVarNode>() *)
  vid : Id;
  var_shape : E;
  var_type : Type_;
  var_span : Span
}.
Arguments mkVar {E}.
Arguments var_addr {E}.
Arguments var_is_dataflow {E}.
Arguments vid {E}.
Arguments var_shape {E}.
Arguments var_type {E}.
Arguments var_span {E}.

Inductive Expr :=
| EVar (v : VarNode Expr)
| Tuple (a : addr) (fields : list Expr)
| TupleGetItem (a : addr) (tuple : Expr) (index : Z)
| Call (a : addr) (op : Callee) (args : list Expr) (attrs : Attrs)
| ShapeExpr (a : addr) (values : list PrimExpr)
| RuntimeDepShape (a : addr)
| Constant (a : addr).

Abbreviation Var := (VarNode Expr).

(** Object identity: the address of the node. *)
Definition expr_addr (e : Expr) : addr :=
  match e with
  | EVar v => var_addr v
  | Tuple a _ | TupleGetItem a _ _ | Call a _ _ _
  | ShapeExpr a _ | RuntimeDepShape a | Constant a => a
  end.

(** [e.as<TupleNode>()] and its fields. *)
Definition is_tuple_literal (e : Expr) : bool :=
  match e with Tuple _ _ => true | _ => false end.

Definition tuple_fields (e : Expr) : list Expr :=
  match e with Tuple _ fields => fields | _ => [] end.

Definition var_name (v : Var) : string := name_hint (vid v).

(** Induction over expressions that reaches the fields of tuples and the
    arguments of calls. *)
Section Expr_rect.

Variable P : Expr → Prop.
Hypothesis HVar : ∀ v, P (EVar v).
Hypothesis HTuple : ∀ a fields, Forall P fields → P (Tuple a fields).
Hypothesis HGet : ∀ a tuple index, P tuple → P (TupleGetItem a tuple index).
Hypothesis HCall : ∀ a op args attrs, Forall P args → P (Call a op args attrs).
Hypothesis HShape : ∀ a values, P (ShapeExpr a values).
Hypothesis HDep : ∀ a, P (RuntimeDepShape a).
Hypothesis HConst : ∀ a, P (Constant a).

Fixpoint Expr_fields_ind (e : Expr) : P e :=
  match e with
  | EVar v => HVar v
  | Tuple a fields =>
      HTuple a fields
        ((fix go (l : list Expr) : Forall P l :=
            match l with
            | [] => List.Forall_nil P
            | x :: l' => List.Forall_cons P x l' (Expr_fields_ind x) (go l')
            end) fields)
  | TupleGetItem a tuple index => HGet a tuple index (Expr_fields_ind tuple)
  | Call a op args attrs =>
      HCall a op args attrs
        ((fix go (l : list Expr) : Forall P l :=
            match l with
            | [] => List.Forall_nil P
            | x :: l' => List.Forall_cons P x l' (Expr_fields_ind x) (go l')
            end) args)
  | ShapeExpr a values => HShape a values
  | RuntimeDepShape a => HDep a
  | Constant a => HConst a
  end.

End Expr_rect.

Inductive Binding :=
| VarBinding (var : Var) (value : Expr)
| MatchShape (value : Expr) (pattern : list PrimExpr) (var : Var).

Record BindingBlock := mkBlock {
  is_dataflow_block : bool;    (* IsInstance<DataflowBlockNode>() *)
  bindings : list Binding
}.

(** A function body: a [SeqExprNode] or any other expression. *)
Inductive FuncBody :=
| SeqExpr (blocks : list BindingBlock) (body : Expr)
| BodyExpr (e : Expr).

Record FunctionNode := mkFunction {
  params : list Var;
  body : FuncBody;
  ret_type : Type_;
  attrs : gmap string string   (* DictAttrs *)
}.

(** ** Results *)

Inductive Error :=
| ErrBodyNotSeqExpr        (* ICHECK(node->body->IsInstance<SeqExprNode>()) *)
| ErrBlockCount            (* ICHECK(seq_expr->blocks.size() == 1) *)
| ErrNotDataflowBlock      (* ICHECK(blocks[0]->IsInstance<DataflowBlockNode>()) *)
| ErrBodyNotVar            (* the body of the function is not a relax.Var *)
| ErrNotOutputNode         (* not an output node *)
| ErrTargetType            (* target must be a DynTensorType *)
| ErrTargetShape           (* error when getting target shape *)
| ErrTargetNotScalar       (* target must be a scalar *)
| ErrUnsupportedBinding    (* AD does not support this type of binding value now *)
| ErrNoGradient            (* gradient_op_map[call_op] has no entry *)
| ErrPartialsNumber        (* partials number != inputs number *)
| ErrArgNotVar             (* ICHECK(arg != nullptr) *)
| ErrBothTuple             (* base and increment should be both tuple *)
| ErrTupleNotVar           (* Tuple of TupleGetItem must be binded to a Var *)
| ErrNestedTupleGetItem    (* Error: no nested TupleGetItem *)
| ErrTupleShape            (* Type of tuple of TupleGetItem must be tuple *)
| ErrAdjointNotTuple       (* adjoint of var is not tuple *)
| ErrNotLeaf               (* not a leaf node *)
| ErrUnsupportedEmpty      (* Unsupported emtpy expr *)
| ErrTupleSize             (* size of tuple not match *)
| ErrTypeNotMatch          (* Type not match: src1 and src2 should be both tuple *)
| ErrDowncast              (* Downcast<T> on a node that is not a T *)
| ErrIndex                 (* Array index out of range *)
| ErrMapKey                (* Map::at: key not found *)
| ErrNoVarNamed            (* function ... has no var named ... *)
| ErrFunctionNotFound.     (* relax function ... not found *)

Inductive Result (A : Type) :=
| Ok (a : A)
| Fatal (e : Error).
Arguments Ok {A}.
Arguments Fatal {A}.

#[global] Instance Result_ret : MRet Result := fun _ a => Ok a.
#[global] Instance Result_bind : MBind Result := fun _ _ f r =>
  match r with
  | Ok a => f a
  | Fatal e => Fatal e
  end.

Definition is_fatal {A} (r : Result A) : bool :=
  match r with Ok _ => false | Fatal _ => true end.

(** [ICHECK(c)]. *)
Definition ICHECK (c : bool) (e : Error) : Result unit :=
  if c then Ok tt else Fatal e.

(** [Map::at]. *)
Definition at_ {V} (m : gmap addr V) (k : addr) : Result V :=
  match m !! k with
  | Some v => Ok v
  | None => Fatal ErrMapKey
  end.

(** ** The state of one pass invocation *)

(** How a binding reached the block builder. *)
Inductive EmitKind :=
| ByEmit                   (* builder_->Emit *)
| ByEmitOutput.            (* builder_->EmitOutput *)

Record State := mkState {
  next_addr : addr;                      (* the allocator: first unused address *)
  checked_type_ : gmap addr Type_;       (* in-place writes of e->checked_type_ *)
  shape_ : gmap addr Expr;               (* in-place writes of e->shape_ *)
  var_remap_ : gmap addr Var;            (* keyed by the identity of [vid] *)
  target_var : option Var;
  adjoint_var_map : gmap addr Var;       (* var to its adjoint var *)
  adjoint_expr_map : gmap addr Expr;     (* var to its adjoint expr *)
  adjoint_binding_ : gmap addr Var;      (* trace binding: expr to the var bound to it *)
  zeros_tracker_ : gset addr;            (* track zeros introduced *)
  emitted : list (EmitKind * Binding)    (* the block under construction *)
}.

Definition set_next_addr (n : addr) (s : State) : State :=
  mkState n (checked_type_ s) (shape_ s) (var_remap_ s) (target_var s)
    (adjoint_var_map s) (adjoint_expr_map s) (adjoint_binding_ s)
    (zeros_tracker_ s) (emitted s).
Definition set_checked_type_ (m : gmap addr Type_) (s : State) : State :=
  mkState (next_addr s) m (shape_ s) (var_remap_ s) (target_var s)
    (adjoint_var_map s) (adjoint_expr_map s) (adjoint_binding_ s)
    (zeros_tracker_ s) (emitted s).
Definition set_shape_ (m : gmap addr Expr) (s : State) : State :=
  mkState (next_addr s) (checked_type_ s) m (var_remap_ s) (target_var s)
    (adjoint_var_map s) (adjoint_expr_map s) (adjoint_binding_ s)
    (zeros_tracker_ s) (emitted s).
Definition set_var_remap_ (m : gmap addr Var) (s : State) : State :=
  mkState (next_addr s) (checked_type_ s) (shape_ s) m (target_var s)
    (adjoint_var_map s) (adjoint_expr_map s) (adjoint_binding_ s)
    (zeros_tracker_ s) (emitted s).
Definition set_target_var (t : option Var) (s : State) : State :=
  mkState (next_addr s) (checked_type_ s) (shape_ s) (var_remap_ s) t
    (adjoint_var_map s) (adjoint_expr_map s) (adjoint_binding_ s)
    (zeros_tracker_ s) (emitted s).
Definition set_adjoint_var_map (m : gmap addr Var) (s : State) : State :=
  mkState (next_addr s) (checked_type_ s) (shape_ s) (var_remap_ s) (target_var s)
    m (adjoint_expr_map s) (adjoint_binding_ s)
    (zeros_tracker_ s) (emitted s).
Definition set_adjoint_expr_map (m : gmap addr Expr) (s : State) : State :=
  mkState (next_addr s) (checked_type_ s) (shape_ s) (var_remap_ s) (target_var s)
    (adjoint_var_map s) m (adjoint_binding_ s)
    (zeros_tracker_ s) (emitted s).
Definition set_adjoint_binding_ (m : gmap addr Var) (s : State) : State :=
  mkState (next_addr s) (checked_type_ s) (shape_ s) (var_remap_ s) (target_var s)
    (adjoint_var_map s) (adjoint_expr_map s) m
    (zeros_tracker_ s) (emitted s).
Definition set_zeros_tracker_ (z : gset addr) (s : State) : State :=
  mkState (next_addr s) (checked_type_ s) (shape_ s) (var_remap_ s) (target_var s)
    (adjoint_var_map s) (adjoint_expr_map s) (adjoint_binding_ s)
    z (emitted s).
Definition set_emitted (l : list (EmitKind * Binding)) (s : State) : State :=
  mkState (next_addr s) (checked_type_ s) (shape_ s) (var_remap_ s) (target_var s)
    (adjoint_var_map s) (adjoint_expr_map s) (adjoint_binding_ s)
    (zeros_tracker_ s) l.

(** A new object: its address, and the state with the allocator advanced. *)
Definition alloc (s : State) : addr * State :=
  (next_addr s, set_next_addr (S (next_addr s)) s).

(** [v->checked_type()] and [v->shape()]: the field as last written. *)
Definition checked_type (s : State) (v : Var) : Type_ :=
  default (var_type v) (checked_type_ s !! var_addr v).

Definition shape (s : State) (v : Var) : Expr :=
  default (var_shape v) (shape_ s !! var_addr v).

(** ** The operators the pass builds calls to *)

Definition ones_op : Callee := Op "relax.ones".
Definition add_op : Callee := Op "relax.add".
Definition zeros_op : Callee := Op "relax.zeros".

(** ** Block builder *)

(** Modelled from the spec: the block builder accumulates the bindings of the
    region under construction; [begin_region] starts an empty region, [emit]
    and [emit_output] append a binding, [end_region] hands the region over. *)
Definition BeginDataflowBlock (s : State) : State := set_emitted [] s.

Definition Emit (b : Binding) (s : State) : State :=
  set_emitted (emitted s ++ [(ByEmit, b)]) s.

Definition EmitOutput (b : Binding) (s : State) : State :=
  set_emitted (emitted s ++ [(ByEmitOutput, b)]) s.

Definition EndBlock (s : State) : BindingBlock :=
  mkBlock true (map snd (emitted s)).

(** ** SimpleADMutator: the private operations *)

(** [CreateAdjointVar]: the [Var(String, ...)] constructor allocates the name
    [Id] and the variable itself. *)
Definition CreateAdjointVar (v : Var) (is_dataflow_var : bool) (s : State) : State :=
  match adjoint_var_map s !! var_addr v with
  | Some _ => s                          (* the adjoint var has been created *)
  | None =>
      let '(i, s1) := alloc s in
      let '(a, s2) := alloc s1 in
      let adjoint :=
        mkVar a is_dataflow_var (mkId i (var_name v +:+ "_adjoint"))
              (shape s v) (checked_type s v) None in
      set_adjoint_var_map (<[var_addr v := adjoint]> (adjoint_var_map s2)) s2
  end.

(** [BindAndEmit]. *)
Definition BindAndEmit (v : Var) (e : Expr) (s : State) : State :=
  let '(e, s1) :=
    match adjoint_binding_ s !! expr_addr e with
    | Some u => (EVar u, s)
    | None =>
        (e, set_shape_ (<[expr_addr e := shape s v]> (shape_ s))
              (set_checked_type_ (<[expr_addr e := checked_type s v]> (checked_type_ s))
                 (set_adjoint_binding_ (<[expr_addr e := v]> (adjoint_binding_ s)) s)))
    end in
  if var_is_dataflow v then Emit (VarBinding v e) s1
  else EmitOutput (VarBinding v e) s1.

(** The builder entry [BindAndEmit] reaches for [v]. *)
Definition emit_kind (v : Var) : EmitKind :=
  if var_is_dataflow v then ByEmit else ByEmitOutput.

(** [CheckTarget]. *)
Definition CheckTarget (e : Var) (s : State) : Result unit :=
  _ ← ICHECK (negb (var_is_dataflow e)) ErrNotOutputNode;
  _ ← ICHECK (match checked_type s e with DynTensorType _ _ => true | _ => false end)
        ErrTargetType;
  match shape s e with
  | ShapeExpr _ values => ICHECK (bool_decide (length values = 0)) ErrTargetNotScalar
  | _ => Fatal ErrTargetShape
  end.

(** [Downcast<DynTensorType>(...)->dtype]. *)
Definition dtype_of (t : Type_) : Result DataType :=
  match t with
  | DynTensorType _ dtype => Ok dtype
  | _ => Fatal ErrDowncast
  end.

(** [InitGrad]. *)
Definition InitGrad (adjoint_var var : Var) (s : State) : Result State :=
  dtype ← dtype_of (checked_type s var);
  let '(a, s1) := alloc s in
  let init := Call a ones_op [shape s var] (InitAttrs dtype) in
  Ok (set_adjoint_expr_map (<[var_addr var := init]> (adjoint_expr_map s1)) s1).

(** [DoAdd]: addition with zero elimination.  [zeros_tracker_.count] and
    [adjoint_binding_.count] compare node identities. *)
Fixpoint DoAdd (src1 src2 : Expr) (s : State) {struct src1} : Result (Expr * State) :=
  if bool_decide (expr_addr src1 ∈ zeros_tracker_ s) then Ok (src2, s)
  else if bool_decide (expr_addr src2 ∈ zeros_tracker_ s) then Ok (src1, s)
  else
    match src1 with
    | Tuple _ fields1 =>
        match src2 with
        | Tuple _ fields2 =>
            _ ← ICHECK (bool_decide (length fields1 = length fields2)) ErrTupleSize;
            '(result, s1) ←
              (fix loop (fs1 fs2 : list Expr) (s : State) {struct fs1}
                 : Result (list Expr * State) :=
                 match fs1 with
                 | [] => Ok ([], s)
                 | f1 :: fs1' =>
                     match fs2 with
                     | [] => Fatal ErrIndex
                     | f2 :: fs2' =>
                         '(r, s1) ← DoAdd f1 f2 s;
                         '(rs, s2) ← loop fs1' fs2' s1;
                         Ok (r :: rs, s2)
                     end
                 end) fields1 fields2 s;
            let '(a, s2) := alloc s1 in
            Ok (Tuple a result, s2)
        | _ => Fatal ErrTypeNotMatch
        end
    | _ =>
        (* use the variable to replace expr to reduce the size of AST *)
        let '(a, s1) := alloc s in
        match adjoint_binding_ s !! expr_addr src2 with
        | Some u => Ok (Call a add_op [src1; EVar u] NoAttrs, s1)
        | None => Ok (Call a add_op [src1; src2] NoAttrs, s1)
        end
    end.

(** [DoAddInTuple]: the fields of [origin], the one at [index] incremented. *)
Fixpoint DoAddInTuple_fields (fields : list Expr) (i : nat) (index : Z)
    (increment : Expr) (s : State) : Result (list Expr * State) :=
  match fields with
  | [] => Ok ([], s)
  | f :: fields' =>
      '(r, s1) ← (if bool_decide (Z.of_nat i = index) then DoAdd f increment s
                  else Ok (f, s));
      '(rs, s2) ← DoAddInTuple_fields fields' (S i) index increment s1;
      Ok (r :: rs, s2)
  end.

Definition DoAddInTuple (origin_fields : list Expr) (index : Z) (increment : Expr)
    (s : State) : Result (Expr * State) :=
  '(ret, s1) ← DoAddInTuple_fields origin_fields 0 index increment s;
  let '(a, s2) := alloc s1 in
  Ok (Tuple a ret, s2).

(** [BuildEmptyNestedTupleExpr]: [shape] is the [Tuple] of shapes (the callers
    [Downcast<Tuple>] it), [type_fields] are [type->fields]. *)
Fixpoint BuildEmptyNestedTupleExpr (shape : Expr) (type_fields : list Type_)
    (s : State) {struct shape} : Result (Expr * State) :=
  match shape with
  | Tuple _ shape_fields =>
      '(ret, s1) ←
        (fix loop (fs : list Expr) (i : nat) (s : State) {struct fs}
           : Result (list Expr * State) :=
           match fs with
           | [] => Ok ([], s)
           | sh :: fs' =>
               '(r, s1) ←
                 match sh with
                 | Tuple _ _ =>
                     match type_fields !! i with
                     | None => Fatal ErrIndex
                     | Some (TupleType sub_types) =>
                         BuildEmptyNestedTupleExpr sh sub_types s
                     | Some _ => Fatal ErrDowncast
                     end
                 | ShapeExpr _ _ =>
                     match type_fields !! i with
                     | None => Fatal ErrIndex
                     | Some t =>
                         dtype ← dtype_of t;
                         let '(a, s1) := alloc s in
                         let init := Call a zeros_op [sh] (InitAttrs dtype) in
                         Ok (init, set_zeros_tracker_ ({[a]} ∪ zeros_tracker_ s1) s1)
                     end
                 | _ => Fatal ErrUnsupportedEmpty
                 end;
               '(rs, s2) ← loop fs' (S i) s1;
               Ok (r :: rs, s2)
           end) shape_fields 0 s;
      let '(a, s2) := alloc s1 in
      Ok (Tuple a ret, s2)
  | _ => Fatal ErrDowncast
  end.

(** [adjoint_expr_map.Set]. *)
Definition set_adjoint_expr (v : Var) (e : Expr) (s : State) : State :=
  set_adjoint_expr_map (<[var_addr v := e]> (adjoint_expr_map s)) s.

(** [UpdateExprMap]: accumulate [increment] into the adjoint expression of
    [base]. *)
Fixpoint UpdateExprMap (base increment : Expr) (s : State) {struct base} : Result State :=
  match base with
  | EVar v =>
      match adjoint_expr_map s !! var_addr v with
      | None =>
          match adjoint_binding_ s !! expr_addr increment with
          | Some u => Ok (set_adjoint_expr v (EVar u) s)
          | None => Ok (set_adjoint_expr v increment s)
          end
      | Some current =>
          '(updated, s1) ← DoAdd current increment s;
          Ok (set_adjoint_expr v updated s1)
      end
  | Tuple _ fields =>
      match increment with
      | Tuple _ fields1 =>
          (fix loop (fs : list Expr) (i : nat) (s : State) {struct fs} : Result State :=
             match fs with
             | [] => Ok s
             | f :: fs' =>
                 match fields1 !! i with
                 | None => Fatal ErrIndex
                 | Some inc => s1 ← UpdateExprMap f inc s; loop fs' (S i) s1
                 end
             end) fields 0 s
      | _ => Fatal ErrBothTuple
      end
  | TupleGetItem _ tuple index =>
      match tuple with
      | EVar v =>
          match shape s v with
          | TupleGetItem _ _ _ => Fatal ErrNestedTupleGetItem
          | Tuple _ _ =>
              s1 ← match adjoint_expr_map s !! var_addr v with
                   | Some _ => Ok s
                   | None =>
                       match checked_type s v with
                       | TupleType type_fields =>
                           '(init, s1) ← BuildEmptyNestedTupleExpr (shape s v) type_fields s;
                           Ok (set_adjoint_expr v init
                                 (set_checked_type_
                                    (<[expr_addr init := checked_type s v]> (checked_type_ s1)) s1))
                       | _ => Fatal ErrDowncast
                       end
                   end;
              current ← at_ (adjoint_expr_map s1) (var_addr v);
              match current with
              | Tuple _ origin_fields =>
                  '(updated, s2) ← DoAddInTuple origin_fields index increment s1;
                  Ok (set_adjoint_expr v updated s2)
              | _ => Fatal ErrAdjointNotTuple
              end
          | _ => Fatal ErrTupleShape
          end
      | _ => Fatal ErrTupleNotVar
      end
  | _ => Fatal ErrNotLeaf
  end.

(** The loops inside the recursive operations, named. *)
Definition DoAdd_fields : list Expr → list Expr → State → Result (list Expr * State) :=
  fix loop (fs1 fs2 : list Expr) (s : State) {struct fs1} :=
    match fs1 with
    | [] => Ok ([], s)
    | f1 :: fs1' =>
        match fs2 with
        | [] => Fatal ErrIndex
        | f2 :: fs2' =>
            '(r, s1) ← DoAdd f1 f2 s;
            '(rs, s2) ← loop fs1' fs2' s1;
            Ok (r :: rs, s2)
        end
    end.

Definition UpdateExprMap_fields (fields1 : list Expr)
    : list Expr → nat → State → Result State :=
  fix loop (fs : list Expr) (i : nat) (s : State) {struct fs} :=
    match fs with
    | [] => Ok s
    | f :: fs' =>
        match fields1 !! i with
        | None => Fatal ErrIndex
        | Some inc => s1 ← UpdateExprMap f inc s; loop fs' (S i) s1
        end
    end.

Definition BuildEmpty_fields (type_fields : list Type_)
    : list Expr → nat → State → Result (list Expr * State) :=
  fix loop (fs : list Expr) (i : nat) (s : State) {struct fs} :=
    match fs with
    | [] => Ok ([], s)
    | sh :: fs' =>
        '(r, s1) ←
          match sh with
          | Tuple _ _ =>
              match type_fields !! i with
              | None => Fatal ErrIndex
              | Some (TupleType sub_types) =>
                  BuildEmptyNestedTupleExpr sh sub_types s
              | Some _ => Fatal ErrDowncast
              end
          | ShapeExpr _ _ =>
              match type_fields !! i with
              | None => Fatal ErrIndex
              | Some t =>
                  dtype ← dtype_of t;
                  let '(a, s1) := alloc s in
                  let init := Call a zeros_op [sh] (InitAttrs dtype) in
                  Ok (init, set_zeros_tracker_ ({[a]} ∪ zeros_tracker_ s1) s1)
              end
          | _ => Fatal ErrUnsupportedEmpty
          end;
        '(rs, s2) ← loop fs' (S i) s1;
        Ok (r :: rs, s2)
    end.

(** ** Ownership of nodes

    [owned lo hi e]: the node [e] and, through tuple literals, its fields
    were allocated at addresses from [lo] up to [hi]. *)
Inductive owned (lo hi : addr) : Expr → Prop :=
| owned_leaf e :
    is_tuple_literal e = false → lo ≤ expr_addr e < hi → owned lo hi e
| owned_tuple a fields :
    lo ≤ a < hi → Forall (owned lo hi) fields → owned lo hi (Tuple a fields).

(** ** The pass, over its external collaborators *)

Section Pass.

(** The primitive gradient registry ([Op::GetAttrMap("FPrimalGradient")]):
    per operator name, the function from the forward call and the adjoint
    variable of its result to the partials.  The partials are new nodes, so
    the function runs on the allocator. *)
Variable gradient_op_map :
  string → option (Expr → Var → addr → list Expr * addr).

(** [ExprMutator::VisitWithNewScope] on the function body, under the
    parameter remapping; the rebuilt nodes come from the allocator. *)
Variable VisitWithNewScope : gmap addr Var → FuncBody → addr → FuncBody * addr.

(** [BlockBuilder::Normalize]. *)
Variable Normalize : FuncBody → FuncBody.

(** The loop of case 4 of [ReverseVisit] over the partials. *)
Fixpoint update_args (args partials : list Expr) (s : State) : Result State :=
  match partials with
  | [] => Ok s
  | p :: partials' =>
      match args with
      | [] => Fatal ErrIndex
      | EVar arg :: args' => s1 ← UpdateExprMap (EVar arg) p s; update_args args' partials' s1
      | _ :: _ => Fatal ErrArgNotVar
      end
  end.

(** [ReverseVisit], from "meet a def" on. *)
Definition propagate (adjoint_var var : Var) (value : Expr) (s : State) : Result State :=
  (* meet a def *)
  e ← at_ (adjoint_expr_map s) (var_addr var);
  let s := BindAndEmit adjoint_var e s in
  (* back propagation *)
  match value with
  | Tuple _ _ | TupleGetItem _ _ _ | EVar _ =>
      e ← at_ (adjoint_expr_map s) (var_addr var);
      UpdateExprMap value e s
  | Call _ op args _ =>
      match op with
      | Op name =>
          match gradient_op_map name with
          | None => Fatal ErrNoGradient
          | Some grad =>
              let '(partials, n) := grad value adjoint_var (next_addr s) in
              let s := set_next_addr n s in
              _ ← ICHECK (bool_decide (length partials = length args)) ErrPartialsNumber;
              update_args args partials s
          end
      | NotOp _ => Fatal ErrNoGradient
      end
  | _ => Fatal ErrUnsupportedBinding
  end.

(** [ReverseVisit] on the variable binding [var = value]. *)
Definition ReverseVisit (var : Var) (value : Expr) (s : State) : Result State :=
  let s := CreateAdjointVar var true s in
  adjoint_var ← at_ (adjoint_var_map s) (var_addr var);
  (* must be ignored output's AST *)
  match adjoint_expr_map s !! var_addr var with
  | Some _ => propagate adjoint_var var value s
  | None =>
      if bool_decide (Some (var_addr var) = var_addr <$> target_var s) then
        s1 ← InitGrad adjoint_var var s;
        propagate adjoint_var var value s1
      else Ok s
  end.

(** The reverse-mode loop: the bindings from the last to the first, the ones
    that are no [VarBindingNode] skipped. *)
Definition reverse_step (s : State) (b : Binding) : Result State :=
  match b with
  | VarBinding var value => ReverseVisit var value s
  | MatchShape _ _ _ => Ok s
  end.

Definition reverse_mode (bs : list Binding) (s : State) : Result State :=
  foldl (fun r b => s ← r; reverse_step s b) (Ok s) (rev bs).

(** [require_grads.empty() || std::find(require_grads, param) != end]:
    [std::find] compares the references, that is the node identities. *)
Definition requires_grad (require_grads : list Var) (param : Var) : bool :=
  bool_decide (require_grads = []) ||
  existsb (fun g => bool_decide (var_addr g = var_addr param)) require_grads.

(** The first loop of [FuncTransform]: a fresh [Var] per parameter, sharing
    the [vid], registered in [var_remap_]. *)
Fixpoint clone_params (ps : list Var) (s : State) : list Var * State :=
  match ps with
  | [] => ([], s)
  | param :: ps' =>
      let '(a, s1) := alloc s in
      let new_param :=
        mkVar a false (vid param) (shape s param) (checked_type s param)
              (var_span param) in
      let s2 := set_var_remap_ (<[id_addr (vid param) := new_param]> (var_remap_ s1)) s1 in
      let '(new_params, s3) := clone_params ps' s2 in
      (new_param :: new_params, s3)
  end.

(** The forward cloner: the fresh parameters and the body reproduced under
    the remapping. *)
Definition forward_clone (node : FunctionNode) (s : State)
    : list Var * FuncBody * State :=
  let '(new_params, s) := clone_params (params node) s in
  let '(new_body, n) := VisitWithNewScope (var_remap_ s) (body node) (next_addr s) in
  (new_params, new_body, set_next_addr n s).

(** Modelled from the spec: [ExprMutator::VisitBinding] on a binding of the
    reproduced region re-emits it unchanged, as a dataflow binding when its
    variable is intermediate and as an output binding otherwise. *)
Definition VisitBinding (b : Binding) (s : State) : State :=
  let v := match b with VarBinding v _ | MatchShape _ _ v => v end in
  if var_is_dataflow v then Emit b s else EmitOutput b s.

(** "create adjoint var for inputs". *)
Fixpoint create_input_adjoints (require_grads : list Var)
    (old_new : list (Var * Var)) (s : State) : State :=
  match old_new with
  | [] => s
  | (param, new_param) :: rest =>
      create_input_adjoints require_grads rest
        (CreateAdjointVar new_param (negb (requires_grad require_grads param)) s)
  end.

(** The new parameters the output tuple has an adjoint for: those whose
    original requires a gradient, in parameter order. *)
Definition selected_params (require_grads : list Var) (old_new : list (Var * Var))
    : list Var :=
  snd <$> List.filter (fun on => requires_grad require_grads on.1) old_new.

(** One round of "emit the input adjoints" for a parameter that requires a
    gradient: the adjoint variable that goes to the output tuple. *)
Definition emit_input_adjoint (new_param : Var) (s : State) : Result (Var * State) :=
  adjoint_var ← at_ (adjoint_var_map s) (var_addr new_param);
  match adjoint_expr_map s !! var_addr new_param with
  | Some e => Ok (adjoint_var, BindAndEmit adjoint_var e s)
  | None =>
      dtype ← dtype_of (checked_type s new_param);
      let '(a, s1) := alloc s in
      let default_adjoint := Call a zeros_op [shape s new_param] (InitAttrs dtype) in
      Ok (adjoint_var, BindAndEmit adjoint_var default_adjoint s1)
  end.

(** The loop: [out_adjoints] and [out_adjoints_type], in step. *)

Fixpoint emit_input_adjoints (require_grads : list Var)
    (old_new : list (Var * Var)) (s : State) : Result (list (Var * Type_) * State) :=
  match old_new with
  | [] => Ok ([], s)
  | (param, new_param) :: rest =>
      if requires_grad require_grads param then
        '(adjoint_var, s1) ← emit_input_adjoint new_param s;
        let adjoint_type := checked_type s1 adjoint_var in
        '(out, s2) ← emit_input_adjoints require_grads rest s1;
        Ok ((adjoint_var, adjoint_type) :: out, s2)
      else emit_input_adjoints require_grads rest s
  end.

(** [FuncTransform] from [BeginDataflowBlock] to the target: the forward
    bindings re-emitted and the adjoint variables of the inputs created. *)
Definition before_target (require_grads : list Var) (old_new : list (Var * Var))
    (block : BindingBlock) (s : State) : State :=
  let s := BeginDataflowBlock s in
  let s := foldl (fun s b => VisitBinding b s) s (bindings block) in
  (* create adjoint var for inputs *)
  create_input_adjoints require_grads old_new s.

(** [FuncTransform], after the body has been reproduced as [new_body]. *)
Definition transform_body (require_grads : list Var) (node : FunctionNode)
    (new_params : list Var) (new_body : FuncBody) (s : State)
    : Result (FunctionNode * State) :=
  match new_body with
  | BodyExpr _ => Fatal ErrBodyNotSeqExpr
  | SeqExpr blocks seq_body =>
      (* only support a single dataflow block *)
      block ← match blocks with [block] => Ok block | _ => Fatal ErrBlockCount end;
      _ ← ICHECK (is_dataflow_block block) ErrNotDataflowBlock;
      let old_new := zip (params node) new_params in
      let s := before_target require_grads old_new block s in
      (* the return value of the function will be treated as target *)
      match seq_body with
      | EVar target =>
          _ ← CheckTarget target s;
          let s := set_target_var (Some target) s in
          (* reverse-mode ad *)
          s ← reverse_mode (bindings block) s;
          (* handle the return values and types; emit the input adjoints *)
          '(out, s) ← emit_input_adjoints require_grads old_new s;
          let out_adjoints := EVar <$> out.*1 in
          let out_adjoints_type := out.*2 in
          let '(a1, s) := alloc s in
          let '(a2, s) := alloc s in
          let out_expr := [seq_body; Tuple a1 out_adjoints] in
          let new_ret_type := TupleType [ret_type node; TupleType out_adjoints_type] in
          let final_body := Normalize (SeqExpr [EndBlock s] (Tuple a2 out_expr)) in
          Ok (mkFunction new_params final_body new_ret_type (attrs node), s)
      | _ => Fatal ErrBodyNotVar
      end
  end.

(** [SimpleADMutator::FuncTransform]. *)
Definition FuncTransform (require_grads : list Var) (node : FunctionNode) (s : State)
    : Result (FunctionNode * State) :=
  _ ← ICHECK (match body node with SeqExpr _ _ => true | BodyExpr _ => false end)
        ErrBodyNotSeqExpr;
  let '(new_params, new_body, s) := forward_clone node s in
  transform_body require_grads node new_params new_body s.

End Pass.

(** ** Modules and the pass entry *)

Record GlobalVar := mkGlobalVar { gv_addr : addr; gv_name_hint : string }.

Inductive BaseFunc :=
| RelaxFunction (f : FunctionNode)
| PrimFunc (name : string).

(** An [IRModuleNode] with its reference count.  [functions] is keyed by the
    identity of the [GlobalVar]. *)
Record IRModuleNode := mkModule {
  use_count : nat;
  functions : gmap addr (GlobalVar * BaseFunc)
}.

(** The object heap between pass invocations. *)
Record Heap := mkHeap {
  heap_next : addr;
  heap_checked_type_ : gmap addr Type_;
  heap_shape_ : gmap addr Expr;
  heap_modules : gmap addr IRModuleNode
}.

(** Modelled from the spec: [IRModuleNode::Lookup]; a function that is not in
    the module is a fatal error ("function not found"). *)
Definition Lookup (m : IRModuleNode) (var : GlobalVar) : Result BaseFunc :=
  match functions m !! gv_addr var with
  | Some (_, f) => Ok f
  | None => Fatal ErrFunctionNotFound
  end.

(** Modelled from the spec: [IRModuleNode::Add] adds one function entry. *)
Definition Add (var : GlobalVar) (f : BaseFunc) (m : IRModuleNode) : IRModuleNode :=
  mkModule (use_count m) (<[gv_addr var := (var, f)]> (functions m)).

(** [IRModule::CopyOnWrite]: the node itself when the handle is its only
    reference, otherwise a copy the handle is moved to. *)
Definition CopyOnWrite (m : addr) (node : IRModuleNode) (h : Heap) : addr * Heap :=
  if bool_decide (use_count node = 1) then (m, h)
  else
    let m' := heap_next h in
    (m', mkHeap (S m') (heap_checked_type_ h) (heap_shape_ h)
           (<[m' := mkModule 1 (functions node)]>
              (<[m := mkModule (use_count node - 1) (functions node)]> (heap_modules h)))).

(** [SimpleADMutator(mod, require_grads)]: the tables start empty. *)
Definition new_mutator (h : Heap) : State :=
  mkState (heap_next h) (heap_checked_type_ h) (heap_shape_ h) ∅ None ∅ ∅ ∅ ∅ [].

Definition kGlobalSymbol : string := "global_symbol".

(** [WithAttr]. *)
Definition WithAttr (f : FunctionNode) (key value : string) : FunctionNode :=
  mkFunction (params f) (body f) (ret_type f) (<[key := value]> (attrs f)).

Section Entry.

Variable gradient_op_map :
  string → option (Expr → Var → addr → list Expr * addr).
Variable VisitWithNewScope : gmap addr Var → FuncBody → addr → FuncBody * addr.
Variable Normalize : FuncBody → FuncBody.

(** The mutator [relax::SimpleAD] runs [FuncTransform] on: created on the
    module that [CopyOnWrite] returns, after the [GlobalVar] of the adjoint
    function has been allocated. *)
Definition SimpleAD_mutator (m : addr) (node : IRModuleNode) (h : Heap) : State :=
  (alloc (new_mutator (CopyOnWrite m node h).2)).2.

(** [relax::SimpleAD]: [m] is the caller's handle, passed by value. *)
Definition SimpleAD (m : addr) (var : GlobalVar) (require_grads : list Var) (h : Heap)
    : Result (addr * Heap) :=
  node ← at_ (heap_modules h) m;
  base_func ← Lookup node var;
  match base_func with
  | RelaxFunction n =>
      _ ← ICHECK (forallb (fun input =>
                     existsb (fun p => bool_decide (var_addr p = var_addr input)) (params n))
                    require_grads) ErrNoVarNamed;
      let '(new_module, h1) := CopyOnWrite m node h in
      let adjoint_var :=
        mkGlobalVar (next_addr (new_mutator h1)) (gv_name_hint var +:+ "_adjoint") in
      '(f_after, mutator) ←
        FuncTransform gradient_op_map VisitWithNewScope Normalize require_grads n
          (SimpleAD_mutator m node h);
      let f_after := WithAttr f_after kGlobalSymbol (gv_name_hint adjoint_var) in
      new_module_node ← at_ (heap_modules h1) new_module;
      Ok (new_module,
          mkHeap (next_addr mutator) (checked_type_ mutator) (shape_ mutator)
            (<[new_module := Add adjoint_var (RelaxFunction f_after) new_module_node]>
               (heap_modules h1)))
  | _ => Fatal ErrFunctionNotFound
  end.

(** [transform::SimpleAD]: the pass function holds [mod] while it hands a
    copy of the handle to [relax::SimpleAD]. *)
Definition SimpleAD_pass (func : GlobalVar) (require_grads : list Var)
    (mod_ : addr) (h : Heap) : Result (addr * Heap) :=
  node ← at_ (heap_modules h) mod_;
  let h1 :=
    mkHeap (heap_next h) (heap_checked_type_ h) (heap_shape_ h)
      (<[mod_ := mkModule (S (use_count node)) (functions node)]> (heap_modules h)) in
  SimpleAD mod_ func require_grads h1.

End Entry.

(** ** Binding forms *)

(** The right-hand sides [ReverseVisit] propagates through: tuple
    construction, tuple projection, variable reference, call. *)
Definition supported_value (value : Expr) : bool :=
  match value with
  | Tuple _ _ | TupleGetItem _ _ _ | EVar _ | Call _ _ _ _ => true
  | _ => false
  end.

(** ** Structural zeros *)

(** [mirrors zs shape e]: [e] is the structural zero of [shape]: a
    [zeros(shape, dtype)] call registered in the zero set [zs] for a shape
    expression, a tuple literal of structural zeros, field by field, for a
    tuple of shapes. *)
Inductive mirrors (zs : gset addr) : Expr → Expr → Prop :=
| mirrors_leaf a values a' dtype :
    a' ∈ zs →
    mirrors zs (ShapeExpr a values)
      (Call a' zeros_op [ShapeExpr a values] (InitAttrs dtype))
| mirrors_tuple a shape_fields a' fields :
    Forall2 (mirrors zs) shape_fields fields →
    mirrors zs (Tuple a shape_fields) (Tuple a' fields).

(** ** Well-formed heaps *)

(** Every module the heap holds was allocated, is referenced, and is keyed
    by allocated [GlobalVar]s. *)
Definition heap_wf (h : Heap) : Prop :=
  ∀ m node, heap_modules h !! m = Some node →
    m < heap_next h ∧ 0 < use_count node ∧
    ∀ k, is_Some (functions node !! k) → k < heap_next h.

(** ** The preconditions of the pass *)

(** A scalar tensor: tensor type, and a shape expression without dimensions. *)
Definition scalar_target (s : State) (target : Var) : bool :=
  match checked_type s target, shape s target with
  | DynTensorType _ _, ShapeExpr _ [] => true
  | _, _ => false
  end.

(** The reproduced body [new_body] breaks a precondition of the pass. *)
Inductive precondition_violated (s : State) : FuncBody → Prop :=
| regions_not_one blocks body :
    length blocks ≠ 1 → precondition_violated s (SeqExpr blocks body)
| terminator_not_var blocks body :
    (∀ v, body ≠ EVar v) → precondition_violated s (SeqExpr blocks body)
| target_not_scalar blocks target :
    scalar_target s target = false →
    precondition_violated s (SeqExpr blocks (EVar target)).

(** Modelled from the spec: the forward cloner "reproduces the forward
    region" and makes "no structural change to the forward program"
    ([ExprMutator::VisitWithNewScope] is not under src/).  [structure_kept s
    body s1 new_body]: the body [new_body] reproduced in state [s1] has as
    many regions as [body]; its terminator is a variable reference exactly
    when the terminator of [body] is one, and then to a variable with the
    type and the shape the terminator variable of [body] has in [s]. *)
Definition structure_kept (s : State) (body : FuncBody) (s1 : State)
    (new_body : FuncBody) : Prop :=
  match body, new_body with
  | SeqExpr blocks ret, SeqExpr blocks' ret' =>
      length blocks' = length blocks ∧
      match ret, ret' with
      | EVar target, EVar target' =>
          checked_type s1 target' = checked_type s target ∧
          shape s1 target' = shape s target
      | EVar _, _ | _, EVar _ => False
      | _, _ => True
      end
  | BodyExpr _, BodyExpr _ => True
  | _, _ => False
  end.

(** ** The rules of [DoAdd], as the specification words them *)

Definition in_ZeroSet (s : State) (e : Expr) : bool :=
  bool_decide (expr_addr e ∈ zeros_tracker_ s).

(** [Intern[e] ?? e]. *)
Definition interned (s : State) (e : Expr) : Expr :=
  match adjoint_binding_ s !! expr_addr e with
  | Some u => EVar u
  | None => e
  end.

(** The fields added pairwise, from the first to the last. *)
Fixpoint pairwise (add : Expr → Expr → State → Result (Expr * State))
    (l1 l2 : list Expr) (s : State) : Result (list Expr * State) :=
  match l1, l2 with
  | [], _ => Ok ([], s)
  | _ :: _, [] => Fatal ErrIndex
  | e1 :: l1', e2 :: l2' =>
      '(r, s1) ← add e1 e2 s;
      '(rs, s2) ← pairwise add l1' l2' s1;
      Ok (r :: rs, s2)
  end.

Definition new_tuple (r : list Expr * State) : Result (Expr * State) :=
  let '(a, s) := alloc r.2 in Ok (Tuple a r.1, s).

Definition new_add (src1 src2 : Expr) (s : State) : Result (Expr * State) :=
  let '(a, s1) := alloc s in Ok (Call a add_op [src1; src2] NoAttrs, s1).

(** The four rules in the order of the specification: the last one applies
    whenever the two sides are not both tuple literals. *)
Definition DoAdd_claimed (s1 s2 : Expr) (s : State) : Result (Expr * State) :=
  if in_ZeroSet s s1 then Ok (s2, s)
  else if in_ZeroSet s s2 then Ok (s1, s)
  else if is_tuple_literal s1 && is_tuple_literal s2 then
    if bool_decide (length (tuple_fields s1) = length (tuple_fields s2)) then
      pairwise DoAdd (tuple_fields s1) (tuple_fields s2) s ≫= new_tuple
    else Fatal ErrTupleSize
  else new_add s1 (interned s s2) s.

(** The rules with the third one split on [s1] alone: a tuple literal [s1]
    demands a tuple literal [s2]. *)
Definition DoAdd_rules (s1 s2 : Expr) (s : State) : Result (Expr * State) :=
  if in_ZeroSet s s1 then Ok (s2, s)
  else if in_ZeroSet s s2 then Ok (s1, s)
  else if is_tuple_literal s1 then
    if is_tuple_literal s2 then
      if bool_decide (length (tuple_fields s1) = length (tuple_fields s2)) then
        pairwise DoAdd (tuple_fields s1) (tuple_fields s2) s ≫= new_tuple
      else Fatal ErrTupleSize
    else Fatal ErrTypeNotMatch
  else new_add s1 (interned s s2) s.

(** ** Frames, error classes and invariants of the operations *)

(** [alloc_only s s']: nothing but the allocator moved, and it moved forward. *)
Definition alloc_only (s s' : State) : Prop :=
  s' = set_next_addr (next_addr s') s ∧ next_addr s ≤ next_addr s'.

(** [build_only s s']: only the allocator and the zero set moved. *)
Definition build_only (s s' : State) : Prop :=
  s' = set_zeros_tracker_ (zeros_tracker_ s') (set_next_addr (next_addr s') s) ∧
  next_addr s ≤ next_addr s'.

(** [update_frame s s']: what [UpdateExprMap] never touches. *)
Definition update_frame (s s' : State) : Prop :=
  adjoint_var_map s' = adjoint_var_map s ∧
  adjoint_binding_ s' = adjoint_binding_ s ∧
  emitted s' = emitted s ∧
  target_var s' = target_var s ∧
  var_remap_ s' = var_remap_ s ∧
  shape_ s' = shape_ s ∧
  next_addr s ≤ next_addr s'.

(** The fatal errors of [DoAdd]. *)
Definition DoAdd_error (e : Error) : Prop :=
  e = ErrTupleSize ∨ e = ErrTypeNotMatch ∨ e = ErrIndex.

Definition BuildEmpty_error (e : Error) : Prop :=
  e = ErrIndex ∨ e = ErrDowncast ∨ e = ErrUnsupportedEmpty.

(** The fatal errors of [UpdateExprMap]: none of them is the error of an
    unsupported binding form. *)
Definition UpdateExprMap_error (e : Error) : Prop :=
  DoAdd_error e ∨ BuildEmpty_error e ∨
  e = ErrBothTuple ∨ e = ErrTupleNotVar ∨ e = ErrNestedTupleGetItem ∨
  e = ErrTupleShape ∨ e = ErrAdjointNotTuple ∨ e = ErrNotLeaf ∨ e = ErrMapKey.

(** The cloned parameter of [param] in state [s]. *)
Definition is_clone_of (s : State) (param new_param : Var) : Prop :=
  vid new_param = vid param ∧
  var_shape new_param = shape s param ∧
  var_type new_param = checked_type s param ∧
  var_span new_param = var_span param ∧
  var_is_dataflow new_param = false.

(** [Inv lo s]: the adjoint variables, the adjoint expressions (through
    their tuple literals) and the interned nodes were all allocated by the
    pass, at addresses from [lo] on and below the allocator. *)
Record Inv (lo : addr) (s : State) : Prop := mkInv {
  inv_next : lo ≤ next_addr s;
  inv_var : ∀ k v, adjoint_var_map s !! k = Some v → lo ≤ var_addr v < next_addr s;
  inv_expr : ∀ k e, adjoint_expr_map s !! k = Some e → owned lo (next_addr s) e;
  inv_bind : ∀ k u, adjoint_binding_ s !! k = Some u →
               lo ≤ k < next_addr s ∧ lo ≤ var_addr u < next_addr s
}.

(** [stamps_below lo s s']: no [checked_type_] or [shape_] field of a node
    below [lo] was written between [s] and [s']. *)
Definition stamps_below (lo : addr) (s s' : State) : Prop :=
  ∀ k, k < lo →
    checked_type_ s' !! k = checked_type_ s !! k ∧ shape_ s' !! k = shape_ s !! k.

(** ** The collaborators and the allocator

    The forward cloner and the gradient registry run on the allocator of
    the pass.  [allocates_forward]: the cloner hands the allocator back not
    lower than it got it.  [partials_fresh]: so does a gradient function
    that is handed an allocated adjoint variable, and the partials it
    returns are (through their tuple literals) nodes it has allocated, or
    nodes not older than that adjoint variable: no node of the forward
    program is handed back as a partial. *)
Definition allocates_forward
    (VisitWithNewScope : gmap addr Var → FuncBody → addr → FuncBody * addr) : Prop :=
  ∀ remap b n, n ≤ (VisitWithNewScope remap b n).2.

Definition partials_fresh
    (gradient_op_map : string → option (Expr → Var → addr → list Expr * addr)) : Prop :=
  ∀ name grad call adjoint_var n,
    gradient_op_map name = Some grad →
    var_addr adjoint_var < n →
    n ≤ (grad call adjoint_var n).2 ∧
    Forall (owned (var_addr adjoint_var) (grad call adjoint_var n).2)
      (grad call adjoint_var n).1.

(** ** The nesting of adjoint expressions *)

(** [same_nesting e1 e2]: [e1] and [e2] are tuple literals of the same
    arity, field by field, down to expressions that are no tuple literals. *)
Inductive same_nesting : Expr → Expr → Prop :=
| same_nesting_leaf e1 e2 :
    is_tuple_literal e1 = false → is_tuple_literal e2 = false → same_nesting e1 e2
| same_nesting_tuple a1 fields1 a2 fields2 :
    Forall2 same_nesting fields1 fields2 →
    same_nesting (Tuple a1 fields1) (Tuple a2 fields2).

(** The expressions a nest of tuple literals holds, from the left to the
    right. *)
Fixpoint leaves (e : Expr) : list Expr :=
  match e with
  | Tuple _ fields => concat (map leaves fields)
  | _ => [e]
  end.

(** No node of [e], through its tuple literals, is in the zero set. *)
Inductive zero_free (zs : gset addr) : Expr → Prop :=
| zero_free_leaf e :
    is_tuple_literal e = false → expr_addr e ∉ zs → zero_free zs e
| zero_free_tuple a fields :
    a ∉ zs → Forall (zero_free zs) fields → zero_free zs (Tuple a fields).

(** [var] is the target of the reverse walk ([binding->var == target_var]). *)
Definition is_target (s : State) (var : Var) : bool :=
  bool_decide (Some (var_addr var) = var_addr <$> target_var s).

(** ** Struct info predicates

    [IsScalarTensor] and [KnowAllShapeValues] (src/relax/transform/utils.cc)
    and [IsNestedTensor] (its recursive definition). *)

(** [StructInfo], with the fields the predicates read: the optional shape of
    a tensor, the optional values of a shape, the fields of a tuple. *)
Inductive StructInfo :=
| ObjectStructInfo
| PrimStructInfo (dtype : DataType)
| ShapeStructInfo (values : option (list PrimExpr))
| TensorStructInfo (shape : option Expr) (dtype : DataType)
| TupleStructInfo (fields : list StructInfo)
| FuncStructInfo.

Section StructInfo_rect.

Variable P : StructInfo → Prop.
Hypothesis HObject : P ObjectStructInfo.
Hypothesis HPrim : ∀ dtype, P (PrimStructInfo dtype).
Hypothesis HShape : ∀ values, P (ShapeStructInfo values).
Hypothesis HTensor : ∀ shape dtype, P (TensorStructInfo shape dtype).
Hypothesis HTuple : ∀ fields, Forall P fields → P (TupleStructInfo fields).
Hypothesis HFunc : P FuncStructInfo.

Fixpoint StructInfo_fields_ind (sinfo : StructInfo) : P sinfo :=
  match sinfo with
  | ObjectStructInfo => HObject
  | PrimStructInfo dtype => HPrim dtype
  | ShapeStructInfo values => HShape values
  | TensorStructInfo shape dtype => HTensor shape dtype
  | TupleStructInfo fields =>
      HTuple fields
        ((fix go (l : list StructInfo) : Forall P l :=
            match l with
            | [] => List.Forall_nil P
            | x :: l' => List.Forall_cons P x l' (StructInfo_fields_ind x) (go l')
            end) fields)
  | FuncStructInfo => HFunc
  end.

End StructInfo_rect.

(** [IsScalarTensor(const StructInfo&)]. *)
Definition IsScalarTensor (sinfo : StructInfo) : bool :=
  match sinfo with
  | TensorStructInfo shape _ =>
      match shape with
      | Some (ShapeExpr _ values) => bool_decide (length values = 0)
      | _ => false
      end
  | _ => false
  end.

(** [IsNestedTensor(const StructInfo&)]. *)
Fixpoint IsNestedTensor (sinfo : StructInfo) : bool :=
  match sinfo with
  | TensorStructInfo _ _ => true
  | TupleStructInfo fields =>
      negb (existsb (fun field => negb (IsNestedTensor field)) fields)
  | _ => false
  end.

(** [KnowAllShapeValues]. *)
Fixpoint KnowAllShapeValues (sinfo : StructInfo) : bool :=
  match sinfo with
  | TensorStructInfo shape _ =>
      match shape with
      | Some (ShapeExpr _ _) => true
      | _ => false
      end
  | ShapeStructInfo values => bool_decide (is_Some values)
  | TupleStructInfo fields => forallb KnowAllShapeValues fields
  | PrimStructInfo _ => true
  | _ => false
  end.

(** The struct infos a nest of tuples holds, from the left to the right. *)
Fixpoint sinfo_leaves (sinfo : StructInfo) : list StructInfo :=
  match sinfo with
  | TupleStructInfo fields => concat (map sinfo_leaves fields)
  | _ => [sinfo]
  end.

Definition is_tensor (sinfo : StructInfo) : Prop :=
  ∃ shape dtype, sinfo = TensorStructInfo shape dtype.

(** A tensor whose shape is a [ShapeExpr]. *)
Definition has_shape_values (sinfo : StructInfo) : Prop :=
  ∃ a values dtype, sinfo = TensorStructInfo (Some (ShapeExpr a values)) dtype.

(** ** Binary broadcast operators: shape and type inference

    [InferShapeBinaryBroadcast], [InferTypeBinaryBroadcast] and
    [InferTypeLess] (src/relax/op/tensor/binary.cc), the inference functions
    of the [relax.add] calls that [DoAdd] builds. *)

Inductive Diagnostic :=
| DiagBinaryArguments      (* Binary broadcast op should have 2 arguments *)
| DiagNotDynTensor         (* Both lhs and rhs should be DynTensor for broadcasting *)
| DiagDtypeMismatch        (* Data types ... must be equal for broadcasting operators *)
| DiagLessArguments.       (* Less op should have 2 arguments *)

(** The outcome of an inference function: a result, a diagnostic raised by
    [diag_ctx.EmitFatal], or a fatal error of the runtime. *)
Inductive Diagnosed (A : Type) :=
| Inferred (a : A)
| EmitFatal (d : Diagnostic)
| Aborted (e : Error).
Arguments Inferred {A}.
Arguments EmitFatal {A}.
Arguments Aborted {A}.

#[global] Instance Diagnosed_ret : MRet Diagnosed := fun _ a => Inferred a.
#[global] Instance Diagnosed_bind : MBind Diagnosed := fun _ _ f r =>
  match r with
  | Inferred a => f a
  | EmitFatal d => EmitFatal d
  | Aborted e => Aborted e
  end.

(** [DataType::Void()] and [DataType::Bool()], by name. *)
Definition Void : DataType := "void".
Definition Bool : DataType := "bool".

(** [values[ndim - i]] in [size_t] arithmetic: the index wraps around when
    [ndim < i], and [Array::operator[]] checks it. *)
Definition values_at (values : list PrimExpr) (ndim i : nat) : Diagnosed PrimExpr :=
  if bool_decide (i ≤ ndim) then
    match values !! (ndim - i) with
    | Some dim => Inferred dim
    | None => Aborted ErrIndex
    end
  else Aborted ErrIndex.

Section Broadcast.

(** [e->shape()] and [e->checked_type()] of the arguments. *)
Variable shape_of : Expr → Expr.
Variable checked_type_of : Expr → Type_.

(** [EqualConstInt] and [EqualCheck] on dimensions. *)
Variable EqualConstInt : PrimExpr → Z → bool.
Variable EqualCheck : PrimExpr → PrimExpr → bool.

(** [DynTensorTypeNode::IsUnknownDtype] and [IsUnknownNdim]. *)
Variable IsUnknownDtype : DataType → bool.
Variable IsUnknownNdim : Z → bool.

(** The first loop of [InferShapeBinaryBroadcast], [rounds] rounds from [i]
    on: the dimensions the two shapes share, from the last one; [None] when
    the output shape is deferred to the runtime. *)
Fixpoint common_dims (values0 values1 : list PrimExpr) (rounds i : nat)
    (output_shape : list PrimExpr) : Diagnosed (option (list PrimExpr)) :=
  match rounds with
  | 0 => Inferred (Some output_shape)
  | S rounds' =>
      dim0 ← values_at values0 (length values0) i;
      dim1 ← values_at values1 (length values1) i;
      if EqualConstInt dim0 1 then
        common_dims values0 values1 rounds' (S i) (output_shape ++ [dim1])
      else if EqualConstInt dim1 1 then
        common_dims values0 values1 rounds' (S i) (output_shape ++ [dim0])
      else if EqualCheck dim0 dim1 then
        common_dims values0 values1 rounds' (S i) (output_shape ++ [dim0])
      else
        (* defer the computation of output shapes to runtime *)
        Inferred None
  end.

(** The second loop: the leading dimensions of the longer shape. *)
Fixpoint leading_dims (longer_shape : list PrimExpr) (max_ndim rounds i : nat)
    (output_shape : list PrimExpr) : Diagnosed (list PrimExpr) :=
  match rounds with
  | 0 => Inferred output_shape
  | S rounds' =>
      dim ← values_at longer_shape max_ndim i;
      leading_dims longer_shape max_ndim rounds' (S i) (output_shape ++ [dim])
  end.

(** [InferShapeBinaryBroadcast], on [call->args]; the expression it returns
    is a new node. *)
Definition InferShapeBinaryBroadcast (args : list Expr) (s : State)
    : Diagnosed (Expr * State) :=
  match args with
  | [lhs; rhs] =>
      match shape_of lhs, shape_of rhs with
      | ShapeExpr _ values0, ShapeExpr _ values1 =>
          let ndim0 := length values0 in
          let ndim1 := length values1 in
          common ← common_dims values0 values1 (ndim0 `min` ndim1) 1 [];
          match common with
          | None =>
              let '(a, s1) := alloc s in
              let call_infer :=
                Call a (NotOp "vm.binary_broadcast_shape_infer") [lhs; rhs] NoAttrs in
              Inferred (call_infer,
                        set_checked_type_ (<[a := ShapeType]> (checked_type_ s1)) s1)
          | Some output_shape =>
              let max_ndim := ndim0 `max` ndim1 in
              let longer_shape := if bool_decide (ndim1 < ndim0) then values0 else values1 in
              output_shape ←
                leading_dims longer_shape max_ndim (max_ndim - ndim0 `min` ndim1)
                  (S (ndim0 `min` ndim1)) output_shape;
              let '(a, s1) := alloc s in
              Inferred (ShapeExpr a (reverse output_shape), s1)
          end
      | _, _ =>
          let '(a, s1) := alloc s in
          Inferred (RuntimeDepShape a, s1)
      end
  | _ => EmitFatal DiagBinaryArguments
  end.

(** [InferTypeBinaryBroadcast]. *)
Definition InferTypeBinaryBroadcast (args : list Expr) : Diagnosed Type_ :=
  match args with
  | [lhs; rhs] =>
      match checked_type_of lhs, checked_type_of rhs with
      | DynTensorType ndim0 dtype0, DynTensorType ndim1 dtype1 =>
          output_dtype ←
            (if IsUnknownDtype dtype0 || IsUnknownDtype dtype1 then Inferred Void
             else if bool_decide (dtype0 ≠ dtype1) then EmitFatal DiagDtypeMismatch
             else Inferred dtype0);
          let output_ndim :=
            if IsUnknownNdim ndim0 || IsUnknownNdim ndim1 then (-1)%Z
            else (ndim0 `max` ndim1)%Z in
          Inferred (DynTensorType output_ndim output_dtype)
      | _, _ => EmitFatal DiagNotDynTensor
      end
  | _ => EmitFatal DiagBinaryArguments
  end.

(** [InferTypeLess]. *)
Definition InferTypeLess (args : list Expr) : Diagnosed Type_ :=
  match args with
  | [lhs; rhs] =>
      match checked_type_of lhs, checked_type_of rhs with
      | DynTensorType ndim0 dtype0, DynTensorType ndim1 dtype1 =>
          if bool_decide (dtype0 ≠ dtype1) then EmitFatal DiagDtypeMismatch
          else
            let output_ndim :=
              if IsUnknownNdim ndim0 || IsUnknownNdim ndim1 then (-1)%Z
              else (ndim0 `max` ndim1)%Z in
            Inferred (DynTensorType output_ndim Bool)
      | _, _ => EmitFatal DiagNotDynTensor
      end
  | _ => EmitFatal DiagLessArguments
  end.

End Broadcast.

(** The dimension the output of a broadcast has where the operands have
    [dim0] and [dim1]. *)
Definition broadcast_dim (EqualConstInt : PrimExpr → Z → bool) (dim0 dim1 : PrimExpr)
    : PrimExpr :=
  if EqualConstInt dim0 1%Z then dim1 else dim0.

(** The dimensions [dim0] and [dim1] broadcast without a runtime check. *)
Definition compatible (EqualConstInt : PrimExpr → Z → bool)
    (EqualCheck : PrimExpr → PrimExpr → bool) (dim0 dim1 : PrimExpr) : bool :=
  EqualConstInt dim0 1%Z || EqualConstInt dim1 1%Z || EqualCheck dim0 dim1.

(** The output dimensions of the part two reversed shapes share, [None] when
    a pair of dimensions is not compatible. *)
Fixpoint aligned_dims (EqualConstInt : PrimExpr → Z → bool)
    (EqualCheck : PrimExpr → PrimExpr → bool) (dims0 dims1 : list PrimExpr)
    : option (list PrimExpr) :=
  match dims0, dims1 with
  | dim0 :: dims0', dim1 :: dims1' =>
      if compatible EqualConstInt EqualCheck dim0 dim1 then
        cons (broadcast_dim EqualConstInt dim0 dim1)
          <$> aligned_dims EqualConstInt EqualCheck dims0' dims1'
      else None
  | _, _ => Some []
  end.

(** ** What the reverse walk reaches *)

(** The reverse walk propagates through the binding [b] in state [s]: [b]
    is a variable binding whose variable has an adjoint expression or is the
    target. *)
Definition reached (s : State) (b : Binding) : bool :=
  match b with
  | VarBinding var _ =>
      bool_decide (is_Some (adjoint_expr_map s !! var_addr var)) || is_target s var
  | MatchShape _ _ _ => false
  end.

(** The emitted binding [b] defines an adjoint variable of [s], through the
    builder entry of its kind. *)
Definition defines_adjoint (s : State) (b : EmitKind * Binding) : Prop :=
  ∃ k v e, adjoint_var_map s !! k = Some v ∧ b = (emit_kind v, VarBinding v e).

(** ** Shapes and the types that mirror them *)

(** [conforms shape type_fields]: the types mirror the tuple of shapes
    [shape]: component by component, a shape expression goes with a tensor
    type, and a tuple of shapes with a tuple type whose fields conform to
    it.  The types beyond the arity of [shape] are not looked at. *)
Inductive conforms : Expr → list Type_ → Prop :=
| conforms_fields a shape_fields type_fields :
    Forall2 conforms_component shape_fields (take (length shape_fields) type_fields) →
    conforms (Tuple a shape_fields) type_fields
with conforms_component : Expr → Type_ → Prop :=
| conforms_tensor a values ndim dtype :
    conforms_component (ShapeExpr a values) (DynTensorType ndim dtype)
| conforms_nested a shape_fields type_fields :
    conforms (Tuple a shape_fields) type_fields →
    conforms_component (Tuple a shape_fields) (TupleType type_fields).

(** ** Invocations that end in a fatal error

    [LOG(FATAL)] and a failed [ICHECK] throw: the invocation ends there,
    and the objects it has written to stay as they are.  The operations
    below are the operations of the pass once more, with the state in which
    the error is raised recorded: [Raised e s]. *)

Inductive Run (S A : Type) :=
| Returned (a : A)
| Raised (e : Error) (s : S).
Arguments Returned {S A}.
Arguments Raised {S A}.

#[global] Instance Run_ret {S} : MRet (Run S) := fun _ a => Returned a.
#[global] Instance Run_bind {S} : MBind (Run S) := fun _ _ f r =>
  match r with
  | Returned a => f a
  | Raised e s => Raised e s
  end.

(** The result of a run, the state of a fatal error forgotten. *)
Definition forget {S A} (r : Run S A) : Result A :=
  match r with
  | Returned a => Ok a
  | Raised e _ => Fatal e
  end.

(** A check that reads the state [s] only: its fatal error is raised in [s]. *)
Definition raise_at {S A} (r : Result A) (s : S) : Run S A :=
  match r with
  | Ok a => Returned a
  | Fatal e => Raised e s
  end.

(** [InitGrad]. *)
Definition InitGrad_run (adjoint_var var : Var) (s : State) : Run State State :=
  dtype ← raise_at (dtype_of (checked_type s var)) s;
  let '(a, s1) := alloc s in
  let init := Call a ones_op [shape s var] (InitAttrs dtype) in
  Returned (set_adjoint_expr_map (<[var_addr var := init]> (adjoint_expr_map s1)) s1).

(** [DoAdd]. *)
Fixpoint DoAdd_run (src1 src2 : Expr) (s : State) {struct src1}
    : Run State (Expr * State) :=
  if bool_decide (expr_addr src1 ∈ zeros_tracker_ s) then Returned (src2, s)
  else if bool_decide (expr_addr src2 ∈ zeros_tracker_ s) then Returned (src1, s)
  else
    match src1 with
    | Tuple _ fields1 =>
        match src2 with
        | Tuple _ fields2 =>
            _ ← raise_at (ICHECK (bool_decide (length fields1 = length fields2)) ErrTupleSize) s;
            '(result, s1) ←
              (fix loop (fs1 fs2 : list Expr) (s : State) {struct fs1}
                 : Run State (list Expr * State) :=
                 match fs1 with
                 | [] => Returned ([], s)
                 | f1 :: fs1' =>
                     match fs2 with
                     | [] => Raised ErrIndex s
                     | f2 :: fs2' =>
                         '(r, s1) ← DoAdd_run f1 f2 s;
                         '(rs, s2) ← loop fs1' fs2' s1;
                         Returned (r :: rs, s2)
                     end
                 end) fields1 fields2 s;
            let '(a, s2) := alloc s1 in
            Returned (Tuple a result, s2)
        | _ => Raised ErrTypeNotMatch s
        end
    | _ =>
        let '(a, s1) := alloc s in
        match adjoint_binding_ s !! expr_addr src2 with
        | Some u => Returned (Call a add_op [src1; EVar u] NoAttrs, s1)
        | None => Returned (Call a add_op [src1; src2] NoAttrs, s1)
        end
    end.

(** [DoAddInTuple]. *)
Fixpoint DoAddInTuple_fields_run (fields : list Expr) (i : nat) (index : Z)
    (increment : Expr) (s : State) : Run State (list Expr * State) :=
  match fields with
  | [] => Returned ([], s)
  | f :: fields' =>
      '(r, s1) ← (if bool_decide (Z.of_nat i = index) then DoAdd_run f increment s
                  else Returned (f, s));
      '(rs, s2) ← DoAddInTuple_fields_run fields' (S i) index increment s1;
      Returned (r :: rs, s2)
  end.

Definition DoAddInTuple_run (origin_fields : list Expr) (index : Z) (increment : Expr)
    (s : State) : Run State (Expr * State) :=
  '(ret, s1) ← DoAddInTuple_fields_run origin_fields 0 index increment s;
  let '(a, s2) := alloc s1 in
  Returned (Tuple a ret, s2).

(** [BuildEmptyNestedTupleExpr]. *)
Fixpoint BuildEmptyNestedTupleExpr_run (shape : Expr) (type_fields : list Type_)
    (s : State) {struct shape} : Run State (Expr * State) :=
  match shape with
  | Tuple _ shape_fields =>
      '(ret, s1) ←
        (fix loop (fs : list Expr) (i : nat) (s : State) {struct fs}
           : Run State (list Expr * State) :=
           match fs with
           | [] => Returned ([], s)
           | sh :: fs' =>
               '(r, s1) ←
                 match sh with
                 | Tuple _ _ =>
                     match type_fields !! i with
                     | None => Raised ErrIndex s
                     | Some (TupleType sub_types) =>
                         BuildEmptyNestedTupleExpr_run sh sub_types s
                     | Some _ => Raised ErrDowncast s
                     end
                 | ShapeExpr _ _ =>
                     match type_fields !! i with
                     | None => Raised ErrIndex s
                     | Some t =>
                         dtype ← raise_at (dtype_of t) s;
                         let '(a, s1) := alloc s in
                         let init := Call a zeros_op [sh] (InitAttrs dtype) in
                         Returned (init, set_zeros_tracker_ ({[a]} ∪ zeros_tracker_ s1) s1)
                     end
                 | _ => Raised ErrUnsupportedEmpty s
                 end;
               '(rs, s2) ← loop fs' (S i) s1;
               Returned (r :: rs, s2)
           end) shape_fields 0 s;
      let '(a, s2) := alloc s1 in
      Returned (Tuple a ret, s2)
  | _ => Raised ErrDowncast s
  end.

(** [UpdateExprMap]. *)
Fixpoint UpdateExprMap_run (base increment : Expr) (s : State) {struct base}
    : Run State State :=
  match base with
  | EVar v =>
      match adjoint_expr_map s !! var_addr v with
      | None =>
          match adjoint_binding_ s !! expr_addr increment with
          | Some u => Returned (set_adjoint_expr v (EVar u) s)
          | None => Returned (set_adjoint_expr v increment s)
          end
      | Some current =>
          '(updated, s1) ← DoAdd_run current increment s;
          Returned (set_adjoint_expr v updated s1)
      end
  | Tuple _ fields =>
      match increment with
      | Tuple _ fields1 =>
          (fix loop (fs : list Expr) (i : nat) (s : State) {struct fs} : Run State State :=
             match fs with
             | [] => Returned s
             | f :: fs' =>
                 match fields1 !! i with
                 | None => Raised ErrIndex s
                 | Some inc => s1 ← UpdateExprMap_run f inc s; loop fs' (S i) s1
                 end
             end) fields 0 s
      | _ => Raised ErrBothTuple s
      end
  | TupleGetItem _ tuple index =>
      match tuple with
      | EVar v =>
          match shape s v with
          | TupleGetItem _ _ _ => Raised ErrNestedTupleGetItem s
          | Tuple _ _ =>
              s1 ← match adjoint_expr_map s !! var_addr v with
                   | Some _ => Returned s
                   | None =>
                       match checked_type s v with
                       | TupleType type_fields =>
                           '(init, s1) ←
                             BuildEmptyNestedTupleExpr_run (shape s v) type_fields s;
                           Returned
                             (set_adjoint_expr v init
                                (set_checked_type_
                                   (<[expr_addr init := checked_type s v]> (checked_type_ s1))
                                   s1))
                       | _ => Raised ErrDowncast s
                       end
                   end;
              current ← raise_at (at_ (adjoint_expr_map s1) (var_addr v)) s1;
              match current with
              | Tuple _ origin_fields =>
                  '(updated, s2) ← DoAddInTuple_run origin_fields index increment s1;
                  Returned (set_adjoint_expr v updated s2)
              | _ => Raised ErrAdjointNotTuple s1
              end
          | _ => Raised ErrTupleShape s
          end
      | _ => Raised ErrTupleNotVar s
      end
  | _ => Raised ErrNotLeaf s
  end.

(** The loops inside the recursive operations, named. *)
Definition DoAdd_fields_run
    : list Expr → list Expr → State → Run State (list Expr * State) :=
  fix loop (fs1 fs2 : list Expr) (s : State) {struct fs1} :=
    match fs1 with
    | [] => Returned ([], s)
    | f1 :: fs1' =>
        match fs2 with
        | [] => Raised ErrIndex s
        | f2 :: fs2' =>
            '(r, s1) ← DoAdd_run f1 f2 s;
            '(rs, s2) ← loop fs1' fs2' s1;
            Returned (r :: rs, s2)
        end
    end.

Definition UpdateExprMap_fields_run (fields1 : list Expr)
    : list Expr → nat → State → Run State State :=
  fix loop (fs : list Expr) (i : nat) (s : State) {struct fs} :=
    match fs with
    | [] => Returned s
    | f :: fs' =>
        match fields1 !! i with
        | None => Raised ErrIndex s
        | Some inc => s1 ← UpdateExprMap_run f inc s; loop fs' (S i) s1
        end
    end.

Definition BuildEmpty_fields_run (type_fields : list Type_)
    : list Expr → nat → State → Run State (list Expr * State) :=
  fix loop (fs : list Expr) (i : nat) (s : State) {struct fs} :=
    match fs with
    | [] => Returned ([], s)
    | sh :: fs' =>
        '(r, s1) ←
          match sh with
          | Tuple _ _ =>
              match type_fields !! i with
              | None => Raised ErrIndex s
              | Some (TupleType sub_types) =>
                  BuildEmptyNestedTupleExpr_run sh sub_types s
              | Some _ => Raised ErrDowncast s
              end
          | ShapeExpr _ _ =>
              match type_fields !! i with
              | None => Raised ErrIndex s
              | Some t =>
                  dtype ← raise_at (dtype_of t) s;
                  let '(a, s1) := alloc s in
                  let init := Call a zeros_op [sh] (InitAttrs dtype) in
                  Returned (init, set_zeros_tracker_ ({[a]} ∪ zeros_tracker_ s1) s1)
              end
          | _ => Raised ErrUnsupportedEmpty s
          end;
        '(rs, s2) ← loop fs' (S i) s1;
        Returned (r :: rs, s2)
    end.

Section PassRun.

Variable gradient_op_map :
  string → option (Expr → Var → addr → list Expr * addr).
Variable VisitWithNewScope : gmap addr Var → FuncBody → addr → FuncBody * addr.
Variable Normalize : FuncBody → FuncBody.

Fixpoint update_args_run (args partials : list Expr) (s : State) : Run State State :=
  match partials with
  | [] => Returned s
  | p :: partials' =>
      match args with
      | [] => Raised ErrIndex s
      | EVar arg :: args' =>
          s1 ← UpdateExprMap_run (EVar arg) p s; update_args_run args' partials' s1
      | _ :: _ => Raised ErrArgNotVar s
      end
  end.

Definition propagate_run (adjoint_var var : Var) (value : Expr) (s : State)
    : Run State State :=
  (* meet a def *)
  e ← raise_at (at_ (adjoint_expr_map s) (var_addr var)) s;
  let s := BindAndEmit adjoint_var e s in
  (* back propagation *)
  match value with
  | Tuple _ _ | TupleGetItem _ _ _ | EVar _ =>
      e ← raise_at (at_ (adjoint_expr_map s) (var_addr var)) s;
      UpdateExprMap_run value e s
  | Call _ op args _ =>
      match op with
      | Op name =>
          match gradient_op_map name with
          | None => Raised ErrNoGradient s
          | Some grad =>
              let '(partials, n) := grad value adjoint_var (next_addr s) in
              let s := set_next_addr n s in
              _ ← raise_at (ICHECK (bool_decide (length partials = length args))
                              ErrPartialsNumber) s;
              update_args_run args partials s
          end
      | NotOp _ => Raised ErrNoGradient s
      end
  | _ => Raised ErrUnsupportedBinding s
  end.

Definition ReverseVisit_run (var : Var) (value : Expr) (s : State) : Run State State :=
  let s := CreateAdjointVar var true s in
  adjoint_var ← raise_at (at_ (adjoint_var_map s) (var_addr var)) s;
  match adjoint_expr_map s !! var_addr var with
  | Some _ => propagate_run adjoint_var var value s
  | None =>
      if bool_decide (Some (var_addr var) = var_addr <$> target_var s) then
        s1 ← InitGrad_run adjoint_var var s;
        propagate_run adjoint_var var value s1
      else Returned s
  end.

Definition reverse_step_run (s : State) (b : Binding) : Run State State :=
  match b with
  | VarBinding var value => ReverseVisit_run var value s
  | MatchShape _ _ _ => Returned s
  end.

Definition reverse_mode_run (bs : list Binding) (s : State) : Run State State :=
  foldl (fun r b => s ← r; reverse_step_run s b) (Returned s) (rev bs).

Definition emit_input_adjoint_run (new_param : Var) (s : State)
    : Run State (Var * State) :=
  adjoint_var ← raise_at (at_ (adjoint_var_map s) (var_addr new_param)) s;
  match adjoint_expr_map s !! var_addr new_param with
  | Some e => Returned (adjoint_var, BindAndEmit adjoint_var e s)
  | None =>
      dtype ← raise_at (dtype_of (checked_type s new_param)) s;
      let '(a, s1) := alloc s in
      let default_adjoint := Call a zeros_op [shape s new_param] (InitAttrs dtype) in
      Returned (adjoint_var, BindAndEmit adjoint_var default_adjoint s1)
  end.

Fixpoint emit_input_adjoints_run (require_grads : list Var)
    (old_new : list (Var * Var)) (s : State) : Run State (list (Var * Type_) * State) :=
  match old_new with
  | [] => Returned ([], s)
  | (param, new_param) :: rest =>
      if requires_grad require_grads param then
        '(adjoint_var, s1) ← emit_input_adjoint_run new_param s;
        let adjoint_type := checked_type s1 adjoint_var in
        '(out, s2) ← emit_input_adjoints_run require_grads rest s1;
        Returned ((adjoint_var, adjoint_type) :: out, s2)
      else emit_input_adjoints_run require_grads rest s
  end.

Definition transform_body_run (require_grads : list Var) (node : FunctionNode)
    (new_params : list Var) (new_body : FuncBody) (s : State)
    : Run State (FunctionNode * State) :=
  match new_body with
  | BodyExpr _ => Raised ErrBodyNotSeqExpr s
  | SeqExpr blocks seq_body =>
      block ← match blocks with [block] => Returned block | _ => Raised ErrBlockCount s end;
      _ ← raise_at (ICHECK (is_dataflow_block block) ErrNotDataflowBlock) s;
      let old_new := zip (params node) new_params in
      let s := before_target require_grads old_new block s in
      match seq_body with
      | EVar target =>
          _ ← raise_at (CheckTarget target s) s;
          let s := set_target_var (Some target) s in
          s ← reverse_mode_run (bindings block) s;
          '(out, s) ← emit_input_adjoints_run require_grads old_new s;
          let out_adjoints := EVar <$> out.*1 in
          let out_adjoints_type := out.*2 in
          let '(a1, s) := alloc s in
          let '(a2, s) := alloc s in
          let out_expr := [seq_body; Tuple a1 out_adjoints] in
          let new_ret_type := TupleType [ret_type node; TupleType out_adjoints_type] in
          let final_body := Normalize (SeqExpr [EndBlock s] (Tuple a2 out_expr)) in
          Returned (mkFunction new_params final_body new_ret_type (attrs node), s)
      | _ => Raised ErrBodyNotVar s
      end
  end.

Definition FuncTransform_run (require_grads : list Var) (node : FunctionNode) (s : State)
    : Run State (FunctionNode * State) :=
  _ ← raise_at (ICHECK (match body node with SeqExpr _ _ => true | BodyExpr _ => false end)
                  ErrBodyNotSeqExpr) s;
  let '(new_params, new_body, s) := forward_clone VisitWithNewScope node s in
  transform_body_run require_grads node new_params new_body s.

(** The heap an invocation of [relax::SimpleAD] is in when the mutator is in
    the state [mutator]: the modules are those of [h1]. *)
Definition heap_at (mutator : State) (h1 : Heap) : Heap :=
  mkHeap (next_addr mutator) (checked_type_ mutator) (shape_ mutator) (heap_modules h1).

Definition SimpleAD_run (m : addr) (var : GlobalVar) (require_grads : list Var) (h : Heap)
    : Run Heap (addr * Heap) :=
  node ← raise_at (at_ (heap_modules h) m) h;
  base_func ← raise_at (Lookup node var) h;
  match base_func with
  | RelaxFunction n =>
      _ ← raise_at (ICHECK (forallb (fun input =>
                     existsb (fun p => bool_decide (var_addr p = var_addr input)) (params n))
                    require_grads) ErrNoVarNamed) h;
      let '(new_module, h1) := CopyOnWrite m node h in
      let adjoint_var :=
        mkGlobalVar (next_addr (new_mutator h1)) (gv_name_hint var +:+ "_adjoint") in
      match FuncTransform_run require_grads n (SimpleAD_mutator m node h) with
      | Raised e mutator => Raised e (heap_at mutator h1)
      | Returned (f_after, mutator) =>
          let f_after := WithAttr f_after kGlobalSymbol (gv_name_hint adjoint_var) in
          new_module_node ← raise_at (at_ (heap_modules h1) new_module) (heap_at mutator h1);
          Returned (new_module,
              mkHeap (next_addr mutator) (checked_type_ mutator) (shape_ mutator)
                (<[new_module := Add adjoint_var (RelaxFunction f_after) new_module_node]>
                   (heap_modules h1)))
      end
  | _ => Raised ErrFunctionNotFound h
  end.

Definition SimpleAD_pass_run (func : GlobalVar) (require_grads : list Var)
    (mod_ : addr) (h : Heap) : Run Heap (addr * Heap) :=
  node ← raise_at (at_ (heap_modules h) mod_) h;
  let h1 :=
    mkHeap (heap_next h) (heap_checked_type_ h) (heap_shape_ h)
      (<[mod_ := mkModule (S (use_count node)) (functions node)]> (heap_modules h)) in
  SimpleAD_run mod_ func require_grads h1.

End PassRun.

(** The heap an invocation ends in. *)
Definition end_heap {A} (r : Run Heap (A * Heap)) : Heap :=
  match r with
  | Returned (_, h) => h
  | Raised _ h => h
  end.

(** The state a run ends in, returned or raised. *)
Definition ends {A} (r : Run State (A * State)) : State :=
  match r with
  | Returned (_, s) => s
  | Raised _ s => s
  end.

Definition ends_in (r : Run State State) : State :=
  match r with
  | Returned s => s
  | Raised _ s => s
  end.

(** ** Concrete collaborators and programs

    Instances of the external collaborators, and the programs the statements
    below are evaluated on. *)

Module Examples.

(** A cloner that replaces every variable whose [vid] is remapped and leaves
    the rest of the region as it is. *)
Fixpoint remap_expr (remap : gmap addr Var) (e : Expr) : Expr :=
  match e with
  | EVar v => match remap !! id_addr (vid v) with Some v' => EVar v' | None => e end
  | Tuple a fields => Tuple a (map (remap_expr remap) fields)
  | TupleGetItem a tuple index => TupleGetItem a (remap_expr remap tuple) index
  | Call a op args attrs => Call a op (map (remap_expr remap) args) attrs
  | _ => e
  end.

Definition remap_binding (remap : gmap addr Var) (b : Binding) : Binding :=
  match b with
  | VarBinding var value => VarBinding var (remap_expr remap value)
  | MatchShape value pattern var => MatchShape (remap_expr remap value) pattern var
  end.

Definition clone (remap : gmap addr Var) (b : FuncBody) (n : addr) : FuncBody * addr :=
  match b with
  | SeqExpr blocks body =>
      (SeqExpr (map (fun blk => mkBlock (is_dataflow_block blk)
                                  (map (remap_binding remap) (bindings blk))) blocks)
               (remap_expr remap body), n)
  | BodyExpr e => (BodyExpr (remap_expr remap e), n)
  end.

(** A normalizer for regions that are already in normal form. *)
Definition normalize (b : FuncBody) : FuncBody := b.

(** A registry with the gradients of [relax.sum] and [relax.add]. *)
Definition gradients (name : string) : option (Expr → Var → addr → list Expr * addr) :=
  if String.eqb name "relax.sum" then
    Some (fun call grad n =>
            match call with
            | Call _ _ [x] _ => ([Call n (Op "relax.broadcast_to") [EVar grad; x] NoAttrs], S n)
            | _ => ([], n)
            end)
  else if String.eqb name "relax.add" then
    Some (fun call grad n =>
            match call with
            | Call _ _ [x; y] _ =>
                ([Call n (Op "relax.collapse_sum_like") [EVar grad; x] NoAttrs;
                  Call (S n) (Op "relax.collapse_sum_like") [EVar grad; y] NoAttrs], S (S n))
            | _ => ([], n)
            end)
  else None.

Definition f32 : DataType := "float32".

(** Tensor((5, 5), "float32") and the scalar Tensor((), "float32"). *)
Definition T (a : addr) : Expr := ShapeExpr a [IntImm 5; IntImm 5].
Definition Sc (a : addr) : Expr := ShapeExpr a [].

(** main(x: T, y: T): lv0 = add(x, y); lv1 = sum(lv0); return lv1 *)
Definition x : Var := mkVar 1 false (mkId 0 "x") (T 2) (DynTensorType 2 f32) None.
Definition y : Var := mkVar 4 false (mkId 3 "y") (T 5) (DynTensorType 2 f32) None.
Definition lv0 : Var := mkVar 7 true (mkId 6 "lv0") (T 8) (DynTensorType 2 f32) None.
Definition lv1 : Var := mkVar 10 false (mkId 9 "lv1") (Sc 11) (DynTensorType 0 f32) None.

Definition main : FunctionNode :=
  mkFunction [x; y]
    (SeqExpr [mkBlock true
                [VarBinding lv0 (Call 12 add_op [EVar x; EVar y] NoAttrs);
                 VarBinding lv1 (Call 13 (Op "relax.sum") [EVar lv0] NoAttrs)]]
             (EVar lv1))
    (DynTensorType 0 f32) ∅.

Definition heap0 : Heap := mkHeap 20 ∅ ∅ ∅.

(** A state in which [ones] is already bound to [lv1_adjoint]. *)
Definition lv1_adjoint : Var :=
  mkVar 27 true (mkId 26 "lv1_adjoint") (Sc 11) (DynTensorType 0 f32) None.
Definition x_adjoint : Var :=
  mkVar 23 false (mkId 22 "x_adjoint") (T 2) (DynTensorType 2 f32) None.
Definition ones : Expr := Call 28 ones_op [Sc 11] (InitAttrs f32).
Definition bound_state : State :=
  BindAndEmit lv1_adjoint ones (new_mutator (mkHeap 29 ∅ ∅ ∅)).

Definition mutator0 : State := new_mutator heap0.

(** The state [ReverseVisit] meets at the last binding of [main]. *)
Definition at_target : State := set_target_var (Some lv1) mutator0.

(** A region whose target is bound to a constant. *)
Definition constant_region : list Binding := [VarBinding lv1 (Constant 13)].

(** main_t(x: T, t: Tuple(T, T)): lv1 = sum(x); return lv1 *)
Definition t : Var :=
  mkVar 4 false (mkId 3 "t") (Tuple 5 [T 14; T 15])
    (TupleType [DynTensorType 2 f32; DynTensorType 2 f32]) None.

Definition main_t : FunctionNode :=
  mkFunction [x; t]
    (SeqExpr [mkBlock true [VarBinding lv1 (Call 13 (Op "relax.sum") [EVar x] NoAttrs)]]
             (EVar lv1))
    (DynTensorType 0 f32) ∅.

(** A module that holds [main], referenced once. *)
Definition gv_main : GlobalVar := mkGlobalVar 17 "main".
Definition module0 : IRModuleNode := mkModule 1 {[17 := (gv_main, RelaxFunction main)]}.
Definition heap1 : Heap := mkHeap 20 ∅ ∅ {[16 := module0]}.

(** The result of a run that succeeds. *)
Definition result {A} (r : Result A) (otherwise : A) : A :=
  match r with Ok a => a | Fatal _ => otherwise end.

Definition after_lv1 : State :=
  result (ReverseVisit gradients lv1 (Call 13 (Op "relax.sum") [EVar lv0] NoAttrs) at_target)
    at_target.

(** [main] transformed, with the requires-gradient lists [x; y] and [y; x]. *)
Definition main_xy : FunctionNode * State :=
  result (FuncTransform gradients clone normalize [x; y] main mutator0) (main, mutator0).
Definition main_yx : FunctionNode * State :=
  result (FuncTransform gradients clone normalize [y; x] main mutator0) (main, mutator0).

(** main_unused(x: T, y: T): lv1 = sum(x); return lv1 *)
Definition main_unused : FunctionNode :=
  mkFunction [x; y]
    (SeqExpr [mkBlock true [VarBinding lv1 (Call 13 (Op "relax.sum") [EVar x] NoAttrs)]]
             (EVar lv1))
    (DynTensorType 0 f32) ∅.

Definition main_unused_xy : FunctionNode * State :=
  result (FuncTransform gradients clone normalize [x; y] main_unused mutator0)
    (main_unused, mutator0).

(** main_alias(t: Tuple(T, T)): a = t; u = a[0]; lv1 = sum(u); return lv1 *)
Definition a : Var :=
  mkVar 21 true (mkId 20 "a") (Tuple 5 [T 14; T 15])
    (TupleType [DynTensorType 2 f32; DynTensorType 2 f32]) None.
Definition u : Var := mkVar 23 true (mkId 22 "u") (T 14) (DynTensorType 2 f32) None.

Definition main_alias : FunctionNode :=
  mkFunction [t]
    (SeqExpr [mkBlock true
                [VarBinding a (EVar t);
                 VarBinding u (TupleGetItem 24 (EVar a) 0);
                 VarBinding lv1 (Call 13 (Op "relax.sum") [EVar u] NoAttrs)]]
             (EVar lv1))
    (DynTensorType 0 f32) ∅.

Definition mutator2 : State := new_mutator (mkHeap 40 ∅ ∅ ∅).

Definition main_alias_all : FunctionNode * State :=
  result (FuncTransform gradients clone normalize [] main_alias mutator2)
    (main_alias, mutator2).

(** The first projection update of [a]: [a[0]] receives [ones]. *)
Definition after_projection : State :=
  result (UpdateExprMap (TupleGetItem 24 (EVar a) 0) ones mutator2) mutator2.

(** The pass on the module that holds [main]. *)
Definition pass_on_main : addr * Heap :=
  result (SimpleAD_pass gradients clone normalize gv_main [x; y] 16 heap1) (16, heap1).

(** Instances of the accessors and of the dimension tests the inference
    functions of the broadcast operators are given. *)
Definition shape_of (e : Expr) : Expr :=
  match e with EVar v => var_shape v | _ => RuntimeDepShape 0 end.

Definition checked_type_of (e : Expr) : Type_ :=
  match e with EVar v => var_type v | _ => ObjectType end.

Definition EqualConstInt (dim : PrimExpr) (value : Z) : bool :=
  match dim with IntImm v => Z.eqb v value | SizeVar _ => false end.

Definition EqualCheck (dim0 dim1 : PrimExpr) : bool :=
  match dim0, dim1 with
  | IntImm v0, IntImm v1 => Z.eqb v0 v1
  | SizeVar n0, SizeVar n1 => String.eqb n0 n1
  | _, _ => false
  end.

Definition IsUnknownDtype (dtype : DataType) : bool := String.eqb dtype Void.
Definition IsUnknownNdim (ndim : Z) : bool := Z.eqb ndim (-1).

(** Tensor((1, 5), "float32") and Tensor((3,), "float32"). *)
Definition row : Var :=
  mkVar 51 false (mkId 50 "row") (ShapeExpr 52 [IntImm 1; IntImm 5])
    (DynTensorType 2 f32) None.
Definition three : Var :=
  mkVar 54 false (mkId 53 "three") (ShapeExpr 55 [IntImm 3]) (DynTensorType 1 f32) None.

(** Struct infos: a scalar tensor, and a tuple of a tensor and an empty
    tuple. *)
Definition scalar_sinfo : StructInfo := TensorStructInfo (Some (Sc 2)) f32.
Definition nested_sinfo : StructInfo :=
  TupleStructInfo [TensorStructInfo (Some (T 2)) f32; TupleStructInfo []].

(** main_id(w: Tensor((), "float32")): return w *)
Definition w : Var := mkVar 1 false (mkId 0 "w") (Sc 2) (DynTensorType 0 f32) None.

Definition main_id : FunctionNode :=
  mkFunction [w] (SeqExpr [mkBlock true []] (EVar w)) (DynTensorType 0 f32) ∅.

Definition main_id_w : FunctionNode * State :=
  result (FuncTransform gradients clone normalize [w] main_id mutator0) (main_id, mutator0).

(** [relax::SimpleAD] on the module that holds [main], called with the
    only reference to it. *)
Definition in_place_on_main : addr * Heap :=
  result (SimpleAD gradients clone normalize 16 gv_main [x; y] heap1) (16, heap1).

(** The structural zero of the shape of [t], and the state it was built in. *)
Definition zero_of_t : Expr * State :=
  result (BuildEmptyNestedTupleExpr (Tuple 5 [T 14; T 15])
            [DynTensorType 2 f32; DynTensorType 2 f32] mutator2)
    (Tuple 5 [], mutator2).

(** The pair (x, y) as a tuple literal. *)
Definition pair_xy : Expr := Tuple 30 [EVar x; EVar y].
Definition pair_yx : Expr := Tuple 31 [EVar y; EVar x].

(** A state in which [x] is the target: no binding of [main] defines it. *)
Definition x_is_target : State := set_target_var (Some x) mutator0.

(** main_shared(t: Tuple(T, T)):
      u = t[0]; a = t; v = a[1]; lv0 = add(u, v); lv1 = sum(lv0); return lv1 *)
Definition v : Var := mkVar 33 true (mkId 32 "v") (T 15) (DynTensorType 2 f32) None.

Definition main_shared : FunctionNode :=
  mkFunction [t]
    (SeqExpr [mkBlock true
                [VarBinding u (TupleGetItem 24 (EVar t) 0);
                 VarBinding a (EVar t);
                 VarBinding v (TupleGetItem 34 (EVar a) 1);
                 VarBinding lv0 (Call 12 add_op [EVar u; EVar v] NoAttrs);
                 VarBinding lv1 (Call 13 (Op "relax.sum") [EVar lv0] NoAttrs)]]
             (EVar lv1))
    (DynTensorType 0 f32) ∅.

(** The module that holds the function [F] under the name [main], and the
    heap that holds this module, referenced once. *)
Definition module_of (F : FunctionNode) : IRModuleNode :=
  mkModule 1 {[17 := (gv_main, RelaxFunction F)]}.
Definition heap_of (F : FunctionNode) : Heap := mkHeap 20 ∅ ∅ {[16 := module_of F]}.

(** A [GlobalVar] no module above has an entry for. *)
Definition gv_other : GlobalVar := mkGlobalVar 18 "other".

(** [main] with an empty region before its region. *)
Definition main_two_regions : FunctionNode :=
  mkFunction [x; y]
    (SeqExpr [mkBlock true [];
              mkBlock true
                [VarBinding lv0 (Call 12 add_op [EVar x; EVar y] NoAttrs);
                 VarBinding lv1 (Call 13 (Op "relax.sum") [EVar lv0] NoAttrs)]]
             (EVar lv1))
    (DynTensorType 0 f32) ∅.

(** [main] returning the tuple (lv1,). *)
Definition main_tuple_ret : FunctionNode :=
  mkFunction [x; y]
    (SeqExpr [mkBlock true
                [VarBinding lv0 (Call 12 add_op [EVar x; EVar y] NoAttrs);
                 VarBinding lv1 (Call 13 (Op "relax.sum") [EVar lv0] NoAttrs)]]
             (Tuple 18 [EVar lv1]))
    (TupleType [DynTensorType 0 f32]) ∅.

(** main_x(x: T): return x, with the region empty, and with no region. *)
Definition main_x : FunctionNode :=
  mkFunction [x] (SeqExpr [mkBlock true []] (EVar x)) (DynTensorType 2 f32) ∅.
Definition main_expr : FunctionNode :=
  mkFunction [x] (BodyExpr (EVar x)) (DynTensorType 2 f32) ∅.

(** A cloner that remaps the parameters as [clone] does and leaves out the
    regions that have no binding. *)
Definition clone_nonempty (remap : gmap addr Var) (b : FuncBody) (n : addr)
    : FuncBody * addr :=
  match clone remap b n with
  | (SeqExpr blocks body, n') =>
      (SeqExpr (List.filter (fun blk => match bindings blk with [] => false | _ => true end)
                  blocks) body, n')
  | r => r
  end.

(** main_product(x: T, y: T):
      lv0 = add(x, y); lv2 = add(x, y); lv3 = multiply(lv0, lv2);
      lv1 = sum(lv3); return lv1 *)
Definition lv2 : Var := mkVar 61 true (mkId 60 "lv2") (T 62) (DynTensorType 2 f32) None.
Definition lv3 : Var := mkVar 64 true (mkId 63 "lv3") (T 65) (DynTensorType 2 f32) None.

Definition main_product : FunctionNode :=
  mkFunction [x; y]
    (SeqExpr [mkBlock true
                [VarBinding lv0 (Call 12 add_op [EVar x; EVar y] NoAttrs);
                 VarBinding lv2 (Call 66 add_op [EVar x; EVar y] NoAttrs);
                 VarBinding lv3 (Call 67 (Op "relax.multiply") [EVar lv0; EVar lv2] NoAttrs);
                 VarBinding lv1 (Call 68 (Op "relax.sum") [EVar lv3] NoAttrs)]]
             (EVar lv1))
    (DynTensorType 0 f32) ∅.

Definition heap_product : Heap := mkHeap 70 ∅ ∅ {[16 := module_of main_product]}.

(** A registry whose gradient of [relax.multiply] hands back the other
    factor, a node of the forward program, as the partial of each argument. *)
Definition gradients_product (name : string)
    : option (Expr → Var → addr → list Expr * addr) :=
  if String.eqb name "relax.multiply" then
    Some (fun call grad n =>
            match call with
            | Call _ _ [a; b] _ => ([b; a], n)
            | _ => ([], n)
            end)
  else gradients name.

(** The invocations of the pass on the module that holds [main], and on the
    one that holds [main_t]. *)
Definition run_on_main : Run Heap (addr * Heap) :=
  SimpleAD_pass_run gradients clone normalize gv_main [x; y] 16 heap1.
Definition run_on_main_t : Run Heap (addr * Heap) :=
  SimpleAD_pass_run gradients clone normalize gv_main [t] 16 (heap_of main_t).

End Examples.

(** * Properties *)

(** ** Reasoning principles *)

Lemma bind_Ok {A B} (r : Result A) (f : A → Result B) (b : B) :
  r ≫= f = Ok b → ∃ a, r = Ok a ∧ f a = Ok b.
Proof. destruct r as [a|e]; simpl; [eauto | discriminate]. Qed.

Lemma bind_Fatal {A B} (r : Result A) (f : A → Result B) (e : Error) :
  r ≫= f = Fatal e → r = Fatal e ∨ ∃ a, r = Ok a ∧ f a = Fatal e.
Proof. destruct r as [a|e']; simpl; [eauto | intros [= ->]; auto]. Qed.

Lemma ICHECK_Ok (c : bool) (e : Error) (u : unit) : ICHECK c e = Ok u → c = true.
Proof. destruct c; [done | discriminate]. Qed.

Lemma at_Ok {V} (m : gmap addr V) (k : addr) (v : V) : at_ m k = Ok v → m !! k = Some v.
Proof. unfold at_. destruct (m !! k); [by intros [= ->] | discriminate]. Qed.

Lemma UpdateExprMap_Tuple a fields a1 fields1 s :
  UpdateExprMap (Tuple a fields) (Tuple a1 fields1) s =
    UpdateExprMap_fields fields1 fields 0 s.
Proof. reflexivity. Qed.

(** ** Emission: [BindAndEmit] *)

Lemma BindAndEmit_emitted v e s :
  emitted (BindAndEmit v e s) =
    emitted s ++ [(emit_kind v, VarBinding v (interned s e))].
Proof.
  unfold BindAndEmit, interned, emit_kind.
  destruct (adjoint_binding_ s !! expr_addr e), (var_is_dataflow v); reflexivity.
Qed.

(** C2, as the code has it: when the intern table already maps [e] to [u],
    [BindAndEmit v e] appends exactly one binding, [v := u] (a dataflow
    binding for an intermediate [v], an output binding otherwise), and
    changes nothing else: the intern table still maps [e] to [u] and has no
    entry for anything new, and no field is stamped. *)
Theorem BindAndEmit_interned v e u s :
  adjoint_binding_ s !! expr_addr e = Some u →
  BindAndEmit v e s =
    set_emitted (emitted s ++ [(emit_kind v, VarBinding v (EVar u))]) s.
Proof.
  intros Hu. unfold BindAndEmit, emit_kind. rewrite Hu.
  destruct (var_is_dataflow v); reflexivity.
Qed.

(** ** Addition with zero elimination: [DoAdd] *)

Lemma DoAdd_fields_pairwise fields1 fields2 s :
  DoAdd_fields fields1 fields2 s = pairwise DoAdd fields1 fields2 s.
Proof.
  revert fields2 s. induction fields1 as [|f1 fields1 IH]; intros [|f2 fields2] s;
    try reflexivity.
  simpl. destruct (DoAdd f1 f2 s) as [[r s1]|]; [simpl | reflexivity].
  by rewrite IH.
Qed.

(** One step of [DoAdd], its loop named. *)
Lemma DoAdd_unfold src1 src2 s :
  DoAdd src1 src2 s =
    if bool_decide (expr_addr src1 ∈ zeros_tracker_ s) then Ok (src2, s)
    else if bool_decide (expr_addr src2 ∈ zeros_tracker_ s) then Ok (src1, s)
    else
      match src1 with
      | Tuple _ fields1 =>
          match src2 with
          | Tuple _ fields2 =>
              _ ← ICHECK (bool_decide (length fields1 = length fields2)) ErrTupleSize;
              pairwise DoAdd fields1 fields2 s ≫= new_tuple
          | _ => Fatal ErrTypeNotMatch
          end
      | _ => new_add src1 (interned s src2) s
      end.
Proof.
  unfold new_add, interned.
  destruct src1; simpl; repeat case_bool_decide; try reflexivity;
    try (destruct (adjoint_binding_ s !! expr_addr src2); reflexivity).
  destruct src2; try reflexivity.
  fold (DoAdd_fields fields fields0 s). rewrite DoAdd_fields_pairwise.
  destruct (ICHECK _ _); simpl; [| reflexivity].
  destruct (pairwise DoAdd fields fields0 s) as [[r s1]|]; reflexivity.
Qed.

(** C6, as the code has it: the rules of [DoAdd] in order.  A zero [src1]
    gives [src2] and then a zero [src2] gives [src1], both unchanged; then a
    tuple literal [src1] demands a tuple literal [src2] ("Type not match"
    otherwise) of the same arity ("size of tuple not match" otherwise) and
    gives the tuple of the pairwise sums; any other [src1] gives
    [add(src1, Intern[src2] ?? src2)], [src1] never being substituted. *)
Theorem DoAdd_follows_rules src1 src2 s :
  DoAdd src1 src2 s = DoAdd_rules src1 src2 s.
Proof.
  rewrite DoAdd_unfold. unfold DoAdd_rules, in_ZeroSet.
  do 2 (case_bool_decide; [reflexivity |]).
  destruct src1 as [| a1 fields1 | | | | |]; try reflexivity.
  destruct src2 as [| a2 fields2 | | | | |]; try reflexivity.
  simpl. unfold ICHECK. by case_bool_decide.
Qed.

(** ** What the recursive operations leave alone *)

Lemma alloc_only_refl s : alloc_only s s.
Proof. split; [by destruct s | lia]. Qed.

Lemma alloc_only_trans s1 s2 s3 :
  alloc_only s1 s2 → alloc_only s2 s3 → alloc_only s1 s3.
Proof.
  intros [H12 ?] [H23 ?]. split; [| lia].
  rewrite H23 at 1. rewrite H12. reflexivity.
Qed.

Lemma alloc_only_alloc s : alloc_only s (alloc s).2.
Proof. split; simpl; [reflexivity | lia]. Qed.

Section Pairwise.

Variable add : Expr → Expr → State → Result (Expr * State).
Variable R : State → State → Prop.
Variable E : Error → Prop.
Hypothesis R_refl : ∀ s, R s s.
Hypothesis R_trans : ∀ s1 s2 s3, R s1 s2 → R s2 s3 → R s1 s3.
Hypothesis E_index : E ErrIndex.

Lemma pairwise_Ok l1 l2 s rs s' :
  Forall (fun e1 => ∀ e2 s r s', add e1 e2 s = Ok (r, s') → R s s') l1 →
  pairwise add l1 l2 s = Ok (rs, s') → R s s'.
Proof.
  intros Hall. revert l2 s rs s'.
  induction Hall as [|e1 l1 He1 _ IH]; intros [|e2 l2] s rs s' H; simpl in H;
    try (injection H as <- <-; apply R_refl); try discriminate.
  apply bind_Ok in H as [[r s1] [H1 H]].
  apply bind_Ok in H as [[rs' s2] [H2 H]]. injection H as <- <-.
  eapply R_trans; [eapply He1, H1 | eapply IH, H2].
Qed.

Lemma pairwise_Fatal l1 l2 s e :
  Forall (fun e1 => ∀ e2 s e, add e1 e2 s = Fatal e → E e) l1 →
  pairwise add l1 l2 s = Fatal e → E e.
Proof.
  intros Hall. revert l2 s.
  induction Hall as [|e1 l1 He1 _ IH]; intros [|e2 l2] s H; simpl in H;
    try discriminate; try (by injection H as <-).
  apply bind_Fatal in H as [H | [[r s1] [_ H]]]; [by eapply He1 |].
  apply bind_Fatal in H as [H | [[rs' s2] [_ H]]]; [by eapply IH | discriminate].
Qed.

End Pairwise.

Lemma new_tuple_Ok r e s' : new_tuple r = Ok (e, s') →
  e = Tuple (next_addr r.2) r.1 ∧ s' = set_next_addr (S (next_addr r.2)) r.2.
Proof. unfold new_tuple. simpl. by intros [= <- <-]. Qed.

Lemma DoAdd_alloc_only src1 : ∀ src2 s r s',
  DoAdd src1 src2 s = Ok (r, s') → alloc_only s s'.
Proof.
  induction src1 using Expr_fields_ind; intros src2 s r s';
    rewrite DoAdd_unfold; unfold new_add; simpl;
    repeat case_match; intros Heq; simplify_eq;
    try apply alloc_only_refl; try apply alloc_only_alloc.
  apply bind_Ok in Heq as [[] [_ Heq]].
  apply bind_Ok in Heq as [[rs s1] [Hp Ht]].
  apply new_tuple_Ok in Ht as [_ ->]. simpl.
  eapply alloc_only_trans; [| apply alloc_only_alloc].
  eapply (pairwise_Ok DoAdd alloc_only);
    eauto using alloc_only_refl, alloc_only_trans.
Qed.

Lemma DoAdd_Fatal src1 : ∀ src2 s e,
  DoAdd src1 src2 s = Fatal e → DoAdd_error e.
Proof.
  unfold DoAdd_error.
  induction src1 using Expr_fields_ind; intros src2 s e;
    rewrite DoAdd_unfold; unfold new_add; simpl;
    repeat case_match; intros Heq; simplify_eq; auto.
  apply bind_Fatal in Heq as [Hc | [[] [_ Heq]]].
  { unfold ICHECK in Hc. case_bool_decide; simplify_eq. auto. }
  apply bind_Fatal in Heq as [Hp | [[rs s1] [_ Ht]]]; [| discriminate].
  eapply (pairwise_Fatal DoAdd (fun e => e = ErrTupleSize ∨ e = ErrTypeNotMatch ∨ e = ErrIndex));
    eauto.
Qed.

Lemma BuildEmpty_Tuple a shape_fields type_fields s :
  BuildEmptyNestedTupleExpr (Tuple a shape_fields) type_fields s =
    BuildEmpty_fields type_fields shape_fields 0 s ≫= new_tuple.
Proof.
  change (BuildEmptyNestedTupleExpr (Tuple a shape_fields) type_fields s)
    with (BuildEmpty_fields type_fields shape_fields 0 s
            ≫= (fun '(ret, s1) => let '(a, s2) := alloc s1 in Ok (Tuple a ret, s2))).
  destruct (BuildEmpty_fields type_fields shape_fields 0 s) as [[ret s1]|]; reflexivity.
Qed.

Lemma owned_mono lo hi lo' hi' e :
  lo' ≤ lo → hi ≤ hi' → owned lo hi e → owned lo' hi' e.
Proof.
  intros Hlo Hhi. induction e using Expr_fields_ind; intros Ho;
    inversion Ho; subst; try discriminate;
    try (apply owned_leaf; [done | simpl in *; lia]).
  apply owned_tuple; [lia |].
  rewrite Forall_forall in *. auto.
Qed.

Lemma build_only_refl s : build_only s s.
Proof. split; [by destruct s | lia]. Qed.

Lemma build_only_trans s1 s2 s3 :
  build_only s1 s2 → build_only s2 s3 → build_only s1 s3.
Proof.
  intros [H12 ?] [H23 ?]. split; [| lia].
  rewrite H23 at 1. rewrite H12. reflexivity.
Qed.

Lemma BuildEmpty_Ok shape : ∀ type_fields s r s',
  BuildEmptyNestedTupleExpr shape type_fields s = Ok (r, s') →
  build_only s s' ∧ owned (next_addr s) (next_addr s') r ∧ is_tuple_literal r = true.
Proof.
  induction shape as [| a fields IH | | | | |] using Expr_fields_ind;
    intros type_fields s r s'; try discriminate.
  rewrite BuildEmpty_Tuple. intros H.
  apply bind_Ok in H as [[rs s1] [Hl Ht]].
  apply new_tuple_Ok in Ht as [-> ->]. simpl.
  assert (build_only s s1 ∧ Forall (owned (next_addr s) (next_addr s1)) rs) as [Hb Hrs].
  { clear a. revert Hl. generalize 0 as i. revert s rs s1.
    induction IH as [|sh fields Hsh _ IHl]; intros s rs s1 i Hl; simpl in Hl.
    - injection Hl as <- <-. split; [apply build_only_refl | constructor].
    - apply bind_Ok in Hl as [[r s2] [Hr Hl]].
      apply bind_Ok in Hl as [[rs' s3] [Hrs Hl]]. injection Hl as <- <-.
      apply IHl in Hrs as [Hb3 Hrs].
      assert (build_only s s2 ∧ owned (next_addr s) (next_addr s2) r) as [Hb2 Hr2].
      { destruct sh; try discriminate.
        - destruct (type_fields !! i) as [[]|]; try discriminate.
          apply Hsh in Hr. tauto.
        - destruct (type_fields !! i) as [t|]; try discriminate.
          apply bind_Ok in Hr as [dt [_ Hr]]. simpl in Hr. injection Hr as <- <-.
          split; [split; simpl; [reflexivity | lia] |].
          apply owned_leaf; simpl; [done | lia]. }
      split; [by eapply build_only_trans |].
      constructor.
      + eapply owned_mono; [| | exact Hr2]; [lia | apply Hb3].
      + eapply Forall_impl; [exact Hrs |]. intros e0 He0.
        eapply owned_mono; [| | exact He0]; [apply Hb2 | lia]. }
  split; [| split; [| done]].
  - eapply build_only_trans; [exact Hb |]. split; simpl; [reflexivity | lia].
  - apply owned_tuple; [destruct Hb; lia |].
    eapply Forall_impl; [exact Hrs |]. intros e0 He0.
    eapply owned_mono; [| | exact He0]; lia.
Qed.

Lemma BuildEmpty_Fatal shape : ∀ type_fields s e,
  BuildEmptyNestedTupleExpr shape type_fields s = Fatal e → BuildEmpty_error e.
Proof.
  unfold BuildEmpty_error.
  induction shape as [| a fields IH | | | | |] using Expr_fields_ind;
    intros type_fields s e; try (intros [= <-]; tauto).
  rewrite BuildEmpty_Tuple. intros H.
  apply bind_Fatal in H as [H | [[rs s1] [_ H]]]; [| discriminate].
  clear a. revert H. generalize 0 as i. revert s.
  induction IH as [|sh fields Hsh _ IHl]; intros s i H; simpl in H; [discriminate |].
  apply bind_Fatal in H as [H | [[r s2] [_ H]]].
  - destruct sh; try (injection H as <-; tauto).
    + destruct (type_fields !! i) as [[]|]; try (injection H as <-; tauto).
      by eapply Hsh.
    + destruct (type_fields !! i) as [[]|]; try (injection H as <-; tauto).
      discriminate.
  - apply bind_Fatal in H as [H | [[rs' s3] [_ H]]]; [by eapply IHl | discriminate].
Qed.

Lemma DoAddInTuple_fields_Ok fields : ∀ i index increment s rs s',
  DoAddInTuple_fields fields i index increment s = Ok (rs, s') →
  alloc_only s s' ∧ length rs = length fields ∧
  ∀ j, Z.of_nat (i + j) ≠ index → rs !! j = fields !! j.
Proof.
  induction fields as [|f fields IH]; intros i index inc s rs s' H; simpl in H.
  - injection H as <- <-. split; [apply alloc_only_refl | done].
  - apply bind_Ok in H as [[r s1] [Hr H]].
    apply bind_Ok in H as [[rs' s2] [Hrs H]]. injection H as <- <-.
    apply IH in Hrs as (Ha & Hlen & Hnth).
    split; [| split].
    + eapply alloc_only_trans; [| exact Ha].
      case_bool_decide; [by eapply DoAdd_alloc_only |].
      injection Hr as <- <-. apply alloc_only_refl.
    + simpl. by rewrite Hlen.
    + intros [|j] Hj; simpl.
      * rewrite Nat.add_0_r in Hj. rewrite bool_decide_eq_false_2 in Hr by done.
        by injection Hr as <- <-.
      * apply Hnth. by replace (S i + j) with (i + S j) by lia.
Qed.

Lemma DoAddInTuple_Ok fields index increment s r s' :
  DoAddInTuple fields index increment s = Ok (r, s') →
  alloc_only s s' ∧
  ∃ a rs, r = Tuple a rs ∧ length rs = length fields ∧
    ∀ j, Z.of_nat j ≠ index → rs !! j = fields !! j.
Proof.
  unfold DoAddInTuple. intros H.
  apply bind_Ok in H as [[rs s1] [Hrs H]]. simpl in H. injection H as <- <-.
  apply DoAddInTuple_fields_Ok in Hrs as (Ha & Hlen & Hnth).
  split; [eapply alloc_only_trans; [exact Ha | apply alloc_only_alloc] |].
  eauto.
Qed.

Lemma DoAddInTuple_Fatal fields index increment s e :
  DoAddInTuple fields index increment s = Fatal e → DoAdd_error e.
Proof.
  unfold DoAddInTuple. intros H.
  apply bind_Fatal in H as [H | [[rs s1] [_ H]]]; [| discriminate].
  revert H. generalize 0 as i. revert s.
  induction fields as [|f fields IH]; intros s i H; simpl in H; [discriminate |].
  apply bind_Fatal in H as [H | [[r s1] [_ H]]].
  - case_bool_decide; [by eapply DoAdd_Fatal | discriminate].
  - apply bind_Fatal in H as [H | [[rs' s2] [_ H]]]; [by eapply IH | discriminate].
Qed.

Lemma update_frame_refl s : update_frame s s.
Proof. by repeat split. Qed.

Lemma update_frame_trans s1 s2 s3 :
  update_frame s1 s2 → update_frame s2 s3 → update_frame s1 s3.
Proof. unfold update_frame. intros; destruct_and!; repeat split; try congruence; lia. Qed.

Lemma alloc_only_frame s s' : alloc_only s s' → update_frame s s'.
Proof. intros [-> ?]. by repeat split. Qed.

Lemma build_only_frame s s' : build_only s s' → update_frame s s'.
Proof. intros [-> ?]. by repeat split. Qed.

Lemma UpdateExprMap_Ok base : ∀ increment s s',
  UpdateExprMap base increment s = Ok s' → update_frame s s'.
Proof.
  induction base as [v | a fields IH | a tuple index _ | ? ? ? ? _ | | |] using Expr_fields_ind;
    intros inc s s' H; try discriminate.
  - simpl in H. destruct (adjoint_expr_map s !! var_addr v).
    + apply bind_Ok in H as [[upd s1] [Hadd H]]. injection H as <-.
      apply DoAdd_alloc_only, alloc_only_frame in Hadd.
      eapply update_frame_trans; [exact Hadd | by repeat split].
    + destruct (adjoint_binding_ s !! expr_addr inc); injection H as <-;
        by repeat split.
  - destruct inc as [| a1 fields1 | | | | |]; try discriminate.
    rewrite UpdateExprMap_Tuple in H. revert H. generalize 0 as i. revert s.
    induction IH as [|f fields Hf _ IHl]; intros s i H; simpl in H.
    + injection H as <-. apply update_frame_refl.
    + destruct (fields1 !! i); [| discriminate].
      apply bind_Ok in H as [s1 [H1 H]].
      eapply update_frame_trans; [by eapply Hf | by eapply IHl].
  - simpl in H. destruct tuple as [v| | | | | |]; try discriminate.
    destruct (shape s v) eqn:Hsh; try discriminate.
    apply bind_Ok in H as [s1 [Hinit H]].
    apply bind_Ok in H as [cur [_ H]].
    destruct cur; try discriminate.
    apply bind_Ok in H as [[upd s2] [Hadd H]]. injection H as <-.
    apply DoAddInTuple_Ok in Hadd as [Hadd _]. apply alloc_only_frame in Hadd.
    assert (update_frame s s1) as Hs1.
    { destruct (adjoint_expr_map s !! var_addr v).
      - injection Hinit as <-. apply update_frame_refl.
      - destruct (checked_type s v); try discriminate.
        apply bind_Ok in Hinit as [[init s0] [Hb Hinit]]. injection Hinit as <-.
        apply BuildEmpty_Ok in Hb as [Hb _]. apply build_only_frame in Hb.
        eapply update_frame_trans; [exact Hb | by repeat split]. }
    eapply update_frame_trans; [exact Hs1 |].
    eapply update_frame_trans; [exact Hadd | by repeat split].
Qed.

Lemma UpdateExprMap_Fatal base : ∀ increment s e,
  UpdateExprMap base increment s = Fatal e → UpdateExprMap_error e.
Proof.
  unfold UpdateExprMap_error.
  induction base as [v | a fields IH | a tuple index _ | ? ? ? ? _ | | |] using Expr_fields_ind;
    intros inc s e H; try (injection H as <-; tauto).
  - simpl in H. destruct (adjoint_expr_map s !! var_addr v).
    + apply bind_Fatal in H as [H | [[upd s1] [_ H]]]; [| discriminate].
      left. by eapply DoAdd_Fatal.
    + destruct (adjoint_binding_ s !! expr_addr inc); discriminate.
  - destruct inc as [| a1 fields1 | | | | |]; try (injection H as <-; tauto).
    rewrite UpdateExprMap_Tuple in H. revert H. generalize 0 as i. revert s.
    induction IH as [|f fields Hf _ IHl]; intros s i H; simpl in H; [discriminate |].
    destruct (fields1 !! i); [| injection H as <-; unfold DoAdd_error; tauto].
    apply bind_Fatal in H as [H | [s1 [_ H]]]; [by eapply Hf | by eapply IHl].
  - simpl in H. destruct tuple as [v| | | | | |]; try (injection H as <-; tauto).
    destruct (shape s v) eqn:Hsh; try (injection H as <-; tauto).
    apply bind_Fatal in H as [H | [s1 [_ H]]].
    + destruct (adjoint_expr_map s !! var_addr v); [discriminate |].
      destruct (checked_type s v);
        try (injection H as <-; unfold BuildEmpty_error; tauto).
      apply bind_Fatal in H as [H | [[init s0] [_ H]]]; [| discriminate].
      right; left. by eapply BuildEmpty_Fatal.
    + apply bind_Fatal in H as [H | [cur [_ H]]].
      * unfold at_ in H. destruct (adjoint_expr_map s1 !! var_addr v);
          [discriminate | injection H as <-; tauto].
      * destruct cur; try (injection H as <-; tauto).
        apply bind_Fatal in H as [H | [[upd s2] [_ H]]]; [| discriminate].
        left. by eapply DoAddInTuple_Fatal.
Qed.

(** ** The reverse walk *)

Section Reverse.

Variable gradient_op_map :
  string → option (Expr → Var → addr → list Expr * addr).


Lemma BindAndEmit_frame v e s :
  adjoint_var_map (BindAndEmit v e s) = adjoint_var_map s ∧
  adjoint_expr_map (BindAndEmit v e s) = adjoint_expr_map s ∧
  target_var (BindAndEmit v e s) = target_var s ∧
  zeros_tracker_ (BindAndEmit v e s) = zeros_tracker_ s ∧
  next_addr (BindAndEmit v e s) = next_addr s.
Proof.
  unfold BindAndEmit.
  destruct (adjoint_binding_ s !! expr_addr e), (var_is_dataflow v); by repeat split.
Qed.

Lemma update_args_Ok args : ∀ partials s s',
  update_args args partials s = Ok s' → adjoint_var_map s' = adjoint_var_map s.
Proof.
  induction args as [|arg args IH]; intros [|p partials] s s' H; simpl in H;
    try discriminate; try by injection H as <-.
  destruct arg as [v| | | | | |]; try discriminate.
  apply bind_Ok in H as [s1 [H1 H]].
  apply (UpdateExprMap_Ok (EVar v)) in H1 as [<- _]. by eapply IH.
Qed.

Lemma update_args_Fatal args : ∀ partials s e,
  update_args args partials s = Fatal e →
  UpdateExprMap_error e ∨ e = ErrIndex ∨ e = ErrArgNotVar.
Proof.
  induction args as [|arg args IH]; intros [|p partials] s e H; simpl in H;
    try discriminate; try (injection H as <-; tauto).
  destruct arg as [v| | | | | |]; try (injection H as <-; tauto).
  apply bind_Fatal in H as [H | [s1 [_ H]]]; [| by eapply IH].
  left. by eapply (UpdateExprMap_Fatal (EVar v)).
Qed.

Lemma propagate_Ok adjoint_var var value s s' :
  (propagate gradient_op_map) adjoint_var var value s = Ok s' →
  adjoint_var_map s' = adjoint_var_map s.
Proof.
  unfold propagate. intros H.
  apply bind_Ok in H as [e [_ H]].
  pose proof (BindAndEmit_frame adjoint_var e s) as [Hm _].
  destruct value; try discriminate;
    try (apply bind_Ok in H as [e' [_ H]];
         apply UpdateExprMap_Ok in H as [-> _]; exact Hm).
  destruct op as [name|]; [| discriminate].
  destruct (gradient_op_map name) as [grad|]; [| discriminate].
  destruct (grad _ _ _) as [partials n].
  apply bind_Ok in H as [_ [_ H]].
  apply update_args_Ok in H. by rewrite H.
Qed.

Lemma propagate_Fatal adjoint_var var value s :
  (propagate gradient_op_map) adjoint_var var value s = Fatal ErrUnsupportedBinding →
  supported_value value = false.
Proof.
  unfold propagate. intros H.
  apply bind_Fatal in H as [H | [e [_ H]]].
  { unfold at_ in H. by destruct (_ !! _). }
  destruct value; try reflexivity; exfalso.
  1-3: apply bind_Fatal in H as [H | [e' [_ H]]];
    [unfold at_ in H; by destruct (_ !! _) |];
    apply UpdateExprMap_Fatal in H;
    unfold UpdateExprMap_error, DoAdd_error, BuildEmpty_error in H;
    destruct_or!; discriminate.
  destruct op as [name|]; [| discriminate].
  destruct (gradient_op_map name) as [grad|]; [| discriminate].
  destruct (grad _ _ _) as [partials n].
  apply bind_Fatal in H as [H | [_ [_ H]]].
  { unfold ICHECK in H. by case_bool_decide. }
  apply update_args_Fatal in H.
  unfold UpdateExprMap_error, DoAdd_error, BuildEmpty_error in H.
  destruct_or!; discriminate.
Qed.

Lemma ReverseVisit_Fatal var value s :
  (ReverseVisit gradient_op_map) var value s = Fatal ErrUnsupportedBinding →
  supported_value value = false.
Proof.
  unfold ReverseVisit. intros H.
  apply bind_Fatal in H as [H | [adj [_ H]]].
  { unfold at_ in H. by destruct (_ !! _). }
  destruct (adjoint_expr_map _ !! _); [by eapply propagate_Fatal |].
  case_bool_decide; [| discriminate].
  apply bind_Fatal in H as [H | [s1 [_ H]]]; [| by eapply propagate_Fatal].
  unfold InitGrad in H. apply bind_Fatal in H as [H | [dt [_ H]]]; [| discriminate].
  unfold dtype_of in H. by destruct (checked_type _ _).
Qed.

Lemma reverse_loop_Fatal (bs : list Binding) e :
  foldl (fun r b => s ← r; (reverse_step gradient_op_map) s b) (Fatal e) bs = Fatal e.
Proof. induction bs; [reflexivity | simpl; done]. Qed.

Lemma reverse_mode_snoc bs b s :
  (reverse_mode gradient_op_map) (bs ++ [b]) s = (reverse_step gradient_op_map) s b ≫= (reverse_mode gradient_op_map) bs.
Proof.
  unfold reverse_mode. rewrite rev_app_distr. simpl.
  destruct ((reverse_step gradient_op_map) s b) as [s1|e]; simpl; [reflexivity |].
  apply reverse_loop_Fatal.
Qed.

Lemma reverse_mode_app bs1 bs2 s :
  (reverse_mode gradient_op_map) (bs1 ++ bs2) s = (reverse_mode gradient_op_map) bs2 s ≫= (reverse_mode gradient_op_map) bs1.
Proof.
  revert s. induction bs2 as [|b bs2 IH] using rev_ind; intros s.
  - rewrite app_nil_r. reflexivity.
  - rewrite app_assoc, !reverse_mode_snoc.
    destruct ((reverse_step gradient_op_map) s b) as [s1|e]; simpl; [apply IH | reflexivity].
Qed.

(** C10: the reverse walk skips a binding that is no variable binding: the
    step on it returns the state as it was (no adjoint variable, no
    propagation, no error), so the walk over a region equals the walk over
    the region without it; and when the walk fails with "AD does not support
    this type of binding value", the region has a variable binding whose
    right-hand side is none of tuple construction, tuple projection,
    variable reference, call. *)
Theorem reverse_walk_bindings :
  (∀ s value pattern var, (reverse_step gradient_op_map) s (MatchShape value pattern var) = Ok s) ∧
  (∀ bs1 bs2 s value pattern var,
     (reverse_mode gradient_op_map) (bs1 ++ MatchShape value pattern var :: bs2) s
       = (reverse_mode gradient_op_map) (bs1 ++ bs2) s) ∧
  (∀ bs s,
     (reverse_mode gradient_op_map) bs s = Fatal ErrUnsupportedBinding →
     ∃ var value, VarBinding var value ∈ bs ∧ supported_value value = false).
Proof.
  split; [reflexivity | split].
  - intros bs1 bs2 s value pattern var.
    rewrite !reverse_mode_app.
    change (MatchShape value pattern var :: bs2)
      with ([MatchShape value pattern var] ++ bs2).
    rewrite reverse_mode_app.
    destruct ((reverse_mode gradient_op_map) bs2 s) as [s1|e]; reflexivity.
  - intros bs. induction bs as [|b bs IH] using rev_ind; intros s H; [discriminate |].
    rewrite reverse_mode_snoc in H.
    apply bind_Fatal in H as [H | [s1 [_ H]]].
    + destruct b as [var value|]; [| discriminate].
      exists var, value. split; [set_solver |]. by eapply ReverseVisit_Fatal.
    + apply IH in H as (var & value & Hin & Hv).
      exists var, value. split; [set_solver | done].
Qed.

(** C4, as the code has it: the adjoint variable that the reverse walk
    creates for the variable [var] of a visited binding is an intermediate
    (dataflow) variable named [<var>_adjoint], with the shape and type of
    [var], whatever the kind of [var]. *)
Theorem ReverseVisit_adjoint_var var value s s' :
  adjoint_var_map s !! var_addr var = None →
  (ReverseVisit gradient_op_map) var value s = Ok s' →
  ∃ adjoint,
    adjoint_var_map s' !! var_addr var = Some adjoint ∧
    var_is_dataflow adjoint = true ∧
    var_name adjoint = var_name var +:+ "_adjoint" ∧
    var_shape adjoint = shape s var ∧
    var_type adjoint = checked_type s var.
Proof.
  intros Hnone H. unfold ReverseVisit in H.
  set (s1 := CreateAdjointVar var true s) in *.
  assert (adjoint_var_map s1 !! var_addr var = Some
            (mkVar (S (next_addr s)) true
               (mkId (next_addr s) (var_name var +:+ "_adjoint"))
               (shape s var) (checked_type s var) None)) as Hs1.
  { unfold s1, CreateAdjointVar. rewrite Hnone. simpl. apply lookup_insert_eq. }
  clearbody s1.
  exists (mkVar (S (next_addr s)) true
            (mkId (next_addr s) (var_name var +:+ "_adjoint"))
            (shape s var) (checked_type s var) None).
  split; [| by repeat split].
  apply bind_Ok in H as [adj [_ H]].
  destruct (adjoint_expr_map s1 !! var_addr var).
  - apply propagate_Ok in H. by rewrite H.
  - case_bool_decide; [| by injection H as <-].
    apply bind_Ok in H as [s2 [Hi H]]. apply propagate_Ok in H. rewrite H.
    unfold InitGrad in Hi. apply bind_Ok in Hi as [dt [_ Hi]].
    simpl in Hi. by injection Hi as <-.
Qed.

End Reverse.

(** ** The function transformation *)

Section Transform.

Variable gradient_op_map :
  string → option (Expr → Var → addr → list Expr * addr).
Variable VisitWithNewScope : gmap addr Var → FuncBody → addr → FuncBody * addr.
Variable Normalize : FuncBody → FuncBody.


Lemma clone_params_spec ps : ∀ s new_params s',
  clone_params ps s = (new_params, s') →
  checked_type_ s' = checked_type_ s ∧ shape_ s' = shape_ s ∧
  next_addr s ≤ next_addr s' ∧
  Forall2 (fun p p' => is_clone_of s p p' ∧ next_addr s ≤ var_addr p' < next_addr s')
    ps new_params.
Proof.
  induction ps as [|p ps IH]; intros s nps s' H; simpl in H.
  - injection H as <- <-. by repeat split.
  - destruct (clone_params ps _) as [nps' s3] eqn:Hrec. injection H as <- <-.
    apply IH in Hrec as (Hct & Hsh & Hle & Hall). simpl in *.
    repeat split; try done; try lia.
    constructor; [by repeat split; simpl; try lia |].
    eapply Forall2_impl; [exact Hall |]. simpl.
    intros q q' [(? & Hs & Ht & ? & ?) ?].
    repeat split; try done; try lia.
Qed.

Lemma transform_body_params G node new_params new_body s f' s' :
  (transform_body gradient_op_map Normalize) G node new_params new_body s = Ok (f', s') →
  params f' = new_params.
Proof.
  unfold transform_body. intros H.
  destruct new_body as [blocks seq_body|]; [| discriminate].
  apply bind_Ok in H as [block [_ H]].
  apply bind_Ok in H as [_ [_ H]].
  destruct seq_body as [target| | | | | |]; try discriminate.
  apply bind_Ok in H as [_ [_ H]].
  apply bind_Ok in H as [s1 [_ H]].
  apply bind_Ok in H as [[out s2] [_ H]].
  simpl in H. by injection H as <- _.
Qed.



Lemma emit_input_adjoint_Ok new_param s adjoint s' :
  emit_input_adjoint new_param s = Ok (adjoint, s') →
  adjoint_var_map s !! var_addr new_param = Some adjoint ∧
  adjoint_var_map s' = adjoint_var_map s ∧
  adjoint_expr_map s' = adjoint_expr_map s.
Proof.
  unfold emit_input_adjoint. intros H.
  apply bind_Ok in H as [av [Hav H]]. apply at_Ok in Hav.
  destruct (adjoint_expr_map s !! var_addr new_param) as [e|].
  - injection H as <- <-.
    pose proof (BindAndEmit_frame av e s) as (? & ? & _). done.
  - apply bind_Ok in H as [dt [_ H]]. simpl in H. injection H as <- <-.
    match goal with |- context [BindAndEmit ?v ?e ?s0] =>
      pose proof (BindAndEmit_frame v e s0) as (-> & -> & _) end.
    done.
Qed.

Lemma emit_input_adjoints_Ok G old_new : ∀ s out s',
  emit_input_adjoints G old_new s = Ok (out, s') →
  adjoint_var_map s' = adjoint_var_map s ∧
  adjoint_expr_map s' = adjoint_expr_map s ∧
  Forall2 (fun new_param adjoint => adjoint_var_map s !! var_addr new_param = Some adjoint)
    (selected_params G old_new) out.*1.
Proof.
  unfold selected_params.
  induction old_new as [|[p np] old_new IH]; intros s out s' H; simpl in H.
  - injection H as <- <-. repeat split. constructor.
  - simpl. destruct (requires_grad G p).
    + apply bind_Ok in H as [[av s1] [H1 H]].
      apply bind_Ok in H as [[out' s2] [H2 H]]. injection H as <- <-.
      apply emit_input_adjoint_Ok in H1 as (Hav & Hm & He).
      apply IH in H2 as (Hm2 & He2 & Hall). rewrite Hm in Hm2, Hall. rewrite He in He2.
      repeat split; try done. simpl. by constructor.
    + by apply IH.
Qed.

(** The stages of a successful [(transform_body gradient_op_map Normalize)]. *)
Lemma transform_body_Ok G node new_params new_body s f' s' :
  (transform_body gradient_op_map Normalize) G node new_params new_body s = Ok (f', s') →
  ∃ block target s_rev out s_out,
    let old_new := zip (params node) new_params in
    let s_pre := before_target G old_new block s in
    new_body = SeqExpr [block] (EVar target) ∧
    is_dataflow_block block = true ∧
    CheckTarget target s_pre = Ok tt ∧
    (reverse_mode gradient_op_map) (bindings block) (set_target_var (Some target) s_pre) = Ok s_rev ∧
    emit_input_adjoints G old_new s_rev = Ok (out, s_out) ∧
    s' = set_next_addr (S (S (next_addr s_out))) s_out ∧
    f' = mkFunction new_params
           (Normalize
              (SeqExpr [EndBlock s']
                 (Tuple (S (next_addr s_out))
                    [EVar target; Tuple (next_addr s_out) (EVar <$> out.*1)])))
           (TupleType [ret_type node; TupleType out.*2]) (attrs node).
Proof.
  unfold transform_body. intros H.
  destruct new_body as [blocks seq_body|]; [| discriminate].
  apply bind_Ok in H as [block [Hb H]].
  destruct blocks as [|block' [|]]; try discriminate. injection Hb as ->.
  apply bind_Ok in H as [[] [Hdf H]]. apply ICHECK_Ok in Hdf.
  destruct seq_body as [target| | | | | |]; try discriminate.
  apply bind_Ok in H as [[] [Hct H]].
  apply bind_Ok in H as [s_rev [Hrev H]].
  apply bind_Ok in H as [[out s_out] [Hout H]].
  simpl in H. injection H as <- <-.
  exists block, target, s_rev, out, s_out. by repeat split.
Qed.

(** C1, as the code has it: the return value of the output function is the
    pair of the reproduced region's terminator and the tuple of the adjoint
    variables of the parameters that require a gradient, listed in parameter
    order (all parameters when the requires-gradient list is empty). *)
Theorem FuncTransform_return G node s f' s' :
  (FuncTransform gradient_op_map VisitWithNewScope Normalize) G node s = Ok (f', s') →
  ∃ blocks ret block a1 a2 adjoints,
    ((forward_clone VisitWithNewScope) node s).1.2 = SeqExpr blocks ret ∧
    body f' = Normalize (SeqExpr [block] (Tuple a2 [ret; Tuple a1 (EVar <$> adjoints)])) ∧
    Forall2 (fun new_param adjoint =>
               adjoint_var_map s' !! var_addr new_param = Some adjoint)
      (selected_params G (zip (params node) (params f'))) adjoints.
Proof.
  intros H. unfold FuncTransform in H.
  apply bind_Ok in H as [_ [_ H]].
  destruct ((forward_clone VisitWithNewScope) node s) as [[new_params new_body] s1].
  apply transform_body_Ok in H
    as (block & target & s_rev & out & s_out & -> & _ & _ & _ & Hout & -> & ->).
  apply emit_input_adjoints_Ok in Hout as (Hm & _ & Hall).
  exists [block], (EVar target). eexists _, _, _, out.*1. simpl.
  split; [reflexivity | split; [reflexivity |]].
  by rewrite Hm.
Qed.

End Transform.

(** ** Fatal errors of the pass *)

Lemma is_fatal_bind_l {A B} (r : Result A) (f : A → Result B) :
  is_fatal r = true → is_fatal (r ≫= f) = true.
Proof. by destruct r. Qed.

Lemma is_fatal_bind_r {A B} (r : Result A) (f : A → Result B) :
  (∀ a, r = Ok a → is_fatal (f a) = true) → is_fatal (r ≫= f) = true.
Proof. destruct r; simpl; auto. Qed.

Lemma is_fatal_Fatal {A} (r : Result A) : is_fatal r = true → ∃ e, r = Fatal e.
Proof. destruct r; [discriminate | eauto]. Qed.

Lemma CreateAdjointVar_stamps v k s :
  checked_type_ (CreateAdjointVar v k s) = checked_type_ s ∧
  shape_ (CreateAdjointVar v k s) = shape_ s.
Proof. unfold CreateAdjointVar. by destruct (adjoint_var_map s !! var_addr v). Qed.

Lemma before_target_stamps G old_new block s :
  checked_type_ (before_target G old_new block s) = checked_type_ s ∧
  shape_ (before_target G old_new block s) = shape_ s.
Proof.
  unfold before_target.
  assert (∀ s0, checked_type_ (create_input_adjoints G old_new s0) = checked_type_ s0 ∧
                shape_ (create_input_adjoints G old_new s0) = shape_ s0) as Hc.
  { induction old_new as [|[p np] old_new IH]; intros s0; simpl; [done |].
    destruct (IH (CreateAdjointVar np (negb (requires_grad G p)) s0)) as [-> ->].
    apply CreateAdjointVar_stamps. }
  destruct (Hc (foldl (fun s b => VisitBinding b s) (BeginDataflowBlock s) (bindings block)))
    as [-> ->].
  generalize (BeginDataflowBlock s) (eq_refl : checked_type_ (BeginDataflowBlock s) = checked_type_ s)
    (eq_refl : shape_ (BeginDataflowBlock s) = shape_ s).
  induction (bindings block) as [|b bs IH]; intros s0 H1 H2; simpl; [done |].
  apply IH; unfold VisitBinding; by destruct b, (var_is_dataflow _).
Qed.

Lemma CheckTarget_not_scalar target s s0 :
  checked_type_ s = checked_type_ s0 → shape_ s = shape_ s0 →
  scalar_target s0 target = false → is_fatal (CheckTarget target s) = true.
Proof.
  unfold scalar_target, CheckTarget, checked_type, shape. intros -> -> H.
  destruct (var_is_dataflow target); [reflexivity |]. simpl.
  destruct (default (var_type target) _); try reflexivity. simpl.
  destruct (default (var_shape target) _) as [| | | | a [|d values] | |];
    try reflexivity; discriminate.
Qed.

Section Aborts.

Variable gradient_op_map :
  string → option (Expr → Var → addr → list Expr * addr).
Variable VisitWithNewScope : gmap addr Var → FuncBody → addr → FuncBody * addr.
Variable Normalize : FuncBody → FuncBody.


Lemma FuncTransform_violated G node s :
  precondition_violated ((forward_clone VisitWithNewScope) node s).2 ((forward_clone VisitWithNewScope) node s).1.2 →
  is_fatal ((FuncTransform gradient_op_map VisitWithNewScope Normalize) G node s) = true.
Proof.
  unfold FuncTransform.
  destruct ((forward_clone VisitWithNewScope) node s) as [[new_params new_body] s1]. simpl.
  intros Hv. apply is_fatal_bind_r. intros _ _.
  unfold transform_body.
  inversion Hv as [blocks seq_body Hlen | blocks seq_body Hvar | blocks target Hsc];
    subst new_body.
  - destruct blocks as [|block [|]]; try reflexivity. by destruct Hlen.
  - apply is_fatal_bind_r. intros block _.
    apply is_fatal_bind_r. intros _ _.
    destruct seq_body; try reflexivity. by edestruct Hvar.
  - apply is_fatal_bind_r. intros block _.
    apply is_fatal_bind_r. intros _ _.
    apply is_fatal_bind_l.
    destruct (before_target_stamps G (zip (params node) new_params) block s1).
    by eapply CheckTarget_not_scalar.
Qed.

Lemma structure_kept_violated s body s1 new_body :
  structure_kept s body s1 new_body →
  precondition_violated s body → precondition_violated s1 new_body.
Proof.
  intros Hk Hv. destruct Hv as [blocks ret Hlen | blocks ret Hvar | blocks target Hsc];
    destruct new_body as [blocks' ret'|]; simpl in Hk; try done.
  - destruct Hk as [Hk _]. apply regions_not_one. congruence.
  - destruct Hk as [_ Hk]. apply terminator_not_var. intros v' ->.
    destruct ret; try done. by eapply Hvar.
  - destruct Hk as [_ Hk]. destruct ret' as [target'| | | | | |]; try done.
    destruct Hk as [Hct Hsh]. apply target_not_scalar.
    unfold scalar_target in *. by rewrite Hct, Hsh.
Qed.

(** C8: the pass ends in a fatal error, with no module returned, when the
    function is not found in the module (no entry, or an entry that is no
    relax function), when an entry of the requires-gradient list is not a
    parameter of the function, when the body of the function is no sequence
    of regions, and when the body as the forward cloner reproduces it does
    not have exactly one region, has a terminator that is not a variable
    reference, or has a target variable that is not a scalar tensor.  These
    three are conditions on the body of the function itself whenever the
    cloner keeps its structure. *)
Theorem SimpleAD_aborts m var G h node :
  heap_modules h !! m = Some node →
  (¬ (∃ F, Lookup node var = Ok (RelaxFunction F))) ∨
  (∃ F, Lookup node var = Ok (RelaxFunction F) ∧
     ((∃ g, g ∈ G ∧ ∀ p, p ∈ params F → var_addr p ≠ var_addr g) ∨
      (∀ blocks ret, body F ≠ SeqExpr blocks ret) ∨
      precondition_violated ((forward_clone VisitWithNewScope) F (SimpleAD_mutator m node h)).2
        ((forward_clone VisitWithNewScope) F (SimpleAD_mutator m node h)).1.2 ∨
      (structure_kept (SimpleAD_mutator m node h) (body F)
         ((forward_clone VisitWithNewScope) F (SimpleAD_mutator m node h)).2
         ((forward_clone VisitWithNewScope) F (SimpleAD_mutator m node h)).1.2 ∧
       precondition_violated (SimpleAD_mutator m node h) (body F)))) →
  ∃ e, (SimpleAD gradient_op_map VisitWithNewScope Normalize) m var G h = Fatal e.
Proof.
  intros Hm Hcond. apply is_fatal_Fatal.
  unfold SimpleAD, at_. rewrite Hm. simpl.
  destruct Hcond as [Hnot | (F & HF & [(g & Hg & Hnp) | [Hseq | Hv]])].
  - destruct (Lookup node var) as [[F|]|]; try reflexivity.
    destruct Hnot. eauto.
  - rewrite HF. simpl. apply is_fatal_bind_l.
    replace (forallb _ G) with false; [reflexivity |].
    symmetry. apply not_true_is_false. rewrite forallb_forall. intros Hall.
    apply list_elem_of_In, Hall, existsb_exists in Hg as (p & Hp & Heq).
    apply bool_decide_eq_true in Heq. apply list_elem_of_In in Hp. by eapply Hnp.
  - rewrite HF. simpl. apply is_fatal_bind_r. intros _ _.
    destruct (CopyOnWrite m node h) as [new_module h1] eqn:Hcow.
    apply is_fatal_bind_l. unfold FuncTransform. apply is_fatal_bind_l.
    destruct (body F) as [blocks ret|]; [by edestruct Hseq | reflexivity].
  - rewrite HF. simpl. apply is_fatal_bind_r. intros _ _.
    destruct (CopyOnWrite m node h) as [new_module h1] eqn:Hcow.
    apply is_fatal_bind_l. apply FuncTransform_violated.
    destruct Hv as [Hv | [Hk Hv]]; [done | by eapply structure_kept_violated].
Qed.

End Aborts.

(** ** The adjoint expression table under [UpdateExprMap] *)

Lemma mirrors_mono zs zs' shape e : zs ⊆ zs' → mirrors zs shape e → mirrors zs' shape e.
Proof.
  intros Hsub. revert e.
  induction shape as [| a fields IH | | | | |] using Expr_fields_ind;
    intros e Hm; inversion Hm as [? ? ? ? Hin | ? ? ? fs Hfs]; subst.
  - constructor. clear Hm. revert fs Hfs.
    induction IH as [|sh shs Hsh _ IHl]; intros fs Hfs; inversion Hfs; subst;
      constructor; auto.
  - constructor. set_solver.
Qed.

Lemma BuildEmpty_mirrors shape : ∀ type_fields s r s',
  BuildEmptyNestedTupleExpr shape type_fields s = Ok (r, s') →
  zeros_tracker_ s ⊆ zeros_tracker_ s' ∧ mirrors (zeros_tracker_ s') shape r.
Proof.
  induction shape as [| a fields IH | | | | |] using Expr_fields_ind;
    intros type_fields s r s'; try discriminate.
  rewrite BuildEmpty_Tuple. intros H.
  apply bind_Ok in H as [[rs s1] [Hl Ht]].
  apply new_tuple_Ok in Ht as [-> ->]. simpl.
  cut (zeros_tracker_ s ⊆ zeros_tracker_ s1 ∧
       Forall2 (mirrors (zeros_tracker_ s1)) fields rs).
  { intros [? ?]. split; [done | by constructor]. }
  clear a. revert Hl. generalize 0 as i. revert s rs s1.
  induction IH as [|sh fields Hsh _ IHl]; intros s rs s1 i Hl; simpl in Hl.
  - injection Hl as <- <-. split; [done | constructor].
  - apply bind_Ok in Hl as [[r s2] [Hr Hl]].
    apply bind_Ok in Hl as [[rs' s3] [Hrs Hl]]. injection Hl as <- <-.
    apply IHl in Hrs as [Hsub3 Hrs].
    assert (zeros_tracker_ s ⊆ zeros_tracker_ s2 ∧ mirrors (zeros_tracker_ s2) sh r)
      as [Hsub2 Hr2].
    { destruct sh; try discriminate.
      - destruct (type_fields !! i) as [[]|]; try discriminate. by apply Hsh in Hr.
      - destruct (type_fields !! i) as [t|]; try discriminate.
        apply bind_Ok in Hr as [dt [_ Hr]]. simpl in Hr. injection Hr as <- <-.
        simpl. split; [apply union_subseteq_r |]. constructor.
        apply elem_of_union_l. by apply elem_of_singleton. }
    split; [by transitivity (zeros_tracker_ s2) |].
    constructor; [by eapply mirrors_mono | done].
Qed.

(** What [UpdateExprMap] stores, branch by branch.  On a variable
    base [v] without an entry the stored value is the increment itself, or
    the variable the intern table binds to it (whatever the type of [v]);
    on a variable base with an entry it is [DoAdd] of the entry and the
    increment.  On a tuple-projection base [t.k] the stored value is a
    tuple literal: it has the arity and, except at [k], the fields of the
    entry it replaces, and when there was no entry it replaces the
    structural zero that mirrors the nesting of [t]'s shape. *)
Theorem UpdateExprMap_stores :
  (∀ v increment s s',
     UpdateExprMap (EVar v) increment s = Ok s' →
     match adjoint_expr_map s !! var_addr v with
     | None => adjoint_expr_map s' !! var_addr v = Some (interned s increment)
     | Some current =>
         ∃ updated s1,
           DoAdd current increment s = Ok (updated, s1) ∧
           adjoint_expr_map s' !! var_addr v = Some updated
     end) ∧
  (∀ a t index increment s s',
     UpdateExprMap (TupleGetItem a (EVar t) index) increment s = Ok s' →
     ∃ a0 origin_fields a' fields',
       match adjoint_expr_map s !! var_addr t with
       | Some current => current = Tuple a0 origin_fields
       | None => mirrors (zeros_tracker_ s') (shape s t) (Tuple a0 origin_fields)
       end ∧
       adjoint_expr_map s' !! var_addr t = Some (Tuple a' fields') ∧
       length fields' = length origin_fields ∧
       ∀ j, Z.of_nat j ≠ index → fields' !! j = origin_fields !! j).
Proof.
  split.
  - intros v inc s s' H. simpl in H.
    destruct (adjoint_expr_map s !! var_addr v) as [current|].
    + apply bind_Ok in H as [[updated s1] [Hadd H]]. injection H as <-.
      exists updated, s1. split; [done |]. simpl. apply lookup_insert_eq.
    + unfold interned.
      destruct (adjoint_binding_ s !! expr_addr inc); injection H as <-;
        simpl; apply lookup_insert_eq.
  - intros a t index inc s s' H. simpl in H.
    destruct (shape s t) as [| ash shape_fields | | | | |] eqn:Hsh; try discriminate.
    apply bind_Ok in H as [s1 [Hinit H]].
    apply bind_Ok in H as [current [Hcur H]]. apply at_Ok in Hcur.
    destruct current as [| a0 origin_fields | | | | |]; try discriminate.
    apply bind_Ok in H as [[updated s2] [Hadd H]]. injection H as <-.
    apply DoAddInTuple_Ok in Hadd as ([Hs2 _] & a' & fields' & -> & Hlen & Hnth).
    exists a0, origin_fields, a', fields'.
    split; [| split; [simpl; apply lookup_insert_eq | done]].
    destruct (adjoint_expr_map s !! var_addr t) as [e|] eqn:He.
    + injection Hinit as <-. congruence.
    + destruct (checked_type s t); try discriminate.
      apply bind_Ok in Hinit as [[init s0] [Hb Hinit]]. injection Hinit as <-.
      simpl in Hcur. rewrite lookup_insert_eq in Hcur. injection Hcur as ->.
      apply BuildEmpty_mirrors in Hb as [_ Hb].
      rewrite Hs2. simpl. exact Hb.
Qed.

(** ** Ownership: the nodes the pass writes to are its own *)

Lemma stamps_below_refl lo s : stamps_below lo s s.
Proof. by intros k _. Qed.

Lemma stamps_below_trans lo s1 s2 s3 :
  stamps_below lo s1 s2 → stamps_below lo s2 s3 → stamps_below lo s1 s3.
Proof.
  intros H12 H23 k Hk. destruct (H12 k Hk) as [<- <-]. by apply H23.
Qed.

Lemma stamps_below_eq lo s s' :
  checked_type_ s' = checked_type_ s → shape_ s' = shape_ s → stamps_below lo s s'.
Proof. unfold stamps_below. intros -> -> k _. done. Qed.

Lemma owned_lo lo hi e : owned lo hi e → lo ≤ expr_addr e < hi.
Proof. by inversion 1. Qed.

Lemma owned_var lo hi (u : Var) : lo ≤ var_addr u < hi → owned lo hi (EVar u).
Proof. intros. by apply owned_leaf. Qed.

Lemma owned_fields lo hi a fields : owned lo hi (Tuple a fields) → Forall (owned lo hi) fields.
Proof. inversion 1; [discriminate | done]. Qed.

Lemma DoAdd_owned src1 : ∀ src2 s r s' lo,
  DoAdd src1 src2 s = Ok (r, s') →
  owned lo (next_addr s) src1 → owned lo (next_addr s) src2 →
  (∀ k u, adjoint_binding_ s !! k = Some u → lo ≤ var_addr u < next_addr s) →
  owned lo (next_addr s') r.
Proof.
  induction src1 as [v | a fields IH | ? ? ? _ | ? ? ? ? _ | | |] using Expr_fields_ind;
    intros src2 s r s' lo H Ho1 Ho2 Hb;
    pose proof (owned_lo _ _ _ Ho1) as Hlo;
    rewrite DoAdd_unfold in H; unfold new_add in H;
    simpl in H; repeat case_match; simplify_eq; try done;
    try (apply owned_leaf; [done | simpl; lia]).
  apply bind_Ok in H as [[] [_ H]].
  apply bind_Ok in H as [[rs s1] [Hp Ht]].
  apply new_tuple_Ok in Ht as [-> ->]. simpl in *.
  match type of Hp with pairwise _ _ ?l _ = _ => rename l into fields2 end.
  apply owned_fields in Ho1, Ho2.
  assert (next_addr s ≤ next_addr s1 ∧ Forall (owned lo (next_addr s1)) rs) as [Hle Hrs].
  { clear - IH Hp Ho1 Ho2 Hb. revert fields2 s rs s1 Hp Ho1 Ho2 Hb.
    induction IH as [|f1 fields1 Hf1 _ IHl]; intros [|f2 fields2] s rs s1 Hp Ho1 Ho2 Hb;
      simpl in Hp; try discriminate; try (injection Hp as <- <-; by split).
    apply bind_Ok in Hp as [[r1 s2] [H1 Hp]].
    apply bind_Ok in Hp as [[rs' s3] [H2 Hp]]. injection Hp as <- <-.
    apply Forall_cons in Ho1 as [Hof1 Ho1]. apply Forall_cons in Ho2 as [Hof2 Ho2].
    pose proof (DoAdd_alloc_only _ _ _ _ _ H1) as [Heq Hle2].
    pose proof (Hf1 _ _ _ _ _ H1 Hof1 Hof2 Hb) as Hr1.
    apply IHl in H2 as [Hle3 Hrs].
    - split; [lia |]. constructor; [| done].
      eapply owned_mono; [| | exact Hr1]; lia.
    - eapply Forall_impl; [exact Ho1 |]. intros e0. by apply owned_mono.
    - eapply Forall_impl; [exact Ho2 |]. intros e0. by apply owned_mono.
    - intros k u. rewrite Heq. simpl. intros Hu. apply Hb in Hu. lia. }
  apply owned_tuple; [lia |].
  eapply Forall_impl; [exact Hrs |]. intros e0. apply owned_mono; lia.
Qed.

Lemma DoAddInTuple_owned fields index increment s r s' lo :
  DoAddInTuple fields index increment s = Ok (r, s') →
  lo ≤ next_addr s →
  Forall (owned lo (next_addr s)) fields → owned lo (next_addr s) increment →
  (∀ k u, adjoint_binding_ s !! k = Some u → lo ≤ var_addr u < next_addr s) →
  owned lo (next_addr s') r.
Proof.
  unfold DoAddInTuple. intros H Hlo Hf Hi Hb.
  apply bind_Ok in H as [[rs s1] [Hrs H]]. simpl in H. injection H as <- <-.
  assert (next_addr s ≤ next_addr s1 ∧ Forall (owned lo (next_addr s1)) rs) as [Hle Hall].
  { revert Hrs. generalize 0 as i. revert s rs s1 Hlo Hf Hi Hb.
    induction fields as [|f fields IH]; intros s rs s1 Hlo Hf Hi Hb i Hrs; simpl in Hrs.
    - injection Hrs as <- <-. by split.
    - apply bind_Ok in Hrs as [[r1 s2] [H1 Hrs]].
      apply bind_Ok in Hrs as [[rs' s3] [H2 Hrs]]. injection Hrs as <- <-.
      apply Forall_cons in Hf as [Hof Hf].
      assert (alloc_only s s2 ∧ owned lo (next_addr s2) r1) as [[Heq Hle2] Hr1].
      { case_bool_decide.
        - split; [by eapply DoAdd_alloc_only | by eapply DoAdd_owned].
        - injection H1 as <- <-. split; [apply alloc_only_refl | done]. }
      apply IH in H2 as [Hle3 Hall]; try lia.
      + split; [lia |]. constructor; [| done].
        eapply owned_mono; [| | exact Hr1]; lia.
      + eapply Forall_impl; [exact Hf |]. intros e0. by apply owned_mono.
      + eapply owned_mono; [| | exact Hi]; lia.
      + intros k u. rewrite Heq. simpl. intros Hu. apply Hb in Hu. lia. }
  simpl. apply owned_tuple; [lia |].
  eapply Forall_impl; [exact Hall |]. intros e0. apply owned_mono; lia.
Qed.

Lemma alloc_only_fields s s' :
  alloc_only s s' →
  adjoint_var_map s' = adjoint_var_map s ∧
  adjoint_expr_map s' = adjoint_expr_map s ∧
  adjoint_binding_ s' = adjoint_binding_ s ∧
  zeros_tracker_ s' = zeros_tracker_ s ∧
  checked_type_ s' = checked_type_ s ∧
  shape_ s' = shape_ s ∧
  next_addr s ≤ next_addr s'.
Proof. intros [-> ?]. by repeat split. Qed.

Lemma Inv_alloc_only lo s s' : alloc_only s s' → Inv lo s → Inv lo s'.
Proof.
  intros Ha [Hn Hv He Hb].
  apply alloc_only_fields in Ha as (Hv' & He' & Hb' & _ & _ & _ & Hle).
  split.
  - lia.
  - intros k v. rewrite Hv'. intros Hk. apply Hv in Hk. lia.
  - intros k e. rewrite He'. intros Hk. apply He in Hk.
    eapply owned_mono; [| | exact Hk]; lia.
  - intros k u. rewrite Hb'. intros Hk. apply Hb in Hk. lia.
Qed.

Lemma Inv_set_adjoint_expr lo v e s :
  Inv lo s → owned lo (next_addr s) e → Inv lo (set_adjoint_expr v e s).
Proof.
  intros [Hn Hv He Hb] Ho. split; simpl; try done.
  intros k e0. rewrite lookup_insert. case_decide; [by intros [= <-] | apply He].
Qed.

Lemma Inv_ext lo s s' :
  next_addr s ≤ next_addr s' →
  adjoint_var_map s' = adjoint_var_map s →
  adjoint_expr_map s' = adjoint_expr_map s →
  adjoint_binding_ s' = adjoint_binding_ s →
  Inv lo s → Inv lo s'.
Proof.
  intros Hle Hv' He' Hb' [Hn Hv He Hb]. split.
  - lia.
  - intros k v. rewrite Hv'. intros Hk. apply Hv in Hk. lia.
  - intros k e. rewrite He'. intros Hk. apply He in Hk.
    eapply owned_mono; [| | exact Hk]; lia.
  - intros k u. rewrite Hb'. intros Hk. apply Hb in Hk. lia.
Qed.

Lemma build_only_fields s s' :
  build_only s s' →
  adjoint_var_map s' = adjoint_var_map s ∧
  adjoint_expr_map s' = adjoint_expr_map s ∧
  adjoint_binding_ s' = adjoint_binding_ s ∧
  checked_type_ s' = checked_type_ s ∧
  shape_ s' = shape_ s ∧
  next_addr s ≤ next_addr s'.
Proof. intros [-> ?]. by repeat split. Qed.

Lemma Inv_bind_values lo s :
  Inv lo s → ∀ k u, adjoint_binding_ s !! k = Some u → lo ≤ var_addr u < next_addr s.
Proof. intros [_ _ _ Hb] k u Hk. by apply Hb in Hk as [_ ?]. Qed.

Lemma UpdateExprMap_Inv base : ∀ increment s s' lo,
  UpdateExprMap base increment s = Ok s' →
  Inv lo s → owned lo (next_addr s) increment →
  Inv lo s' ∧ stamps_below lo s s'.
Proof.
  induction base as [v | a fields IH | a tuple index _ | ? ? ? ? _ | | |]
    using Expr_fields_ind; intros inc s s' lo H HI Ho; try discriminate.
  - simpl in H. destruct (adjoint_expr_map s !! var_addr v) as [current|] eqn:Hcur.
    + apply bind_Ok in H as [[upd s1] [Hadd H]]. injection H as <-.
      pose proof (DoAdd_alloc_only _ _ _ _ _ Hadd) as Ha.
      eapply DoAdd_owned in Hadd;
        [| by eapply inv_expr | done | by apply Inv_bind_values].
      split.
      * apply Inv_set_adjoint_expr; [by eapply Inv_alloc_only | done].
      * apply alloc_only_fields in Ha as (_ & _ & _ & _ & Hct & Hsh & _).
        by apply stamps_below_eq.
    + split; [| destruct (adjoint_binding_ s !! expr_addr inc); injection H as <-;
                by apply stamps_below_eq].
      destruct (adjoint_binding_ s !! expr_addr inc) as [u|] eqn:Hu; injection H as <-;
        apply Inv_set_adjoint_expr; try done.
      apply owned_var. by eapply Inv_bind_values.
  - destruct inc as [| a1 fields1 | | | | |]; try discriminate.
    rewrite UpdateExprMap_Tuple in H. apply owned_fields in Ho.
    revert H. generalize 0 as i. revert s HI Ho.
    induction IH as [|f fields Hf _ IHl]; intros s HI Ho i H; simpl in H.
    + injection H as <-. split; [done | apply stamps_below_refl].
    + destruct (fields1 !! i) as [inc|] eqn:Hi; [| discriminate].
      apply bind_Ok in H as [s1 [H1 H]].
      pose proof (UpdateExprMap_Ok _ _ _ _ H1) as (_ & _ & _ & _ & _ & _ & Hle).
      eapply Hf in H1 as [HI1 Hst1]; [| done |].
      * eapply IHl in H as [HI2 Hst2]; [| done |].
        -- split; [done | by eapply stamps_below_trans].
        -- eapply Forall_impl; [exact Ho |]. intros e0. by apply owned_mono.
      * rewrite Forall_lookup in Ho. by eapply Ho.
  - simpl in H. destruct tuple as [v| | | | | |]; try discriminate.
    destruct (shape s v) eqn:Hsh; try discriminate.
    apply bind_Ok in H as [s1 [Hinit H]].
    apply bind_Ok in H as [cur [Hcur H]]. apply at_Ok in Hcur.
    destruct cur as [| ? origin_fields | | | | |]; try discriminate.
    apply bind_Ok in H as [[upd s2] [Hadd H]]. injection H as <-.
    assert (Inv lo s1 ∧ stamps_below lo s s1 ∧ next_addr s ≤ next_addr s1)
      as (HI1 & Hst1 & Hle1).
    { destruct (adjoint_expr_map s !! var_addr v).
      - injection Hinit as <-. split; [done | split; [apply stamps_below_refl | lia]].
      - destruct (checked_type s v); try discriminate.
        apply bind_Ok in Hinit as [[init s0] [Hb Hinit]]. injection Hinit as <-.
        apply BuildEmpty_Ok in Hb as (Hbo & Hoi & _).
        apply build_only_fields in Hbo as (Hv' & He' & Hb' & Hct & Hsh' & Hle).
        pose proof (inv_next _ _ HI) as Hn.
        split; [| split; [| simpl; lia]].
        + apply Inv_set_adjoint_expr.
          * eapply (Inv_ext lo s); try done.
          * simpl. eapply owned_mono; [| | exact Hoi]; lia.
        + intros k Hk. simpl. rewrite Hsh', Hct. split; [| done].
          apply lookup_insert_ne. apply owned_lo in Hoi. lia. }
    pose proof (DoAddInTuple_Ok _ _ _ _ _ _ Hadd) as [Ha _].
    eapply DoAddInTuple_owned in Hadd.
    + split.
      * apply Inv_set_adjoint_expr; [by eapply Inv_alloc_only | exact Hadd].
      * eapply stamps_below_trans; [exact Hst1 |].
        apply alloc_only_fields in Ha as (_ & _ & _ & _ & Hct & Hsh' & _).
        by apply stamps_below_eq.
    + by eapply inv_next.
    + eapply owned_fields, inv_expr; [exact HI1 | exact Hcur].
    + eapply owned_mono; [| | exact Ho]; lia.
    + by apply Inv_bind_values.
Qed.

Ltac inv_ext HI :=
  eapply Inv_ext; [| | | | exact HI]; simpl; try done; try lia.

Lemma BindAndEmit_Inv lo v e s :
  Inv lo s → lo ≤ var_addr v < next_addr s → owned lo (next_addr s) e →
  Inv lo (BindAndEmit v e s) ∧ stamps_below lo s (BindAndEmit v e s).
Proof.
  intros HI Hv Ho. unfold BindAndEmit.
  destruct (adjoint_binding_ s !! expr_addr e) as [u|] eqn:Hu.
  - destruct (var_is_dataflow v); (split; [inv_ext HI | by apply stamps_below_eq]).
  - apply owned_lo in Ho.
    assert (Inv lo (set_adjoint_binding_ (<[expr_addr e := v]> (adjoint_binding_ s)) s))
      as HI'.
    { destruct HI as [Hn Hvar He Hb]. split; simpl; try done.
      intros k u. rewrite lookup_insert. case_decide; [intros [= <-]; by subst | apply Hb]. }
    destruct (var_is_dataflow v);
      (split; [inv_ext HI' |
               intros k Hk; simpl; rewrite !lookup_insert_ne by lia; done]).
Qed.

Lemma CreateAdjointVar_Inv lo v k s :
  Inv lo s → Inv lo (CreateAdjointVar v k s).
Proof.
  intros [Hn Hv He Hb]. unfold CreateAdjointVar.
  destruct (adjoint_var_map s !! var_addr v); [done |]. split; simpl.
  - lia.
  - intros k0 v0. rewrite lookup_insert.
    case_decide; [intros [= <-]; simpl; lia | intros Hk; apply Hv in Hk; lia].
  - intros k0 e Hk. apply He in Hk. eapply owned_mono; [| | exact Hk]; lia.
  - intros k0 u Hk. apply Hb in Hk. lia.
Qed.

Lemma InitGrad_Inv lo adjoint_var var s s' :
  InitGrad adjoint_var var s = Ok s' →
  Inv lo s → Inv lo s' ∧ stamps_below lo s s'.
Proof.
  unfold InitGrad. intros H HI. apply bind_Ok in H as [dt [_ H]].
  simpl in H. injection H as <-.
  split; [| by apply stamps_below_eq].
  pose proof (inv_next _ _ HI).
  apply (Inv_set_adjoint_expr lo var _ (set_next_addr (S (next_addr s)) s)).
  - inv_ext HI.
  - apply owned_leaf; simpl; [done | lia].
Qed.

Lemma update_args_Inv lo args : ∀ partials s s',
  update_args args partials s = Ok s' →
  Inv lo s → Forall (owned lo (next_addr s)) partials →
  Inv lo s' ∧ stamps_below lo s s'.
Proof.
  induction args as [|arg args IH]; intros [|p partials] s s' H HI Hp; simpl in H;
    try discriminate; try (injection H as <-; split; [done | apply stamps_below_refl]).
  destruct arg as [v| | | | | |]; try discriminate.
  apply bind_Ok in H as [s1 [H1 H]].
  apply Forall_cons in Hp as [Hp1 Hp].
  pose proof (UpdateExprMap_Ok (EVar v) _ _ _ H1) as (_ & _ & _ & _ & _ & _ & Hle).
  apply (UpdateExprMap_Inv (EVar v) _ _ _ lo) in H1 as [HI1 Hst1]; try done.
  eapply IH in H as [HI2 Hst2]; [| done |].
  - split; [done | by eapply stamps_below_trans].
  - eapply Forall_impl; [exact Hp |]. intros e0. by apply owned_mono.
Qed.

Section Ownership.

Variable gradient_op_map :
  string → option (Expr → Var → addr → list Expr * addr).
Variable VisitWithNewScope : gmap addr Var → FuncBody → addr → FuncBody * addr.
Variable Normalize : FuncBody → FuncBody.

(** The contract of the forward cloner: it allocates forward. *)
Hypothesis clone_allocates : allocates_forward VisitWithNewScope.

(** The contract of the gradient registry: it allocates forward, and the
    partials (through their tuple literals) are nodes it has allocated, or
    nodes not older than the adjoint variable it was handed. *)
Hypothesis partials_owned : partials_fresh gradient_op_map.

Lemma propagate_Inv lo adjoint_var var value s s' :
  propagate gradient_op_map adjoint_var var value s = Ok s' →
  Inv lo s → lo ≤ var_addr adjoint_var < next_addr s →
  Inv lo s' ∧ stamps_below lo s s'.
Proof.
  unfold propagate. intros H HI Hav.
  apply bind_Ok in H as [e [He H]]. apply at_Ok in He.
  destruct (BindAndEmit_Inv lo adjoint_var e s) as [HI1 Hst1];
    [done | done | by eapply inv_expr |].
  pose proof (BindAndEmit_frame adjoint_var e s) as (_ & _ & _ & _ & Hnext).
  set (s1 := BindAndEmit adjoint_var e s) in *. clearbody s1.
  assert (∀ e', at_ (adjoint_expr_map s1) (var_addr var) = Ok e' →
                owned lo (next_addr s1) e') as Hat.
  { intros e' He'. apply at_Ok in He'. by eapply inv_expr. }
  destruct value as [| | |a op args at0| | |]; try discriminate.
  1-3: apply bind_Ok in H as [e' [He' H]];
    eapply UpdateExprMap_Inv in H as [HI2 Hst2]; [| done | by apply Hat];
    (split; [done | by eapply stamps_below_trans]).
  destruct op as [name|]; [| discriminate].
  destruct (gradient_op_map name) as [grad|] eqn:Hg; [| discriminate].
  destruct (partials_owned name grad (Call a (Op name) args at0) adjoint_var (next_addr s1) Hg)
    as [Hle Hp]; [lia |].
  destruct (grad _ _ _) as [partials n]. simpl in Hle, Hp.
  apply bind_Ok in H as [[] [_ H]].
  eapply update_args_Inv in H as [HI2 Hst2].
  - split; [done |]. eapply stamps_below_trans; [exact Hst1 |].
    eapply stamps_below_trans; [| exact Hst2]. by apply stamps_below_eq.
  - inv_ext HI1.
  - simpl. eapply Forall_impl; [exact Hp |]. intros e0.
    apply owned_mono; [| done]. pose proof (inv_next _ _ HI1). lia.
Qed.

Lemma ReverseVisit_Inv lo var value s s' :
  ReverseVisit gradient_op_map var value s = Ok s' →
  Inv lo s → Inv lo s' ∧ stamps_below lo s s'.
Proof.
  unfold ReverseVisit. intros H HI.
  pose proof (CreateAdjointVar_Inv lo var true s HI) as HI1.
  pose proof (CreateAdjointVar_stamps var true s) as [Hct Hsh].
  set (s1 := CreateAdjointVar var true s) in *. clearbody s1.
  assert (stamps_below lo s s1) as Hst1 by by apply stamps_below_eq.
  apply bind_Ok in H as [av [Hav H]]. apply at_Ok in Hav.
  pose proof (inv_var _ _ HI1 _ _ Hav) as Hbounds.
  destruct (adjoint_expr_map s1 !! var_addr var).
  - eapply propagate_Inv in H as [HI2 Hst2]; try done.
    split; [done | by eapply stamps_below_trans].
  - case_bool_decide; [| injection H as <-; done].
    apply bind_Ok in H as [s2 [Hi H]].
    pose proof Hi as Hi'. unfold InitGrad in Hi'.
    apply bind_Ok in Hi' as [dt [_ Hi']]. simpl in Hi'. injection Hi' as Hs2.
    eapply InitGrad_Inv in Hi as [HI2 Hst2]; [| done].
    eapply propagate_Inv in H as [HI3 Hst3]; [| done |].
    + split; [done |].
      eapply stamps_below_trans; [exact Hst1 |]. by eapply stamps_below_trans.
    + rewrite <- Hs2. simpl. lia.
Qed.

Lemma reverse_mode_Inv lo bs : ∀ s s',
  reverse_mode gradient_op_map bs s = Ok s' →
  Inv lo s → Inv lo s' ∧ stamps_below lo s s'.
Proof.
  induction bs as [|b bs IH] using rev_ind; intros s s' H HI.
  - injection H as <-. split; [done | apply stamps_below_refl].
  - rewrite reverse_mode_snoc in H. apply bind_Ok in H as [s1 [H1 H]].
    assert (Inv lo s1 ∧ stamps_below lo s s1) as [HI1 Hst1].
    { destruct b; [by eapply ReverseVisit_Inv |].
      injection H1 as <-. split; [done | apply stamps_below_refl]. }
    apply IH in H as [HI2 Hst2]; [| done].
    split; [done | by eapply stamps_below_trans].
Qed.

Lemma stamps_below_mono lo lo' s s' :
  lo' ≤ lo → stamps_below lo s s' → stamps_below lo' s s'.
Proof. intros Hle H k Hk. apply H. lia. Qed.

Lemma stamps_below_read lo s s' (v : Var) :
  stamps_below lo s s' → var_addr v < lo →
  checked_type s' v = checked_type s v ∧ shape s' v = shape s v.
Proof.
  intros H Hv. unfold checked_type, shape. by destruct (H _ Hv) as [-> ->].
Qed.

Lemma emit_input_adjoint_default lo new_param s adjoint s' :
  emit_input_adjoint new_param s = Ok (adjoint, s') → Inv lo s →
  Inv lo s' ∧ stamps_below lo s s' ∧
  (∃ new, emitted s' = emitted s ++ new) ∧
  (adjoint_expr_map s !! var_addr new_param = None →
   ∃ a ndim dtype,
     checked_type s new_param = DynTensorType ndim dtype ∧
     (emit_kind adjoint,
      VarBinding adjoint (Call a zeros_op [shape s new_param] (InitAttrs dtype)))
       ∈ emitted s').
Proof.
  unfold emit_input_adjoint. intros H HI.
  apply bind_Ok in H as [av [Hav H]]. apply at_Ok in Hav.
  pose proof (inv_var _ _ HI _ _ Hav) as Hbounds.
  destruct (adjoint_expr_map s !! var_addr new_param) as [e|] eqn:He.
  - injection H as <- <-.
    destruct (BindAndEmit_Inv lo av e s) as [HI1 Hst1]; [done | done | by eapply inv_expr |].
    split; [done |]. split; [done |]. split; [| discriminate].
    rewrite BindAndEmit_emitted. eauto.
  - apply bind_Ok in H as [dt [Hdt H]]. simpl in H. injection H as <- <-.
    set (e := Call (next_addr s) zeros_op [shape s new_param] (InitAttrs dt)).
    set (s1 := set_next_addr (S (next_addr s)) s).
    pose proof (inv_next _ _ HI) as Hn.
    destruct (BindAndEmit_Inv lo av e s1) as [HI1 Hst1].
    { unfold s1. inv_ext HI. }
    { simpl. lia. }
    { apply owned_leaf; simpl; [done | lia]. }
    split; [done |]. split.
    { eapply stamps_below_trans; [| exact Hst1]. by apply stamps_below_eq. }
    rewrite BindAndEmit_emitted. split; [eauto |]. intros _.
    unfold dtype_of in Hdt.
    destruct (checked_type s new_param) as [nd dt'| | |] eqn:Hty; try discriminate.
    injection Hdt as ->. exists (next_addr s), nd, dt. split; [done |].
    assert (interned s1 e = e) as ->.
    { unfold interned. simpl.
      destruct (adjoint_binding_ s !! next_addr s) as [u|] eqn:Hu; [| done].
      apply (inv_bind _ _ HI) in Hu. lia. }
    apply elem_of_app. right. by apply list_elem_of_singleton.
Qed.

Lemma emit_input_adjoints_default lo G old_new : ∀ s out s',
  emit_input_adjoints G old_new s = Ok (out, s') → Inv lo s →
  Forall (fun on => var_addr on.2 < lo) old_new →
  Inv lo s' ∧ stamps_below lo s s' ∧
  (∃ new, emitted s' = emitted s ++ new) ∧
  Forall (fun on =>
            requires_grad G on.1 = true →
            adjoint_expr_map s !! var_addr on.2 = None →
            ∃ adjoint a ndim dtype,
              adjoint_var_map s !! var_addr on.2 = Some adjoint ∧
              checked_type s on.2 = DynTensorType ndim dtype ∧
              (emit_kind adjoint,
               VarBinding adjoint (Call a zeros_op [shape s on.2] (InitAttrs dtype)))
                ∈ emitted s') old_new.
Proof.
  induction old_new as [|[p np] old_new IH]; intros s out s' H HI Hlo; simpl in H.
  - injection H as <- <-.
    split; [done |]. split; [apply stamps_below_refl |].
    split; [exists []; by rewrite app_nil_r | constructor].
  - apply Forall_cons in Hlo as [Hnp Hlo]. simpl in Hnp.
    destruct (requires_grad G p) eqn:Hreq.
    + apply bind_Ok in H as [[av s1] [H1 H]].
      apply bind_Ok in H as [[out' s2] [H2 H]]. injection H as <- <-.
      pose proof (emit_input_adjoint_Ok _ _ _ _ H1) as (Hav & Hm & He).
      apply (emit_input_adjoint_default lo) in H1 as (HI1 & Hst1 & [new1 Hem1] & Hdef);
        [| done].
      apply IH in H2 as (HI2 & Hst2 & [new2 Hem2] & Hall); [| done | done].
      split; [done |]. split; [by eapply stamps_below_trans |]. split.
      { exists (new1 ++ new2). by rewrite Hem2, Hem1, app_assoc. }
      constructor.
      * simpl. intros _ Hnone. destruct (Hdef Hnone) as (a & nd & dt & Hty & Hin).
        exists av, a, nd, dt. split; [done |]. split; [done |].
        rewrite Hem2. apply elem_of_app. by left.
      * rewrite Forall_forall in Hall. rewrite Forall_forall in Hlo.
        rewrite Forall_forall. intros [q nq] Hin. simpl.
        specialize (Hall _ Hin). specialize (Hlo _ Hin). simpl in Hall, Hlo.
        destruct (stamps_below_read lo s s1 nq Hst1 Hlo) as [Hct Hsh].
        rewrite <- Hm, <- He, <- Hct, <- Hsh. exact Hall.
    + apply IH in H as (HI2 & Hst2 & Hem2 & Hall); [| done | done].
      split; [done |]. split; [done |]. split; [done |].
      constructor; [simpl; congruence | done].
Qed.

Lemma clone_params_tables ps : ∀ s new_params s',
  clone_params ps s = (new_params, s') →
  adjoint_var_map s' = adjoint_var_map s ∧
  adjoint_expr_map s' = adjoint_expr_map s ∧
  adjoint_binding_ s' = adjoint_binding_ s.
Proof.
  induction ps as [|p ps IH]; intros s nps s' H; simpl in H.
  - by injection H as <- <-.
  - destruct (clone_params ps _) as [nps' s3] eqn:Hrec. injection H as <- <-.
    by apply IH in Hrec as (-> & -> & ->).
Qed.

Lemma before_target_Inv lo G old_new block s :
  Inv lo s → Inv lo (before_target G old_new block s).
Proof.
  unfold before_target. intros HI.
  assert (Inv lo (foldl (fun s b => VisitBinding b s) (BeginDataflowBlock s)
                    (bindings block))) as HI1.
  { assert (Inv lo (BeginDataflowBlock s)) as HI0 by (unfold BeginDataflowBlock; inv_ext HI).
    revert HI0. generalize (BeginDataflowBlock s).
    induction (bindings block) as [|b bs IH]; intros s0 HI0; simpl; [done |].
    apply IH. unfold VisitBinding.
    destruct b, (var_is_dataflow _); unfold Emit, EmitOutput; inv_ext HI0. }
  revert HI1. generalize (foldl (fun s b => VisitBinding b s) (BeginDataflowBlock s)
                            (bindings block)).
  induction old_new as [|[p np] old_new IH]; intros s0 HI0; simpl; [done |].
  apply IH. by apply CreateAdjointVar_Inv.
Qed.

(** The stages of a successful [FuncTransform] of a new mutator: from the
    allocator [lo] reached by the forward cloner on, the pass writes to its
    own nodes only. *)
Lemma FuncTransform_owned G node s f' s' :
  adjoint_var_map s = ∅ → adjoint_expr_map s = ∅ → adjoint_binding_ s = ∅ →
  FuncTransform gradient_op_map VisitWithNewScope Normalize G node s = Ok (f', s') →
  ∃ lo block ret,
    next_addr s ≤ lo ∧
    stamps_below lo s s' ∧
    Forall (fun new_param => var_addr new_param < lo) (params f') ∧
    body f' = Normalize (SeqExpr [block] ret) ∧
    ∀ param new_param,
      (param, new_param) ∈ zip (params node) (params f') →
      requires_grad G param = true →
      adjoint_expr_map s' !! var_addr new_param = None →
      ∃ adjoint a ndim dtype,
        adjoint_var_map s' !! var_addr new_param = Some adjoint ∧
        checked_type s' new_param = DynTensorType ndim dtype ∧
        VarBinding adjoint (Call a zeros_op [shape s' new_param] (InitAttrs dtype))
          ∈ bindings block.
Proof.
  intros Hv0 He0 Hb0 H. unfold FuncTransform in H.
  apply bind_Ok in H as [_ [_ H]]. unfold forward_clone in H.
  destruct (clone_params (params node) s) as [new_params s1] eqn:Hc.
  pose proof (clone_allocates (var_remap_ s1) (body node) (next_addr s1)) as Hn.
  destruct (VisitWithNewScope _ _ _) as [new_body n]. simpl in Hn.
  pose proof (clone_params_tables _ _ _ _ Hc) as (Hv1 & He1 & Hb1).
  apply clone_params_spec in Hc as (Hct1 & Hsh1 & Hle1 & Hps).
  set (sc := set_next_addr n s1) in *.
  assert (Inv n sc) as HIc.
  { split; simpl; [done | | |]; intros k x; rewrite ?Hv1, ?He1, ?Hb1, ?Hv0, ?He0, ?Hb0;
      by rewrite lookup_empty. }
  apply transform_body_Ok in H
    as (block & target & s_rev & out & s_out & -> & _ & _ & Hrev & Hout & -> & ->).
  set (old_new := zip (params node) new_params) in *.
  pose proof (before_target_Inv n G old_new block sc HIc) as HIp.
  destruct (before_target_stamps G old_new block sc) as [Hctp Hshp].
  set (s_pre := before_target G old_new block sc) in *. clearbody s_pre.
  apply (reverse_mode_Inv n) in Hrev as [HIr Hstr]; [| inv_ext HIp].
  assert (Forall (fun on : Var * Var => var_addr on.2 < n) old_new) as Hlo.
  { assert (Forall (fun p' : Var => var_addr p' < n) new_params) as Hnew.
    { eapply Forall2_Forall_r; [exact Hps |].
      rewrite Forall_forall. intros p0 _ p' [_ ?]. lia. }
    rewrite Forall_forall in Hnew. rewrite Forall_forall. intros [p np] Hin. simpl.
    apply elem_of_zip_r in Hin. by apply Hnew. }
  pose proof (emit_input_adjoints_Ok _ _ _ _ _ Hout) as (Hm & He & _).
  apply (emit_input_adjoints_default n) in Hout as (HIo & Hsto & _ & Hall);
    [| done | done].
  exists n, (EndBlock (set_next_addr (S (S (next_addr s_out))) s_out)). eexists.
  split; [lia |]. split; [| split; [| split; [reflexivity |]]].
  - eapply stamps_below_trans; [| eapply stamps_below_trans; [exact Hstr | ]].
    + subst sc. simpl in Hctp, Hshp. apply stamps_below_eq; simpl; congruence.
    + eapply stamps_below_trans; [exact Hsto | by apply stamps_below_eq].
  - simpl. eapply Forall2_Forall_r; [exact Hps |].
    rewrite Forall_forall. intros p0 _ p' [_ ?]. lia.
  - simpl. intros p np Hin Hreq Hnone.
    rewrite Forall_forall in Hall.
    rewrite Forall_forall in Hlo. pose proof (Hlo _ Hin) as Hnp. simpl in Hnp.
    rewrite He in Hnone.
    destruct (Hall _ Hin Hreq Hnone) as (av & a & nd & dt & Hav & Hty & Hbind).
    simpl in *.
    destruct (stamps_below_read n s_rev s_out np Hsto Hnp) as [Hct Hsh].
    exists av, a, nd, dt. rewrite Hm. split; [done |].
    unfold checked_type, shape in *. simpl. split; [congruence |].
    apply list_elem_of_fmap. eexists. split; [| exact Hbind].
    simpl. by rewrite Hsh.
Qed.


(** The default branch of "emit the input adjoints", where it succeeds:
    in a successful transformation, every requires-gradient input parameter
    whose adjoint expression was never created has a tensor type, and the
    region handed to [Normalize] holds the default binding of its adjoint
    variable to the single call [zeros(shape, dtype)] on the parameter's
    shape and element type. *)
Theorem FuncTransform_default_adjoint G node s f' s' :
  adjoint_var_map s = ∅ → adjoint_expr_map s = ∅ → adjoint_binding_ s = ∅ →
  FuncTransform gradient_op_map VisitWithNewScope Normalize G node s = Ok (f', s') →
  ∃ block ret,
    body f' = Normalize (SeqExpr [block] ret) ∧
    ∀ param new_param,
      (param, new_param) ∈ zip (params node) (params f') →
      requires_grad G param = true →
      adjoint_expr_map s' !! var_addr new_param = None →
      ∃ adjoint a ndim dtype,
        adjoint_var_map s' !! var_addr new_param = Some adjoint ∧
        checked_type s' new_param = DynTensorType ndim dtype ∧
        VarBinding adjoint (Call a zeros_op [shape s' new_param] (InitAttrs dtype))
          ∈ bindings block.
Proof.
  intros Hv He Hb H.
  destruct (FuncTransform_owned G node s f' s' Hv He Hb H)
    as (lo & block & ret & _ & _ & _ & Hbody & Hdef).
  by exists block, ret.
Qed.

End Ownership.

(** ** Runs and their results

    The run of an operation has the result of the operation. *)

Lemma forget_bind {S A B} (r : Run S A) (f : A → Run S B) :
  forget (r ≫= f) = forget r ≫= (fun a => forget (f a)).
Proof. by destruct r. Qed.

Lemma forget_raise_at {S A} (r : Result A) (s : S) : forget (raise_at r s) = r.
Proof. by destruct r. Qed.

Lemma bind_ext {A B} (r : Result A) (f g : A → Result B) :
  (∀ a, f a = g a) → r ≫= f = r ≫= g.
Proof. intros H. destruct r; simpl; [apply H | done]. Qed.

Lemma InitGrad_forget adjoint_var var s :
  forget (InitGrad_run adjoint_var var s) = InitGrad adjoint_var var s.
Proof.
  unfold InitGrad_run, InitGrad. by destruct (dtype_of (checked_type s var)).
Qed.

Lemma DoAdd_forget src1 : ∀ src2 s,
  forget (DoAdd_run src1 src2 s) = DoAdd src1 src2 s.
Proof.
  induction src1 as [v | a fields IH | ? ? ? _ | ? ? ? ? _ | | |] using Expr_fields_ind;
    intros src2 s; simpl; repeat case_bool_decide; try reflexivity;
    try (destruct (adjoint_binding_ s !! expr_addr src2); reflexivity).
  destruct src2 as [| a2 fields2 | | | | |]; try reflexivity.
  fold (DoAdd_fields_run fields fields2 s). fold (DoAdd_fields fields fields2 s).
  rewrite forget_bind, forget_raise_at. apply bind_ext. intros _.
  rewrite forget_bind.
  assert (∀ fs2 s0, forget (DoAdd_fields_run fields fs2 s0) = DoAdd_fields fields fs2 s0)
    as ->.
  { clear -IH. induction IH as [|f1 fs1 Hf1 _ IHl]; intros [|f2 fs2] s0; simpl;
      try reflexivity.
    rewrite forget_bind, Hf1. apply bind_ext. intros [r s1].
    rewrite forget_bind, IHl. apply bind_ext. by intros [rs s2]. }
  apply bind_ext. by intros [result s1].
Qed.

Lemma DoAddInTuple_fields_forget fields : ∀ i index increment s,
  forget (DoAddInTuple_fields_run fields i index increment s)
  = DoAddInTuple_fields fields i index increment s.
Proof.
  induction fields as [|f fields IH]; intros i index increment s; simpl; [done |].
  rewrite forget_bind.
  assert (forget (if bool_decide (Z.of_nat i = index) then DoAdd_run f increment s
                  else Returned (f, s))
          = (if bool_decide (Z.of_nat i = index) then DoAdd f increment s else Ok (f, s)))
    as -> by (case_bool_decide; [apply DoAdd_forget | done]).
  apply bind_ext. intros [r s1]. rewrite forget_bind, IH.
  apply bind_ext. by intros [rs s2].
Qed.

Lemma DoAddInTuple_forget fields index increment s :
  forget (DoAddInTuple_run fields index increment s) = DoAddInTuple fields index increment s.
Proof.
  unfold DoAddInTuple_run, DoAddInTuple.
  rewrite forget_bind, DoAddInTuple_fields_forget. apply bind_ext. by intros [ret s1].
Qed.

Lemma BuildEmpty_forget shape : ∀ type_fields s,
  forget (BuildEmptyNestedTupleExpr_run shape type_fields s)
  = BuildEmptyNestedTupleExpr shape type_fields s.
Proof.
  induction shape as [v | a fields IH | ? ? ? _ | ? ? ? ? _ | | |] using Expr_fields_ind;
    intros type_fields s; try reflexivity.
  simpl.
  fold (BuildEmpty_fields_run type_fields fields 0 s).
  fold (BuildEmpty_fields type_fields fields 0 s).
  rewrite forget_bind.
  assert (∀ i s0, forget (BuildEmpty_fields_run type_fields fields i s0)
                  = BuildEmpty_fields type_fields fields i s0) as ->.
  { clear -IH. induction IH as [|sh fs Hsh _ IHl]; intros i s0; simpl; [done |].
    rewrite forget_bind.
    match goal with |- forget ?x ≫= _ = ?y ≫= _ => assert (forget x = y) as -> end.
    { destruct sh; try reflexivity.
      - destruct (type_fields !! i) as [[]|]; try reflexivity. apply Hsh.
      - destruct (type_fields !! i) as [t|]; [| reflexivity].
        by destruct (dtype_of t). }
    apply bind_ext. intros [r s1]. rewrite forget_bind, IHl.
    apply bind_ext. by intros [rs s2]. }
  apply bind_ext. by intros [ret s1].
Qed.

Lemma UpdateExprMap_forget base : ∀ increment s,
  forget (UpdateExprMap_run base increment s) = UpdateExprMap base increment s.
Proof.
  induction base as [v | a fields IH | a tuple index _ | ? ? ? ? _ | | |]
    using Expr_fields_ind; intros inc s; try reflexivity.
  - simpl. destruct (adjoint_expr_map s !! var_addr v).
    + rewrite forget_bind, DoAdd_forget. apply bind_ext. by intros [upd s1].
    + by destruct (adjoint_binding_ s !! expr_addr inc).
  - destruct inc as [| a1 fields1 | | | | |]; try reflexivity.
    change (forget (UpdateExprMap_fields_run fields1 fields 0 s)
            = UpdateExprMap_fields fields1 fields 0 s).
    generalize 0 as i. revert s.
    induction IH as [|f fs Hf _ IHl]; intros s i; simpl; [done |].
    destruct (fields1 !! i); [| done].
    rewrite forget_bind, Hf. apply bind_ext. intros s1. apply IHl.
  - simpl. destruct tuple as [v| | | | | |]; try reflexivity.
    destruct (shape s v); try reflexivity.
    rewrite forget_bind.
    match goal with |- forget ?x ≫= _ = ?y ≫= _ => assert (forget x = y) as -> end.
    { destruct (adjoint_expr_map s !! var_addr v); [done |].
      destruct (checked_type s v); try reflexivity.
      rewrite forget_bind, BuildEmpty_forget. apply bind_ext. by intros [init s1]. }
    apply bind_ext. intros s1. rewrite forget_bind, forget_raise_at.
    apply bind_ext. intros cur. destruct cur; try reflexivity.
    rewrite forget_bind, DoAddInTuple_forget. apply bind_ext. by intros [upd s2].
Qed.

Section RunResults.

Variable gradient_op_map :
  string → option (Expr → Var → addr → list Expr * addr).
Variable VisitWithNewScope : gmap addr Var → FuncBody → addr → FuncBody * addr.
Variable Normalize : FuncBody → FuncBody.

Lemma update_args_forget args : ∀ partials s,
  forget (update_args_run args partials s) = update_args args partials s.
Proof.
  induction args as [|arg args IH]; intros [|p partials] s; try reflexivity.
  destruct arg as [v| | | | | |]; try reflexivity.
  change (forget (UpdateExprMap_run (EVar v) p s ≫= update_args_run args partials)
          = UpdateExprMap (EVar v) p s ≫= update_args args partials).
  rewrite forget_bind, (UpdateExprMap_forget (EVar v)). apply bind_ext. intros s1. apply IH.
Qed.

Lemma propagate_forget adjoint_var var value s :
  forget (propagate_run gradient_op_map adjoint_var var value s)
  = propagate gradient_op_map adjoint_var var value s.
Proof.
  unfold propagate_run, propagate.
  rewrite forget_bind, forget_raise_at. apply bind_ext. intros e.
  destruct value as [| | |a op args at0| | |]; try reflexivity;
    try (rewrite forget_bind, forget_raise_at; apply bind_ext; intros e';
         apply UpdateExprMap_forget).
  destruct op as [name|]; [| reflexivity].
  destruct (gradient_op_map name) as [grad|]; [| reflexivity].
  destruct (grad _ _ _) as [partials n].
  rewrite forget_bind, forget_raise_at. apply bind_ext. intros _.
  apply update_args_forget.
Qed.

Lemma ReverseVisit_forget var value s :
  forget (ReverseVisit_run gradient_op_map var value s)
  = ReverseVisit gradient_op_map var value s.
Proof.
  unfold ReverseVisit_run, ReverseVisit.
  rewrite forget_bind, forget_raise_at. apply bind_ext. intros av.
  destruct (adjoint_expr_map _ !! var_addr var); [apply propagate_forget |].
  case_bool_decide; [| done].
  rewrite forget_bind, InitGrad_forget. apply bind_ext. intros s1. apply propagate_forget.
Qed.

Lemma reverse_mode_forget bs s :
  forget (reverse_mode_run gradient_op_map bs s) = reverse_mode gradient_op_map bs s.
Proof.
  unfold reverse_mode_run, reverse_mode.
  change (Ok s) with (forget (Returned s : Run State State)).
  generalize (Returned s : Run State State). induction (rev bs) as [|b l IH]; intros r;
    simpl; [done |].
  rewrite IH. f_equal. rewrite forget_bind. apply bind_ext. intros s0.
  destruct b; [apply ReverseVisit_forget | done].
Qed.

Lemma emit_input_adjoint_forget new_param s :
  forget (emit_input_adjoint_run new_param s) = emit_input_adjoint new_param s.
Proof.
  unfold emit_input_adjoint_run, emit_input_adjoint.
  rewrite forget_bind, forget_raise_at. apply bind_ext. intros av.
  destruct (adjoint_expr_map s !! var_addr new_param); [done |].
  rewrite forget_bind, forget_raise_at. by apply bind_ext.
Qed.

Lemma emit_input_adjoints_forget G old_new : ∀ s,
  forget (emit_input_adjoints_run G old_new s) = emit_input_adjoints G old_new s.
Proof.
  induction old_new as [|[p np] old_new IH]; intros s; simpl; [done |].
  destruct (requires_grad G p); [| apply IH].
  rewrite forget_bind, emit_input_adjoint_forget. apply bind_ext. intros [av s1].
  rewrite forget_bind, IH. apply bind_ext. by intros [out s2].
Qed.

Lemma transform_body_forget G node new_params new_body s :
  forget (transform_body_run gradient_op_map Normalize G node new_params new_body s)
  = transform_body gradient_op_map Normalize G node new_params new_body s.
Proof.
  unfold transform_body_run, transform_body.
  destruct new_body as [blocks seq_body|]; [| done].
  rewrite forget_bind.
  match goal with |- forget ?x ≫= _ = ?y ≫= _ => assert (forget x = y) as -> end.
  { by destruct blocks as [|block [|]]. }
  apply bind_ext. intros block.
  rewrite forget_bind, forget_raise_at. apply bind_ext. intros _.
  destruct seq_body; try reflexivity.
  rewrite forget_bind, forget_raise_at. apply bind_ext. intros _.
  rewrite forget_bind, reverse_mode_forget. apply bind_ext. intros s1.
  rewrite forget_bind, emit_input_adjoints_forget. apply bind_ext. by intros [out s2].
Qed.

Lemma FuncTransform_forget G node s :
  forget (FuncTransform_run gradient_op_map VisitWithNewScope Normalize G node s)
  = FuncTransform gradient_op_map VisitWithNewScope Normalize G node s.
Proof.
  unfold FuncTransform_run, FuncTransform.
  rewrite forget_bind, forget_raise_at. apply bind_ext. intros _.
  destruct (forward_clone VisitWithNewScope node s) as [[new_params new_body] s1].
  apply transform_body_forget.
Qed.

Lemma SimpleAD_forget m var G h :
  forget (SimpleAD_run gradient_op_map VisitWithNewScope Normalize m var G h)
  = SimpleAD gradient_op_map VisitWithNewScope Normalize m var G h.
Proof.
  unfold SimpleAD_run, SimpleAD.
  rewrite forget_bind, forget_raise_at. apply bind_ext. intros node.
  rewrite forget_bind, forget_raise_at. apply bind_ext. intros base_func.
  destruct base_func as [n|]; [| done].
  rewrite forget_bind, forget_raise_at. apply bind_ext. intros _.
  destruct (CopyOnWrite m node h) as [new_module h1].
  rewrite <- FuncTransform_forget.
  destruct (FuncTransform_run _ _ _ _ _ _) as [[f_after mutator]|e mutator]; [| done].
  simpl. rewrite forget_bind, forget_raise_at. by apply bind_ext.
Qed.

Lemma SimpleAD_pass_forget func G mod_ h :
  forget (SimpleAD_pass_run gradient_op_map VisitWithNewScope Normalize func G mod_ h)
  = SimpleAD_pass gradient_op_map VisitWithNewScope Normalize func G mod_ h.
Proof.
  unfold SimpleAD_pass_run, SimpleAD_pass.
  rewrite forget_bind, forget_raise_at. apply bind_ext. intros node.
  apply SimpleAD_forget.
Qed.

End RunResults.

(** ** The state a run ends in *)

Lemma Returned_forget {S A} (r : Run S A) a : r = Returned a → forget r = Ok a.
Proof. by intros ->. Qed.

Lemma DoAdd_run_ends src1 : ∀ src2 s, alloc_only s (ends (DoAdd_run src1 src2 s)).
Proof.
  induction src1 as [v | a fields IH | ? ? ? _ | ? ? ? ? _ | | |] using Expr_fields_ind;
    intros src2 s; simpl; repeat case_bool_decide; try apply alloc_only_refl;
    try (destruct (adjoint_binding_ s !! expr_addr src2); apply alloc_only_alloc).
  destruct src2 as [| a2 fields2 | | | | |]; try apply alloc_only_refl.
  fold (DoAdd_fields_run fields fields2 s).
  destruct (ICHECK _ _); simpl; [| apply alloc_only_refl].
  assert (∀ fs2 s0, alloc_only s0 (ends (DoAdd_fields_run fields fs2 s0))) as Hl.
  { clear -IH. induction IH as [|f1 fs1 Hf1 _ IHl]; intros [|f2 fs2] s0; simpl;
      try apply alloc_only_refl.
    specialize (Hf1 f2 s0). destruct (DoAdd_run f1 f2 s0) as [[r s1]|e s1]; simpl in *;
      [| done].
    specialize (IHl fs2 s1). destruct (DoAdd_fields_run fs1 fs2 s1) as [[rs s2]|e s2];
      simpl in *; by eapply alloc_only_trans. }
  specialize (Hl fields2 s).
  destruct (DoAdd_fields_run fields fields2 s) as [[rs s1]|e s1]; simpl in *; [| done].
  eapply alloc_only_trans; [exact Hl | apply alloc_only_alloc].
Qed.

Lemma DoAddInTuple_fields_run_ends fields : ∀ i index increment s,
  alloc_only s (ends (DoAddInTuple_fields_run fields i index increment s)).
Proof.
  induction fields as [|f fields IH]; intros i index inc s; simpl;
    [apply alloc_only_refl |].
  assert (alloc_only s
            (ends (if bool_decide (Z.of_nat i = index) then DoAdd_run f inc s
                   else Returned (f, s)))) as H1
    by (case_bool_decide; [apply DoAdd_run_ends | apply alloc_only_refl]).
  destruct (if bool_decide (Z.of_nat i = index) then DoAdd_run f inc s
            else Returned (f, s)) as [[r s1]|e s1]; simpl in *; [| done].
  specialize (IH (S i) index inc s1).
  destruct (DoAddInTuple_fields_run fields (S i) index inc s1) as [[rs s2]|e s2];
    simpl in *; by eapply alloc_only_trans.
Qed.

Lemma DoAddInTuple_run_ends fields index increment s :
  alloc_only s (ends (DoAddInTuple_run fields index increment s)).
Proof.
  unfold DoAddInTuple_run.
  pose proof (DoAddInTuple_fields_run_ends fields 0 index increment s) as H.
  destruct (DoAddInTuple_fields_run fields 0 index increment s) as [[rs s1]|e s1];
    simpl in *; [| done].
  eapply alloc_only_trans; [exact H | apply alloc_only_alloc].
Qed.

Lemma build_only_alloc_only s s' : alloc_only s s' → build_only s s'.
Proof. intros [-> ?]. by split. Qed.

Lemma BuildEmpty_run_Tuple a shape_fields type_fields s :
  BuildEmptyNestedTupleExpr_run (Tuple a shape_fields) type_fields s =
    BuildEmpty_fields_run type_fields shape_fields 0 s ≫=
      (fun '(ret, s1) => let '(a, s2) := alloc s1 in Returned (Tuple a ret, s2)).
Proof. reflexivity. Qed.

Lemma BuildEmpty_run_ends shape : ∀ type_fields s,
  build_only s (ends (BuildEmptyNestedTupleExpr_run shape type_fields s)).
Proof.
  induction shape as [v | a fields IH | ? ? ? _ | ? ? ? ? _ | | |] using Expr_fields_ind;
    intros type_fields s; try apply build_only_refl.
  rewrite BuildEmpty_run_Tuple.
  assert (∀ i s0, build_only s0 (ends (BuildEmpty_fields_run type_fields fields i s0)))
    as Hl.
  { clear -IH. induction IH as [|sh fs Hsh _ IHl]; intros i s0; simpl;
      [apply build_only_refl |].
    match goal with |- build_only _ (ends (?x ≫= _)) =>
      assert (build_only s0 (ends x)) as H1 end.
    { destruct sh; try apply build_only_refl.
      - destruct (type_fields !! i) as [[]|]; try apply build_only_refl. apply Hsh.
      - destruct (type_fields !! i) as [t|]; [| apply build_only_refl].
        destruct (dtype_of t); simpl; [| apply build_only_refl].
        split; simpl; [reflexivity | lia]. }
    match goal with |- build_only _ (ends (?x ≫= _)) =>
      destruct x as [[r s1]|e s1]; simpl in *; [| done] end.
    specialize (IHl (S i) s1).
    destruct (BuildEmpty_fields_run type_fields fs (S i) s1) as [[rs s2]|e s2];
      simpl in *; by eapply build_only_trans. }
  specialize (Hl 0 s).
  destruct (BuildEmpty_fields_run type_fields fields 0 s) as [[rs s1]|e s1];
    simpl in *; [| done].
  eapply build_only_trans; [exact Hl |]. apply build_only_alloc_only, alloc_only_alloc.
Qed.

(** [UpdateExprMap] writes the type field of the structural zero it builds,
    a new node, and no other. *)
Lemma UpdateExprMap_run_ends base : ∀ increment s lo,
  lo ≤ next_addr s →
  stamps_below lo s (ends_in (UpdateExprMap_run base increment s)) ∧
  next_addr s ≤ next_addr (ends_in (UpdateExprMap_run base increment s)).
Proof.
  induction base as [v | a fields IH | a tuple index _ | ? ? ? ? _ | | |]
    using Expr_fields_ind; intros inc s lo Hlo;
    try (split; [apply stamps_below_refl | done]).
  - simpl. destruct (adjoint_expr_map s !! var_addr v) as [current|].
    + pose proof (DoAdd_run_ends current inc s) as Ha.
      destruct (DoAdd_run current inc s) as [[upd s1]|e s1]; simpl in *;
        apply alloc_only_fields in Ha as (_ & _ & _ & _ & Hct & Hsh & Hle);
        (split; [by apply stamps_below_eq | done]).
    + destruct (adjoint_binding_ s !! expr_addr inc); simpl;
        (split; [by apply stamps_below_eq | done]).
  - destruct inc as [| a1 fields1 | | | | |];
      try (split; [apply stamps_below_refl | done]).
    change (stamps_below lo s (ends_in (UpdateExprMap_fields_run fields1 fields 0 s)) ∧
            next_addr s ≤ next_addr (ends_in (UpdateExprMap_fields_run fields1 fields 0 s))).
    generalize 0 as i. revert s Hlo.
    induction IH as [|f fs Hf _ IHl]; intros s Hlo i; simpl;
      [split; [apply stamps_below_refl | done] |].
    destruct (fields1 !! i) as [inc|]; simpl; [| split; [apply stamps_below_refl | done]].
    destruct (Hf inc s lo Hlo) as [Hst1 Hle1].
    destruct (UpdateExprMap_run f inc s) as [s1|e s1]; simpl in *; [| done].
    destruct (IHl s1 ltac:(lia) (S i)) as [Hst2 Hle2].
    split; [by eapply stamps_below_trans | lia].
  - simpl. destruct tuple as [v| | | | | |];
      try (split; [apply stamps_below_refl | done]).
    destruct (shape s v) eqn:Hsh; try (split; [apply stamps_below_refl | done]).
    match goal with |- context [ends_in (?x ≫= _)] =>
      assert (stamps_below lo s (ends_in x) ∧ next_addr s ≤ next_addr (ends_in x))
        as [Hst1 Hle1] end.
    { destruct (adjoint_expr_map s !! var_addr v);
        [split; [apply stamps_below_refl | done] |].
      destruct (checked_type s v) as [|type_fields| |];
        try (split; [apply stamps_below_refl | done]).
      pose proof (BuildEmpty_run_ends (Tuple a0 fields) type_fields s) as Hb.
      destruct (BuildEmptyNestedTupleExpr_run (Tuple a0 fields) type_fields s)
        as [[init s0]|e s0] eqn:Hrun; simpl in Hb |- *;
        apply build_only_fields in Hb as (_ & _ & _ & Hct & Hsh' & Hle).
      - apply Returned_forget in Hrun. rewrite BuildEmpty_forget in Hrun.
        apply BuildEmpty_Ok in Hrun as (_ & Hoi & _). apply owned_lo in Hoi.
        split; [| done]. intros k Hk. simpl. rewrite Hsh', Hct. split; [| done].
        apply lookup_insert_ne. lia.
      - split; [by apply stamps_below_eq | done]. }
    match goal with |- context [ends_in (?x ≫= _)] =>
      destruct x as [s1|e s1]; simpl in *; [| done] end.
    destruct (at_ (adjoint_expr_map s1) (var_addr v)) as [cur|]; simpl; [| done].
    destruct cur as [| ? origin_fields | | | | |]; simpl; try done.
    pose proof (DoAddInTuple_run_ends origin_fields index inc s1) as Ha.
    destruct (DoAddInTuple_run origin_fields index inc s1) as [[upd s2]|e s2]; simpl in *;
      apply alloc_only_fields in Ha as (_ & _ & _ & _ & Hct & Hsh' & Hle);
      (split; [| lia]); (eapply stamps_below_trans; [exact Hst1 |]);
      by apply stamps_below_eq.
Qed.

(** ** What a run has written to when it ends *)

Section RunFrames.

Variable gradient_op_map :
  string → option (Expr → Var → addr → list Expr * addr).
Variable VisitWithNewScope : gmap addr Var → FuncBody → addr → FuncBody * addr.
Variable Normalize : FuncBody → FuncBody.

Hypothesis clone_allocates : allocates_forward VisitWithNewScope.
Hypothesis partials_owned : partials_fresh gradient_op_map.

Lemma update_args_run_ends args : ∀ partials s lo,
  Inv lo s → Forall (owned lo (next_addr s)) partials →
  stamps_below lo s (ends_in (update_args_run args partials s)).
Proof.
  induction args as [|arg args IH]; intros [|p partials] s lo HI Hp;
    try apply stamps_below_refl.
  destruct arg as [v| | | | | |]; try apply stamps_below_refl.
  change (stamps_below lo s
            (ends_in (UpdateExprMap_run (EVar v) p s ≫= update_args_run args partials))).
  apply Forall_cons in Hp as [Hp1 Hp].
  destruct (UpdateExprMap_run_ends (EVar v) p s lo (inv_next _ _ HI)) as [Hst1 Hle1].
  destruct (UpdateExprMap_run (EVar v) p s) as [s1|e s1] eqn:Hrun; [| done].
  apply Returned_forget in Hrun. rewrite UpdateExprMap_forget in Hrun.
  apply (UpdateExprMap_Inv (EVar v) _ _ _ lo) in Hrun as [HI1 _]; [| done | done].
  change (stamps_below lo s (ends_in (update_args_run args partials s1))).
  simpl in Hst1, Hle1.
  eapply stamps_below_trans; [exact Hst1 |]. apply IH; [done |].
  eapply Forall_impl; [exact Hp |]. intros e0. by apply owned_mono.
Qed.

Lemma propagate_run_ends lo adjoint_var var value s :
  Inv lo s → lo ≤ var_addr adjoint_var < next_addr s →
  stamps_below lo s (ends_in (propagate_run gradient_op_map adjoint_var var value s)).
Proof.
  unfold propagate_run. intros HI Hav.
  destruct (at_ (adjoint_expr_map s) (var_addr var)) as [e|] eqn:He;
    [| apply stamps_below_refl].
  apply at_Ok in He. simpl.
  destruct (BindAndEmit_Inv lo adjoint_var e s) as [HI1 Hst1];
    [done | done | by eapply inv_expr |].
  pose proof (BindAndEmit_frame adjoint_var e s) as (_ & _ & _ & _ & Hnext).
  set (s1 := BindAndEmit adjoint_var e s) in *. clearbody s1.
  eapply stamps_below_trans; [exact Hst1 |].
  assert (stamps_below lo s1
            (ends_in (e' ← raise_at (at_ (adjoint_expr_map s1) (var_addr var)) s1;
                      UpdateExprMap_run value e' s1))) as Hupd.
  { destruct (at_ (adjoint_expr_map s1) (var_addr var)) as [e'|] eqn:He';
      [| apply stamps_below_refl].
    simpl. by apply UpdateExprMap_run_ends, inv_next. }
  destruct value as [| | |a op args at0| | |]; try exact Hupd; try apply stamps_below_refl.
  destruct op as [name|]; [| apply stamps_below_refl].
  destruct (gradient_op_map name) as [grad|] eqn:Hg; [| apply stamps_below_refl].
  destruct (partials_owned name grad (Call a (Op name) args at0) adjoint_var (next_addr s1) Hg)
    as [Hle Hp]; [lia |].
  destruct (grad _ _ _) as [partials n]. simpl in Hle, Hp.
  eapply stamps_below_trans; [apply (stamps_below_eq lo s1 (set_next_addr n s1)); done |].
  destruct (ICHECK _ _); simpl; [| apply stamps_below_refl].
  apply update_args_run_ends.
  - inv_ext HI1.
  - simpl. eapply Forall_impl; [exact Hp |]. intros e0.
    apply owned_mono; [| done]. pose proof (inv_next _ _ HI1). lia.
Qed.

Lemma ReverseVisit_run_ends lo var value s :
  Inv lo s →
  stamps_below lo s (ends_in (ReverseVisit_run gradient_op_map var value s)).
Proof.
  unfold ReverseVisit_run. intros HI.
  pose proof (CreateAdjointVar_Inv lo var true s HI) as HI1.
  pose proof (CreateAdjointVar_stamps var true s) as [Hct Hsh].
  set (s1 := CreateAdjointVar var true s) in *. clearbody s1.
  eapply stamps_below_trans; [by apply (stamps_below_eq lo s s1) |].
  destruct (at_ (adjoint_var_map s1) (var_addr var)) as [av|] eqn:Hav;
    [| apply stamps_below_refl].
  apply at_Ok in Hav. simpl.
  pose proof (inv_var _ _ HI1 _ _ Hav) as Hbounds.
  destruct (adjoint_expr_map s1 !! var_addr var); [by apply propagate_run_ends |].
  case_bool_decide; [| apply stamps_below_refl].
  destruct (InitGrad_run av var s1) as [s2|e s2] eqn:Hi.
  - pose proof Hi as Hi'. apply Returned_forget in Hi'. rewrite InitGrad_forget in Hi'.
    pose proof Hi' as Hs2. unfold InitGrad in Hs2.
    apply bind_Ok in Hs2 as [dt [_ Hs2]]. simpl in Hs2. injection Hs2 as Hs2.
    eapply InitGrad_Inv in Hi' as [HI2 Hst2]; [| done].
    simpl. eapply stamps_below_trans; [exact Hst2 |].
    apply propagate_run_ends; [done |]. rewrite <- Hs2. simpl. lia.
  - simpl. unfold InitGrad_run in Hi.
    destruct (dtype_of (checked_type s1 var)); simpl in Hi; [discriminate |].
    injection Hi as _ <-. apply stamps_below_refl.
Qed.

Lemma reverse_mode_run_snoc bs b s :
  reverse_mode_run gradient_op_map (bs ++ [b]) s
  = reverse_step_run gradient_op_map s b ≫= reverse_mode_run gradient_op_map bs.
Proof.
  unfold reverse_mode_run. rewrite rev_app_distr. simpl.
  destruct (reverse_step_run gradient_op_map s b) as [s1|e s1]; simpl; [reflexivity |].
  induction (rev bs) as [|b' l IH]; simpl; [reflexivity | exact IH].
Qed.

Lemma reverse_mode_run_ends lo bs : ∀ s,
  Inv lo s →
  stamps_below lo s (ends_in (reverse_mode_run gradient_op_map bs s)).
Proof.
  induction bs as [|b bs IH] using rev_ind; intros s HI; [apply stamps_below_refl |].
  rewrite reverse_mode_run_snoc.
  assert (stamps_below lo s (ends_in (reverse_step_run gradient_op_map s b))) as Hst1.
  { destruct b; [by apply ReverseVisit_run_ends | apply stamps_below_refl]. }
  destruct (reverse_step_run gradient_op_map s b) as [s1|e s1] eqn:Hrun; [| done].
  simpl in *. eapply stamps_below_trans; [exact Hst1 |]. apply IH.
  destruct b as [var value|]; [| by injection Hrun as <-].
  simpl in Hrun. apply Returned_forget in Hrun. rewrite ReverseVisit_forget in Hrun.
  by eapply (ReverseVisit_Inv gradient_op_map partials_owned) in Hrun as [? _].
Qed.

Lemma emit_input_adjoint_run_ends lo new_param s :
  Inv lo s → stamps_below lo s (ends (emit_input_adjoint_run new_param s)).
Proof.
  unfold emit_input_adjoint_run. intros HI.
  destruct (at_ (adjoint_var_map s) (var_addr new_param)) as [av|] eqn:Hav;
    [| apply stamps_below_refl].
  apply at_Ok in Hav. simpl.
  pose proof (inv_var _ _ HI _ _ Hav) as Hbounds.
  destruct (adjoint_expr_map s !! var_addr new_param) as [e|] eqn:He.
  - simpl. by apply BindAndEmit_Inv; [| | eapply inv_expr].
  - destruct (dtype_of (checked_type s new_param)) as [dt|]; simpl;
      [| apply stamps_below_refl].
    pose proof (inv_next _ _ HI) as Hn.
    eapply stamps_below_trans;
      [apply (stamps_below_eq lo s (set_next_addr (S (next_addr s)) s)); done |].
    apply BindAndEmit_Inv; [inv_ext HI | simpl; lia |].
    apply owned_leaf; simpl; [done | lia].
Qed.

Lemma emit_input_adjoints_run_ends lo G old_new : ∀ s,
  Inv lo s → stamps_below lo s (ends (emit_input_adjoints_run G old_new s)).
Proof.
  induction old_new as [|[p np] old_new IH]; intros s HI; simpl;
    [apply stamps_below_refl |].
  destruct (requires_grad G p); [| by apply IH].
  pose proof (emit_input_adjoint_run_ends lo np s HI) as Hst1.
  destruct (emit_input_adjoint_run np s) as [[av s1]|e s1] eqn:Hrun; [| done].
  apply Returned_forget in Hrun. rewrite emit_input_adjoint_forget in Hrun.
  apply (emit_input_adjoint_default lo) in Hrun as (HI1 & _); [| done].
  simpl in *. specialize (IH s1 HI1).
  destruct (emit_input_adjoints_run G old_new s1) as [[out s2]|e s2]; simpl in *;
    by eapply stamps_below_trans.
Qed.

Lemma transform_body_run_ends lo G node new_params new_body s :
  Inv lo s →
  stamps_below lo s
    (ends (transform_body_run gradient_op_map Normalize G node new_params new_body s)).
Proof.
  unfold transform_body_run. intros HI.
  destruct new_body as [blocks seq_body|]; [| apply stamps_below_refl].
  destruct blocks as [|block [|]]; try apply stamps_below_refl. simpl.
  destruct (ICHECK _ _); simpl; [| apply stamps_below_refl].
  set (old_new := zip (params node) new_params).
  pose proof (before_target_Inv lo G old_new block s HI) as HIp.
  destruct (before_target_stamps G old_new block s) as [Hctp Hshp].
  set (s_pre := before_target G old_new block s) in *. clearbody s_pre.
  eapply stamps_below_trans; [by apply (stamps_below_eq lo s s_pre) |].
  destruct seq_body as [target| | | | | |]; try apply stamps_below_refl.
  destruct (CheckTarget target s_pre); simpl; [| apply stamps_below_refl].
  assert (Inv lo (set_target_var (Some target) s_pre)) as HIt by inv_ext HIp.
  eapply stamps_below_trans;
    [apply (stamps_below_eq lo s_pre (set_target_var (Some target) s_pre)); done |].
  pose proof (reverse_mode_run_ends lo (bindings block) _ HIt) as Hst1.
  destruct (reverse_mode_run gradient_op_map (bindings block) _) as [s_rev|e s_rev] eqn:Hrun;
    [| done].
  apply Returned_forget in Hrun. rewrite reverse_mode_forget in Hrun.
  apply (reverse_mode_Inv gradient_op_map partials_owned lo) in Hrun as [HIr _]; [| done].
  simpl in *. eapply stamps_below_trans; [exact Hst1 |].
  pose proof (emit_input_adjoints_run_ends lo G old_new s_rev HIr) as Hst2.
  destruct (emit_input_adjoints_run G old_new s_rev) as [[out s_out]|e s_out]; simpl in *;
    [| done].
  eapply stamps_below_trans; [exact Hst2 | by apply stamps_below_eq].
Qed.

(** A run of [FuncTransform] on a new mutator, returned or raised, has
    written to no node that existed before it. *)
Lemma FuncTransform_run_ends G node s :
  adjoint_var_map s = ∅ → adjoint_expr_map s = ∅ → adjoint_binding_ s = ∅ →
  stamps_below (next_addr s) s
    (ends (FuncTransform_run gradient_op_map VisitWithNewScope Normalize G node s)).
Proof.
  intros Hv0 He0 Hb0. unfold FuncTransform_run.
  destruct (ICHECK _ _); simpl; [| apply stamps_below_refl].
  unfold forward_clone.
  destruct (clone_params (params node) s) as [new_params s1] eqn:Hc.
  pose proof (clone_allocates (var_remap_ s1) (body node) (next_addr s1)) as Hn.
  destruct (VisitWithNewScope _ _ _) as [new_body n]. simpl in Hn.
  pose proof (clone_params_tables _ _ _ _ Hc) as (Hv1 & He1 & Hb1).
  apply clone_params_spec in Hc as (Hct1 & Hsh1 & Hle1 & _).
  set (sc := set_next_addr n s1) in *.
  assert (Inv n sc) as HIc.
  { split; simpl; [done | | |]; intros k x; rewrite ?Hv1, ?He1, ?Hb1, ?Hv0, ?He0, ?Hb0;
      by rewrite lookup_empty. }
  eapply stamps_below_trans; [by apply (stamps_below_eq (next_addr s) s sc) |].
  eapply stamps_below_mono; [| by apply transform_body_run_ends]. lia.
Qed.

End RunFrames.

(** ** The frame of a pass invocation *)

Section Frame.

Variable gradient_op_map :
  string → option (Expr → Var → addr → list Expr * addr).
Variable VisitWithNewScope : gmap addr Var → FuncBody → addr → FuncBody * addr.
Variable Normalize : FuncBody → FuncBody.

(** C7: every invocation of the pass, whether it returns or ends in a
    fatal error, leaves the function table of the input module as it was,
    and every other module that existed too.  It writes to no [checked_type_]
    or [shape_] field of a node that existed before it, provided the forward
    cloner and the gradient registry hand the pass nodes of their own only
    ([allocates_forward], [partials_fresh]).  An invocation that returns
    has left the input module node itself as it was, and returns a new
    module whose functions are those of the input module plus exactly one
    new entry, bound to a new [GlobalVar] named [<name-of-F>_adjoint]. *)
Theorem SimpleAD_pass_frame func G mod_ h node :
  heap_wf h →
  heap_modules h !! mod_ = Some node →
  let run := SimpleAD_pass_run gradient_op_map VisitWithNewScope Normalize func G mod_ h in
  forget run = SimpleAD_pass gradient_op_map VisitWithNewScope Normalize func G mod_ h ∧
  (∃ node', heap_modules (end_heap run) !! mod_ = Some node' ∧
            functions node' = functions node) ∧
  (∀ m node0, m ≠ mod_ → heap_modules h !! m = Some node0 →
     heap_modules (end_heap run) !! m = Some node0) ∧
  (allocates_forward VisitWithNewScope → partials_fresh gradient_op_map →
   ∀ k, k < heap_next h →
     heap_checked_type_ (end_heap run) !! k = heap_checked_type_ h !! k ∧
     heap_shape_ (end_heap run) !! k = heap_shape_ h !! k) ∧
  ∀ m' h', run = Returned (m', h') →
    heap_modules h' !! mod_ = Some node ∧
    (∀ m, m ≠ m' → heap_modules h' !! m = heap_modules h !! m) ∧
    heap_modules h !! m' = None ∧
    ∃ adjoint_var f_after,
      gv_name_hint adjoint_var = gv_name_hint func +:+ "_adjoint" ∧
      functions node !! gv_addr adjoint_var = None ∧
      heap_modules h' !! m'
        = Some (mkModule 1
                  (<[gv_addr adjoint_var := (adjoint_var, RelaxFunction f_after)]>
                     (functions node))).
Proof.
  intros Hwf Hm run. split; [apply SimpleAD_pass_forget |].
  destruct (Hwf _ _ Hm) as (Hlt & Huse & Hkeys).
  assert (heap_modules h !! heap_next h = None) as Hfresh.
  { destruct (heap_modules h !! heap_next h) as [node'|] eqn:Hn; [| done].
    apply Hwf in Hn as [? _]. lia. }
  set (h1 := mkHeap (heap_next h) (heap_checked_type_ h) (heap_shape_ h)
               (<[mod_ := mkModule (S (use_count node)) (functions node)]>
                  (heap_modules h))).
  (* the invocation ends before the module is copied *)
  assert (∀ e, run = Raised e h1 →
            (∃ node', heap_modules (end_heap run) !! mod_ = Some node' ∧
                      functions node' = functions node) ∧
            (∀ m node0, m ≠ mod_ → heap_modules h !! m = Some node0 →
               heap_modules (end_heap run) !! m = Some node0) ∧
            (allocates_forward VisitWithNewScope → partials_fresh gradient_op_map →
             ∀ k, k < heap_next h →
               heap_checked_type_ (end_heap run) !! k = heap_checked_type_ h !! k ∧
               heap_shape_ (end_heap run) !! k = heap_shape_ h !! k) ∧
            ∀ m' h', run = Returned (m', h') → False) as Hearly.
  { intros e ->. simpl. split; [| split; [| split]].
    - eexists. rewrite lookup_insert_eq. done.
    - intros m node0 Hne Hm0. by rewrite lookup_insert_ne.
    - done.
    - discriminate. }
  assert (∀ e, run = Raised e h1 →
            (∃ node', heap_modules (end_heap run) !! mod_ = Some node' ∧
                      functions node' = functions node) ∧
            (∀ m node0, m ≠ mod_ → heap_modules h !! m = Some node0 →
               heap_modules (end_heap run) !! m = Some node0) ∧
            (allocates_forward VisitWithNewScope → partials_fresh gradient_op_map →
             ∀ k, k < heap_next h →
               heap_checked_type_ (end_heap run) !! k = heap_checked_type_ h !! k ∧
               heap_shape_ (end_heap run) !! k = heap_shape_ h !! k) ∧
            ∀ m' h', run = Returned (m', h') →
              heap_modules h' !! mod_ = Some node ∧
              (∀ m, m ≠ m' → heap_modules h' !! m = heap_modules h !! m) ∧
              heap_modules h !! m' = None ∧
              ∃ adjoint_var f_after,
                gv_name_hint adjoint_var = gv_name_hint func +:+ "_adjoint" ∧
                functions node !! gv_addr adjoint_var = None ∧
                heap_modules h' !! m'
                  = Some (mkModule 1
                            (<[gv_addr adjoint_var := (adjoint_var, RelaxFunction f_after)]>
                               (functions node)))) as Hraised.
  { intros e He. destruct (Hearly e He) as (H1 & H2 & H3 & H4).
    split; [done |]. split; [done |]. split; [done |].
    intros m' h' Hr. by destruct (H4 m' h' Hr). }
  clear Hearly.
  unfold run, SimpleAD_pass_run, at_ in *. rewrite Hm in *. simpl in *.
  fold h1 in Hraised |- *.
  unfold SimpleAD_run, at_ in *. simpl in *. rewrite lookup_insert_eq in *. simpl in *.
  destruct (Lookup _ func) as [[F|]|] eqn:HF; simpl in *; try by eapply Hraised.
  destruct (ICHECK _ ErrNoVarNamed); simpl in *; [| by eapply Hraised].
  clear Hraised.
  unfold SimpleAD_mutator, CopyOnWrite. simpl.
  rewrite bool_decide_eq_false_2 by lia. simpl.
  replace (use_count node - 0) with (use_count node) by lia.
  match goal with |- context [FuncTransform_run _ _ _ G F ?s0] => set (s := s0) end.
  assert (∀ mutator,
            stamps_below (next_addr s) s mutator →
            ∀ k, k < heap_next h →
              checked_type_ mutator !! k = heap_checked_type_ h !! k ∧
              shape_ mutator !! k = heap_shape_ h !! k) as Hstamps.
  { intros mutator Hst k Hk. apply (Hst k). simpl. lia. }
  pose proof (fun Hc Hp => FuncTransform_run_ends gradient_op_map VisitWithNewScope
                Normalize Hc Hp G F s eq_refl eq_refl eq_refl) as Hends.
  destruct (FuncTransform_run gradient_op_map VisitWithNewScope Normalize G F s)
    as [[f_after mutator]|e mutator]; simpl in *.
  - rewrite lookup_insert_eq. simpl.
    split; [| split; [| split]].
    + exists node. rewrite !lookup_insert_ne by lia. rewrite lookup_insert_eq.
      by destruct node.
    + intros m node0 Hne Hm0.
      assert (m ≠ heap_next h) by (intros ->; congruence).
      by rewrite !lookup_insert_ne.
    + intros Hc Hp. apply Hstamps. by apply Hends.
    + intros m' h' [= <- <-]. simpl. split; [| split; [| split]].
      * rewrite !lookup_insert_ne by lia. rewrite lookup_insert_eq. by destruct node.
      * intros m Hne. rewrite !(lookup_insert_ne _ (heap_next h)) by done.
        rewrite lookup_insert. case_decide.
        -- subst m. rewrite Hm. by destruct node.
        -- by rewrite lookup_insert_ne.
      * done.
      * exists (mkGlobalVar (S (heap_next h)) (gv_name_hint func +:+ "_adjoint")).
        eexists. split; [reflexivity |]. split.
        -- simpl. destruct (functions node !! S (heap_next h)) eqn:Hk; [| done].
           assert (S (heap_next h) < heap_next h); [| lia]. apply Hkeys. by eexists.
        -- rewrite lookup_insert_eq. reflexivity.
  - split; [| split; [| split]].
    + exists node. rewrite lookup_insert_ne by lia. rewrite lookup_insert_eq.
      by destruct node.
    + intros m node0 Hne Hm0.
      assert (m ≠ heap_next h) by (intros ->; congruence).
      by rewrite !lookup_insert_ne.
    + intros Hc Hp. apply Hstamps. by apply Hends.
    + discriminate.
Qed.

End Frame.

(** ** Emission, once per node *)

(** X1: a node is materialised once.  The first [BindAndEmit] of a node
    that is not interned emits the node itself, interns it and stamps it
    with the type and shape of its variable; the second emits a reference
    to the first variable. *)
Theorem BindAndEmit_once v v' e s :
  adjoint_binding_ s !! expr_addr e = None →
  emitted (BindAndEmit v' e (BindAndEmit v e s)) =
    emitted s ++ [(emit_kind v, VarBinding v e); (emit_kind v', VarBinding v' (EVar v))] ∧
  adjoint_binding_ (BindAndEmit v' e (BindAndEmit v e s)) !! expr_addr e = Some v ∧
  checked_type_ (BindAndEmit v' e (BindAndEmit v e s)) !! expr_addr e
    = Some (checked_type s v) ∧
  shape_ (BindAndEmit v' e (BindAndEmit v e s)) !! expr_addr e = Some (shape s v).
Proof.
  intros Hnone.
  assert (adjoint_binding_ (BindAndEmit v e s) !! expr_addr e = Some v ∧
          checked_type_ (BindAndEmit v e s) !! expr_addr e = Some (checked_type s v) ∧
          shape_ (BindAndEmit v e s) !! expr_addr e = Some (shape s v)) as (Hb & Hct & Hsh).
  { unfold BindAndEmit. rewrite Hnone.
    destruct (var_is_dataflow v); simpl; by rewrite !lookup_insert_eq. }
  split.
  - rewrite !BindAndEmit_emitted. unfold interned. rewrite Hb, Hnone.
    by rewrite <- app_assoc.
  - unfold BindAndEmit at 1 3 5. rewrite Hb.
    destruct (var_is_dataflow v'); simpl; done.
Qed.

(** ** [DoAddInTuple] *)

Lemma DoAddInTuple_fields_skip fields : ∀ i index increment s,
  (∀ j, j < length fields → Z.of_nat (i + j) ≠ index) →
  DoAddInTuple_fields fields i index increment s = Ok (fields, s).
Proof.
  induction fields as [|f fields IH]; intros i index inc s H; simpl; [done |].
  rewrite bool_decide_eq_false_2.
  - simpl. rewrite IH; [done |]. intros j Hj.
    replace (S i + j) with (i + S j) by lia. apply H. simpl. lia.
  - specialize (H 0). rewrite Nat.add_0_r in H. apply H. simpl. lia.
Qed.

(** X2: [DoAddInTuple] does not check its index: with an index that is
    negative or not below the arity it returns a new tuple of the fields
    as they were, and the increment is dropped. *)
Theorem DoAddInTuple_out_of_range fields index increment s :
  (index < 0 ∨ Z.of_nat (length fields) ≤ index)%Z →
  DoAddInTuple fields index increment s = Ok (Tuple (next_addr s) fields, (alloc s).2).
Proof.
  intros H. unfold DoAddInTuple.
  rewrite DoAddInTuple_fields_skip; [done |]. intros j Hj. lia.
Qed.

Lemma DoAddInTuple_fields_at fields : ∀ i k f increment s,
  fields !! k = Some f →
  DoAddInTuple_fields fields i (Z.of_nat (i + k)) increment s =
    '(r, s1) ← DoAdd f increment s; Ok (<[k := r]> fields, s1).
Proof.
  induction fields as [|f0 fields IH]; intros i k f inc s Hk; [done |].
  destruct k as [|k]; simpl in *.
  - injection Hk as ->. rewrite Nat.add_0_r, bool_decide_eq_true_2 by done.
    destruct (DoAdd f inc s) as [[r s1]|]; simpl; [| done].
    rewrite DoAddInTuple_fields_skip; [done |]. intros j _. lia.
  - rewrite bool_decide_eq_false_2 by lia. simpl.
    replace (i + S k) with (S i + k) by lia. rewrite (IH _ _ _ _ _ Hk).
    by destruct (DoAdd f inc s) as [[r s1]|].
Qed.

(** X3: with an index in range, [DoAddInTuple] is one [DoAdd] on the field
    at the index: it returns a new tuple whose field at the index is the
    sum and whose other fields are the original ones, and it fails exactly
    when the [DoAdd] fails. *)
Theorem DoAddInTuple_in_range fields k f increment s :
  fields !! k = Some f →
  DoAddInTuple fields (Z.of_nat k) increment s =
    '(r, s1) ← DoAdd f increment s;
    Ok (Tuple (next_addr s1) (<[k := r]> fields), (alloc s1).2).
Proof.
  intros Hk. unfold DoAddInTuple. change (Z.of_nat k) with (Z.of_nat (0 + k)).
  rewrite (DoAddInTuple_fields_at fields 0 k f increment s Hk).
  by destruct (DoAdd f increment s) as [[r s1]|].
Qed.

(** ** [UpdateExprMap] on tuple literals *)

Lemma UpdateExprMap_fields_ext fields1 fields1' fs : ∀ i s,
  (∀ j, i ≤ j < i + length fs → fields1 !! j = fields1' !! j) →
  UpdateExprMap_fields fields1 fs i s = UpdateExprMap_fields fields1' fs i s.
Proof.
  induction fs as [|f fs IH]; intros i s H; simpl; [done |].
  rewrite <- (H i) by (simpl; lia).
  destruct (fields1 !! i) as [inc|]; [| done].
  destruct (UpdateExprMap f inc s) as [s1|]; simpl; [| done].
  apply IH. intros j Hj. apply H. simpl. lia.
Qed.

Lemma UpdateExprMap_fields_short fields1 fs : ∀ i s,
  i ≤ length fields1 < i + length fs →
  ∃ e, UpdateExprMap_fields fields1 fs i s = Fatal e.
Proof.
  induction fs as [|f fs IH]; intros i s H; simpl in *; [lia |].
  destruct (fields1 !! i) as [inc|] eqn:Hi; [| by eexists].
  apply lookup_lt_Some in Hi.
  destruct (UpdateExprMap f inc s) as [s1|e]; simpl; [| by eexists].
  apply IH. lia.
Qed.

(** X4: when the base is a tuple literal and the increment a tuple literal
    with fewer fields, [UpdateExprMap] ends in a fatal error. *)
Theorem UpdateExprMap_tuple_too_short a fields a1 fields1 s :
  length fields1 < length fields →
  ∃ e, UpdateExprMap (Tuple a fields) (Tuple a1 fields1) s = Fatal e.
Proof.
  intros H. rewrite UpdateExprMap_Tuple. apply UpdateExprMap_fields_short. lia.
Qed.

(** X5: when the base and the increment are tuple literals,
    [UpdateExprMap] does not compare their arities: the fields of the
    increment beyond the arity of the base are ignored, and so are the
    identities of the two tuple nodes. *)
Theorem UpdateExprMap_tuple_excess a fields a1 fields1 a' a1' s :
  UpdateExprMap (Tuple a fields) (Tuple a1 fields1) s =
  UpdateExprMap (Tuple a' fields) (Tuple a1' (take (length fields) fields1)) s.
Proof.
  rewrite !UpdateExprMap_Tuple. apply UpdateExprMap_fields_ext.
  intros j Hj. by rewrite lookup_take_lt by lia.
Qed.

(** ** [DoAdd] and the nesting of tuples *)

Lemma same_nesting_refl e : same_nesting e e.
Proof.
  induction e as [| a fields IH | | | | |] using Expr_fields_ind;
    try by apply same_nesting_leaf.
  apply same_nesting_tuple. induction IH; by constructor.
Qed.

Lemma same_nesting_tuple_inv a1 fields1 e2 :
  same_nesting (Tuple a1 fields1) e2 →
  ∃ a2 fields2, e2 = Tuple a2 fields2 ∧ Forall2 same_nesting fields1 fields2.
Proof. inversion 1; subst; [discriminate | eauto]. Qed.

Lemma same_nesting_leaf_inv e1 e2 :
  is_tuple_literal e1 = false → same_nesting e1 e2 → is_tuple_literal e2 = false.
Proof. intros H1 H. inversion H; subst; [done | discriminate]. Qed.

Lemma DoAdd_nesting src1 : ∀ src2 s,
  same_nesting src1 src2 →
  ∃ r s', DoAdd src1 src2 s = Ok (r, s') ∧ same_nesting src1 r.
Proof.
  induction src1 as [v | a fields IH | ? ? ? _ | ? ? ? ? _ | | |] using Expr_fields_ind;
    intros src2 s Hn; rewrite DoAdd_unfold;
    (case_bool_decide; [by eexists _, _ |]);
    (case_bool_decide; [eexists _, _; split; [done | apply same_nesting_refl] |]);
    try (unfold new_add; simpl; eexists _, _; split; [done |];
         by apply same_nesting_leaf).
  apply same_nesting_tuple_inv in Hn as (a2 & fields2 & -> & Hall).
  unfold ICHECK. rewrite bool_decide_eq_true_2 by by eapply Forall2_length. simpl.
  assert (∃ rs s1, pairwise DoAdd fields fields2 s = Ok (rs, s1) ∧
                   Forall2 same_nesting fields rs) as (rs & s1 & -> & Hrs).
  { clear H H0. revert fields2 Hall s.
    induction IH as [|f1 fields1 Hf1 _ IHl]; intros fields2 Hall s;
      inversion Hall as [|? f2 ? fields2' Hf Hfs]; subst; simpl.
    - by eexists _, _.
    - destruct (Hf1 f2 s Hf) as (r & s1 & -> & Hr). simpl.
      destruct (IHl fields2' Hfs s1) as (rs & s2 & -> & Hrs). simpl.
      eexists _, _. split; [done | by constructor]. }
  simpl. unfold new_tuple. simpl. eexists _, _. split; [done |].
  by apply same_nesting_tuple.
Qed.

Lemma same_nesting_common e1 : ∀ e2 e3,
  same_nesting e1 e2 → same_nesting e1 e3 → same_nesting e2 e3.
Proof.
  induction e1 as [| a fields IH | | | | |] using Expr_fields_ind; intros e2 e3 H2 H3;
    try (apply same_nesting_leaf; by eapply same_nesting_leaf_inv; [| eassumption]).
  apply same_nesting_tuple_inv in H2 as (a2 & fields2 & -> & H2).
  apply same_nesting_tuple_inv in H3 as (a3 & fields3 & -> & H3).
  apply same_nesting_tuple. revert fields2 fields3 H2 H3.
  induction IH as [|f fields Hf _ IHl]; intros fields2 fields3 H2 H3;
    inversion H2; inversion H3; subst; constructor; eauto.
Qed.

(** X6: [DoAdd] on two expressions of the same nesting (tuple literals of
    the same arity, field by field) always succeeds, and the sum has that
    nesting. *)
Theorem DoAdd_same_nesting src1 src2 s :
  same_nesting src1 src2 →
  ∃ r s', DoAdd src1 src2 s = Ok (r, s') ∧ same_nesting src1 r ∧ same_nesting src2 r.
Proof.
  intros Hn. destruct (DoAdd_nesting src1 src2 s Hn) as (r & s' & H & Hr).
  exists r, s'. split; [done |]. split; [done |]. by eapply same_nesting_common.
Qed.

Lemma zero_free_tuple_inv zs a fields :
  zero_free zs (Tuple a fields) → (a ∉ zs) ∧ Forall (zero_free zs) fields.
Proof. inversion 1; subst; [discriminate | done]. Qed.

Lemma zero_free_addr zs e : zero_free zs e → expr_addr e ∉ zs.
Proof. by inversion 1. Qed.

Lemma mirrors_zero zs shape z :
  mirrors zs shape z →
  (is_tuple_literal z = false ∧ expr_addr z ∈ zs) ∨
  ∃ a shape_fields a' fields,
    shape = Tuple a shape_fields ∧ z = Tuple a' fields ∧
    Forall2 (mirrors zs) shape_fields fields.
Proof. inversion 1; subst; [left; by split | right; by eexists _, _, _, _]. Qed.

Lemma DoAdd_zero shape : ∀ z e s,
  mirrors (zeros_tracker_ s) shape z → same_nesting z e →
  zero_free (zeros_tracker_ s) e →
  (∃ r s', DoAdd z e s = Ok (r, s') ∧ leaves r = leaves e ∧ alloc_only s s') ∧
  (∃ r s', DoAdd e z s = Ok (r, s') ∧ leaves r = leaves e ∧ alloc_only s s').
Proof.
  induction shape as [| ash shape_fields IH | | | | |] using Expr_fields_ind;
    intros z e s Hm Hn Hz;
    apply mirrors_zero in Hm as [[Hleaf Hin] | (? & sf & a' & fields & Hs & -> & Hall)];
    try discriminate;
    pose proof (zero_free_addr _ _ Hz) as He.
  all: try (split; rewrite DoAdd_unfold;
            [rewrite bool_decide_eq_true_2 by done
            |rewrite bool_decide_eq_false_2, bool_decide_eq_true_2 by done];
            eexists _, _; (split; [done |]); (split; [done | apply alloc_only_refl])).
  injection Hs as <- <-.
  apply same_nesting_tuple_inv in Hn as (a2 & fields2 & -> & Hn).
  apply zero_free_tuple_inv in Hz as [_ Hz]. simpl in He.
  pose proof (Forall2_length _ _ _ Hn) as Hlen.
  assert (∀ s0, zeros_tracker_ s0 = zeros_tracker_ s →
    (∃ rs s1, pairwise DoAdd fields fields2 s0 = Ok (rs, s1) ∧
              concat (map leaves rs) = concat (map leaves fields2) ∧ alloc_only s0 s1) ∧
    (∃ rs s1, pairwise DoAdd fields2 fields s0 = Ok (rs, s1) ∧
              concat (map leaves rs) = concat (map leaves fields2) ∧ alloc_only s0 s1))
    as Hpair.
  { clear He a' a2 Hlen. revert fields fields2 Hall Hn Hz.
    induction IH as [|sh shs Hsh _ IHl]; intros fields fields2 Hall Hn Hz s0 Hzs;
      inversion Hall as [|? z1 ? zs1 Hz1 Hzs1]; subst;
      inversion Hn as [|? e1 ? es1 He1 Hes1]; subst.
    { split; eexists _, _; simpl; (split; [done |]); (split; [done | apply alloc_only_refl]). }
    apply Forall_cons in Hz as [Hze1 Hz].
    rewrite <- Hzs in Hz1, Hze1.
    destruct (Hsh z1 e1 s0 Hz1 He1 Hze1)
      as [(r & s1 & Hl & Hll & Hal) (r' & s1' & Hr & Hrl & Har)].
    pose proof (alloc_only_fields _ _ Hal) as (_ & _ & _ & Hzl & _).
    pose proof (alloc_only_fields _ _ Har) as (_ & _ & _ & Hzr & _).
    destruct (IHl zs1 es1 Hzs1 Hes1 Hz s1 ltac:(congruence))
      as [(rs & s2 & Hls & Hlls & Hals) _].
    destruct (IHl zs1 es1 Hzs1 Hes1 Hz s1' ltac:(congruence))
      as [_ (rs' & s2' & Hrs & Hrls & Hars)].
    split; simpl.
    - rewrite Hl. simpl. rewrite Hls. simpl. eexists _, _. split; [done |].
      split; [simpl; by rewrite Hll, Hlls | eapply alloc_only_trans; [exact Hal | exact Hals]].
    - rewrite Hr. simpl. rewrite Hrs. simpl. eexists _, _. split; [done |].
      split; [simpl; by rewrite Hrl, Hrls | eapply alloc_only_trans; [exact Har | exact Hars]]. }
  destruct (Hpair s eq_refl) as [(rs & s1 & Hl & Hll & Hal) (rs' & s1' & Hr & Hrl & Har)].
  split; rewrite DoAdd_unfold.
  - case_bool_decide; [eexists _, _; split; [done |]; split; [done | apply alloc_only_refl] |].
    rewrite bool_decide_eq_false_2 by done.
    unfold ICHECK. rewrite bool_decide_eq_true_2 by done. simpl.
    rewrite Hl. simpl. unfold new_tuple. simpl. eexists _, _. split; [done |].
    split; [done |]. eapply alloc_only_trans; [exact Hal | apply alloc_only_alloc].
  - rewrite bool_decide_eq_false_2 by done.
    case_bool_decide; [eexists _, _; split; [done |]; split; [done | apply alloc_only_refl] |].
    unfold ICHECK. rewrite bool_decide_eq_true_2 by done. simpl.
    rewrite Hr. simpl. unfold new_tuple. simpl. eexists _, _. split; [done |].
    split; [done |]. eapply alloc_only_trans; [exact Har | apply alloc_only_alloc].
Qed.

(** X7: a structural zero is a neutral element of [DoAdd].  Added on
    either side of an expression of the same nesting that has no node in
    the zero set, it gives an expression with the leaves of that
    expression, in their order: no [add] call is built, and only the
    allocator moves. *)
Theorem DoAdd_zero_identity shape z e s :
  mirrors (zeros_tracker_ s) shape z → same_nesting z e →
  zero_free (zeros_tracker_ s) e →
  (∃ r s', DoAdd z e s = Ok (r, s') ∧ leaves r = leaves e ∧ same_nesting e r ∧
           alloc_only s s') ∧
  (∃ r s', DoAdd e z s = Ok (r, s') ∧ leaves r = leaves e ∧ same_nesting e r ∧
           alloc_only s s').
Proof.
  intros Hm Hn Hz.
  destruct (DoAdd_zero shape z e s Hm Hn Hz)
    as [(r & s' & Hl & Hll & Hal) (r' & s'' & Hr & Hrl & Har)].
  split.
  - exists r, s'. repeat split; try done; try apply Hal.
    destruct (DoAdd_nesting z e s Hn) as (r0 & s0 & H0 & Hr0).
    rewrite Hl in H0. injection H0 as <- <-. by eapply same_nesting_common.
  - exists r', s''. repeat split; try done; try apply Har.
    assert (same_nesting e z) as Hn'
      by (eapply same_nesting_common; [exact Hn | apply same_nesting_refl]).
    destruct (DoAdd_nesting e z s Hn') as (r0 & s0 & H0 & Hr0).
    rewrite Hr in H0. by injection H0 as <- <-.
Qed.

(** X8: the first gradient of a projection lands in its slot as it is.
    When [t] has no adjoint expression yet and the component [k] of its
    shape is a shape expression, [UpdateExprMap] on [t[k]] stores a tuple
    literal of the arity of the shape whose field [k] is the increment
    itself: the zero it replaces is eliminated, no [add] is built. *)
Theorem UpdateExprMap_first_projection a t k increment s s' a_sh shape_fields a_k values :
  adjoint_expr_map s !! var_addr t = None →
  shape s t = Tuple a_sh shape_fields →
  shape_fields !! k = Some (ShapeExpr a_k values) →
  UpdateExprMap (TupleGetItem a (EVar t) (Z.of_nat k)) increment s = Ok s' →
  ∃ a' fields,
    adjoint_expr_map s' !! var_addr t = Some (Tuple a' fields) ∧
    fields !! k = Some increment ∧
    length fields = length shape_fields.
Proof.
  intros Hnone Hsh Hk H. simpl in H. rewrite Hsh, Hnone in H.
  destruct (checked_type s t) as [|type_fields| |]; try discriminate.
  apply bind_Ok in H as [s1 [Hinit H]].
  apply bind_Ok in Hinit as [[init s0] [Hb Hinit]]. injection Hinit as <-.
  apply BuildEmpty_mirrors in Hb as [_ Hb].
  inversion Hb as [|? ? a0 origin Hall]; subst.
  simpl in H. unfold at_ in H. rewrite lookup_insert_eq in H. simpl in H.
  apply bind_Ok in H as [[updated s2] [Hadd H]]. injection H as <-.
  destruct (Forall2_lookup_l _ _ _ _ _ Hall Hk) as (z & Hz & Hm).
  inversion Hm as [? ? az dtype Hin|]; subst.
  unfold DoAddInTuple in Hadd. change (Z.of_nat k) with (Z.of_nat (0 + k)) in Hadd.
  rewrite (DoAddInTuple_fields_at origin 0 k _ increment _ Hz) in Hadd.
  rewrite DoAdd_unfold in Hadd. simpl in Hadd.
  rewrite bool_decide_eq_true_2 in Hadd by done. simpl in Hadd.
  injection Hadd as <- <-. simpl. rewrite lookup_insert_eq.
  eexists _, _. split; [reflexivity |].
  apply lookup_lt_Some in Hz.
  split; [by apply list_lookup_insert_eq |].
  rewrite length_insert. symmetry. by eapply Forall2_length.
Qed.

(** ** [BuildEmptyNestedTupleExpr]: when it succeeds *)

Lemma BuildEmpty_fields_conforms type_fields fs :
  Forall (fun sh => ∀ sub,
            (∀ s, ∃ r s', BuildEmptyNestedTupleExpr sh sub s = Ok (r, s')) ↔
            (∃ s r s', BuildEmptyNestedTupleExpr sh sub s = Ok (r, s'))) fs →
  Forall (fun sh => ∀ sub,
            (∃ s r s', BuildEmptyNestedTupleExpr sh sub s = Ok (r, s')) ↔ conforms sh sub) fs →
  ∀ i,
    ((∃ s rs s', BuildEmpty_fields type_fields fs i s = Ok (rs, s')) →
     Forall2 conforms_component fs (take (length fs) (drop i type_fields))) ∧
    (Forall2 conforms_component fs (take (length fs) (drop i type_fields)) →
     ∀ s, ∃ rs s', BuildEmpty_fields type_fields fs i s = Ok (rs, s')).
Proof.
  intros Huni Hall. induction fs as [|sh fs IH]; intros i.
  { split; [constructor | by eexists _, _]. }
  apply Forall_cons in Huni as [Hu Huni]. apply Forall_cons in Hall as [Hsh Hall].
  specialize (IH Huni Hall (S i)). destruct IH as [IH1 IH2].
  destruct (type_fields !! i) as [t|] eqn:Hi.
  2: { rewrite (drop_ge type_fields i) by by apply lookup_ge_None. simpl. split.
       - intros (s & rs & s' & H). simpl in H. rewrite Hi in H.
         destruct sh; discriminate.
       - inversion 1. }
  rewrite (drop_S _ _ _ Hi). simpl. split.
  - intros (s & rs & s' & H). simpl in H. rewrite Hi in H.
    apply bind_Ok in H as [[r s1] [Hr H]].
    apply bind_Ok in H as [[rs' s2] [Hrs H]].
    constructor; [| apply IH1; by eexists _, _, _].
    destruct sh; try discriminate.
    + destruct t; try discriminate. constructor. apply Hsh. by eexists _, _, _.
    + destruct t; try discriminate. constructor.
  - intros H s. apply Forall2_cons in H as [Hc Hcs]. simpl. rewrite Hi.
    inversion Hc as [? vs nd dt | ? sfs tfs Hconf]; subst; simpl.
    + match goal with |- context [BuildEmpty_fields _ _ _ ?s1] =>
        destruct (IH2 Hcs s1) as (rs & s2 & ->) end.
      simpl. by eexists _, _.
    + destruct (proj2 (Hu tfs) (proj2 (Hsh tfs) Hconf) s) as (r & s1 & Hr).
      simpl in Hr. rewrite Hr. simpl.
      destruct (IH2 Hcs s1) as (rs & s2 & ->). simpl. by eexists _, _.
Qed.

Lemma BuildEmpty_conforms shape : ∀ type_fields,
  ((∀ s, ∃ r s', BuildEmptyNestedTupleExpr shape type_fields s = Ok (r, s')) ↔
   (∃ s r s', BuildEmptyNestedTupleExpr shape type_fields s = Ok (r, s'))) ∧
  ((∃ s r s', BuildEmptyNestedTupleExpr shape type_fields s = Ok (r, s')) ↔
   conforms shape type_fields).
Proof.
  induction shape as [| a fields IH | ? ? ? _ | ? ? ? ? _ | | |] using Expr_fields_ind;
    intros type_fields;
    try (split; split;
         [intros H; destruct (H (new_mutator (mkHeap 0 ∅ ∅ ∅))) as (? & ? & ?); discriminate
         |intros (? & ? & ? & ?); discriminate
         |intros (? & ? & ? & ?); discriminate
         |inversion 1]).
  assert (Forall (fun sh => ∀ sub,
            (∀ s, ∃ r s', BuildEmptyNestedTupleExpr sh sub s = Ok (r, s')) ↔
            (∃ s r s', BuildEmptyNestedTupleExpr sh sub s = Ok (r, s'))) fields) as Huni.
  { eapply Forall_impl; [exact IH |]. intros sh H sub. apply H. }
  assert (Forall (fun sh => ∀ sub,
            (∃ s r s', BuildEmptyNestedTupleExpr sh sub s = Ok (r, s')) ↔ conforms sh sub)
            fields) as Hall.
  { eapply Forall_impl; [exact IH |]. intros sh H sub. apply H. }
  destruct (BuildEmpty_fields_conforms type_fields fields Huni Hall 0) as [H1 H2].
  rewrite drop_0 in H1, H2.
  assert ((∃ s r s', BuildEmptyNestedTupleExpr (Tuple a fields) type_fields s = Ok (r, s'))
          → conforms (Tuple a fields) type_fields) as Hfwd.
  { intros (s & r & s' & H). rewrite BuildEmpty_Tuple in H.
    apply bind_Ok in H as [[rs s1] [H _]]. constructor. apply H1. by eexists _, _, _. }
  assert (conforms (Tuple a fields) type_fields →
          ∀ s, ∃ r s', BuildEmptyNestedTupleExpr (Tuple a fields) type_fields s = Ok (r, s'))
    as Hbwd.
  { intros H s. inversion H as [? ? ? Hc]; subst. rewrite BuildEmpty_Tuple.
    destruct (H2 Hc s) as (rs & s1 & ->). simpl. unfold new_tuple. simpl. by eexists _, _. }
  split; split; auto.
  - intros H. exact (ex_intro _ (new_mutator (mkHeap 0 ∅ ∅ ∅)) (H _)).
  - intros H. destruct (Hbwd H (new_mutator (mkHeap 0 ∅ ∅ ∅))) as (r & s' & Hr).
    by exists (new_mutator (mkHeap 0 ∅ ∅ ∅)), r, s'.
Qed.

(** X9: [BuildEmptyNestedTupleExpr] succeeds exactly when the types
    mirror the tuple of shapes (a tensor type for each shape expression, a
    tuple type for each tuple of shapes, down the nesting), whatever the
    state; it fails when a component is neither, when a type is missing or
    of the other kind. *)
Theorem BuildEmpty_succeeds_iff shape type_fields s :
  (∃ r s', BuildEmptyNestedTupleExpr shape type_fields s = Ok (r, s')) ↔
  conforms shape type_fields.
Proof.
  destruct (BuildEmpty_conforms shape type_fields) as [Hu Hc]. split.
  - intros (r & s' & H). apply Hc. by eexists _, _, _.
  - intros H. apply Hu, Hc, H.
Qed.

(** ** What the reverse walk reaches and emits *)

Lemma CreateAdjointVar_frame v k s :
  adjoint_expr_map (CreateAdjointVar v k s) = adjoint_expr_map s ∧
  adjoint_binding_ (CreateAdjointVar v k s) = adjoint_binding_ s ∧
  emitted (CreateAdjointVar v k s) = emitted s ∧
  target_var (CreateAdjointVar v k s) = target_var s ∧
  zeros_tracker_ (CreateAdjointVar v k s) = zeros_tracker_ s ∧
  next_addr s ≤ next_addr (CreateAdjointVar v k s).
Proof.
  unfold CreateAdjointVar.
  destruct (adjoint_var_map s !! var_addr v); simpl; repeat split; lia.
Qed.

Lemma CreateAdjointVar_entry v k s :
  is_Some (adjoint_var_map (CreateAdjointVar v k s) !! var_addr v) ∧
  ∀ key u, adjoint_var_map s !! key = Some u →
    adjoint_var_map (CreateAdjointVar v k s) !! key = Some u.
Proof.
  unfold CreateAdjointVar.
  destruct (adjoint_var_map s !! var_addr v) as [u0|] eqn:Hv; simpl.
  - split; [by rewrite Hv | done].
  - split; [by rewrite lookup_insert_eq |].
    intros key u Hu. rewrite lookup_insert_ne; [done |]. congruence.
Qed.

Lemma update_args_emitted args : ∀ partials s s',
  update_args args partials s = Ok s' → emitted s' = emitted s.
Proof.
  induction args as [|arg args IH]; intros [|p partials] s s' H; simpl in H;
    try discriminate; try by injection H as <-.
  destruct arg as [v| | | | | |]; try discriminate.
  apply bind_Ok in H as [s1 [H1 H]].
  apply (UpdateExprMap_Ok (EVar v)) in H1 as (_ & _ & <- & _). by eapply IH.
Qed.

Section Walk.

Variable gradient_op_map :
  string → option (Expr → Var → addr → list Expr * addr).

Lemma propagate_emitted adjoint_var var value s s' :
  propagate gradient_op_map adjoint_var var value s = Ok s' →
  ∃ e, adjoint_expr_map s !! var_addr var = Some e ∧
       emitted s' = emitted s ++ [(emit_kind adjoint_var, VarBinding adjoint_var (interned s e))].
Proof.
  unfold propagate. intros H.
  apply bind_Ok in H as [e [He H]]. apply at_Ok in He.
  exists e. split; [done |]. rewrite <- BindAndEmit_emitted.
  destruct value as [| | |? op args ?| | |]; try discriminate;
    try (apply bind_Ok in H as [e' [_ H]];
         by apply UpdateExprMap_Ok in H as (_ & _ & -> & _)).
  destruct op as [name|]; [| discriminate].
  destruct (gradient_op_map name) as [grad|]; [| discriminate].
  destruct (grad _ _ _) as [partials n].
  apply bind_Ok in H as [_ [_ H]].
  apply update_args_emitted in H. by rewrite H.
Qed.

Lemma ReverseVisit_unreached var value s :
  reached s (VarBinding var value) = false →
  ReverseVisit gradient_op_map var value s = Ok (CreateAdjointVar var true s).
Proof.
  unfold reached, is_target. intros H. apply orb_false_elim in H as [He Ht].
  apply bool_decide_eq_false in He. unfold ReverseVisit.
  destruct (CreateAdjointVar_entry var true s) as [[adj Hadj] _].
  destruct (CreateAdjointVar_frame var true s) as (Hem & _ & _ & Htv & _).
  unfold at_. rewrite Hadj. simpl. rewrite Hem, Htv.
  destruct (adjoint_expr_map s !! var_addr var); [by destruct He |].
  by rewrite Ht.
Qed.

Lemma ReverseVisit_emitted var value s s' :
  ReverseVisit gradient_op_map var value s = Ok s' →
  (∀ key u, adjoint_var_map s !! key = Some u → adjoint_var_map s' !! key = Some u) ∧
  (emitted s' = emitted s ∨
   ∃ adjoint e, adjoint_var_map s' !! var_addr var = Some adjoint ∧
     emitted s' = emitted s ++ [(emit_kind adjoint, VarBinding adjoint e)]).
Proof.
  unfold ReverseVisit. intros H.
  destruct (CreateAdjointVar_entry var true s) as [_ Hmono].
  destruct (CreateAdjointVar_frame var true s) as (_ & _ & Hem & _).
  set (s1 := CreateAdjointVar var true s) in *. clearbody s1.
  apply bind_Ok in H as [adj [Hadj H]]. apply at_Ok in Hadj.
  destruct (adjoint_expr_map s1 !! var_addr var) as [e0|].
  - pose proof (propagate_Ok _ _ _ _ _ _ H) as Hm.
    apply propagate_emitted in H as (e & _ & H).
    split; [intros key u Hu; rewrite Hm; by apply Hmono |].
    right. exists adj, (interned s1 e). by rewrite Hm, H, Hem.
  - case_bool_decide; [| injection H as <-; split; [done | by left]].
    apply bind_Ok in H as [s2 [Hi H]].
    unfold InitGrad in Hi. apply bind_Ok in Hi as [dt [_ Hi]].
    simpl in Hi. injection Hi as <-.
    pose proof (propagate_Ok _ _ _ _ _ _ H) as Hm.
    apply propagate_emitted in H as (e & _ & H). simpl in *.
    split; [intros key u Hu; rewrite Hm; by apply Hmono |].
    right. eexists adj, _. rewrite Hm, H, Hem. done.
Qed.

Lemma reverse_mode_emitted bs : ∀ s s',
  reverse_mode gradient_op_map bs s = Ok s' →
  (∀ key u, adjoint_var_map s !! key = Some u → adjoint_var_map s' !! key = Some u) ∧
  ∃ new, emitted s' = emitted s ++ new ∧ length new ≤ length bs ∧
         Forall (defines_adjoint s') new.
Proof.
  induction bs as [|b bs IH] using rev_ind; intros s s' H.
  - injection H as <-. split; [done |]. exists []. rewrite app_nil_r.
    split; [done |]. split; [simpl; lia | constructor].
  - rewrite reverse_mode_snoc in H. apply bind_Ok in H as [s1 [H1 H]].
    apply IH in H as (Hmono2 & new2 & Hem2 & Hlen2 & Hall2).
    rewrite length_app. simpl.
    destruct b as [var value|]; [| injection H1 as <-].
    + apply ReverseVisit_emitted in H1 as [Hmono1 [Hem1 | (adj & e & Hadj & Hem1)]].
      * split; [auto |]. exists new2. rewrite Hem2, Hem1.
        split; [done |]. split; [lia | done].
      * split; [auto |]. exists ((emit_kind adj, VarBinding adj e) :: new2).
        rewrite Hem2, Hem1, <- app_assoc. split; [done |]. split; [simpl; lia |].
        constructor; [| done]. exists (var_addr var), adj, e. auto.
    + split; [done |]. exists new2. split; [done |]. split; [lia | done].
Qed.

Lemma reverse_mode_skip bs s :
  Forall (fun b => reached s b = false) bs →
  ∃ s', reverse_mode gradient_op_map bs s = Ok s' ∧
    emitted s' = emitted s ∧
    adjoint_expr_map s' = adjoint_expr_map s ∧
    adjoint_binding_ s' = adjoint_binding_ s ∧
    checked_type_ s' = checked_type_ s ∧
    shape_ s' = shape_ s.
Proof.
  revert s. induction bs as [|b bs IH] using rev_ind; intros s H.
  - by exists s.
  - apply Forall_app in H as [Hbs Hb]. apply Forall_cons in Hb as [Hb _].
    rewrite reverse_mode_snoc.
    assert (∃ s1, reverse_step gradient_op_map s b = Ok s1 ∧
                  emitted s1 = emitted s ∧ adjoint_expr_map s1 = adjoint_expr_map s ∧
                  adjoint_binding_ s1 = adjoint_binding_ s ∧
                  checked_type_ s1 = checked_type_ s ∧ shape_ s1 = shape_ s ∧
                  target_var s1 = target_var s) as (s1 & -> & Hem & He & Hbd & Hct & Hsh & Ht).
    { destruct b as [var value|]; [| by exists s].
      exists (CreateAdjointVar var true s). simpl.
      split; [by apply ReverseVisit_unreached |].
      destruct (CreateAdjointVar_frame var true s) as (? & ? & ? & ? & _).
      destruct (CreateAdjointVar_stamps var true s). done. }
    simpl. destruct (IH s1) as (s' & -> & ? & ? & ? & ? & ?).
    { eapply Forall_impl; [exact Hbs |]. intros b0 Hb0.
      destruct b0; [| done]. unfold reached, is_target in *. by rewrite He, Ht. }
    exists s'. split; [done |]. repeat split; congruence.
Qed.

(** X10: the reverse walk does nothing for bindings it does not reach.
    When no variable binding of the region defines the target or a variable
    that has an adjoint expression, the walk succeeds whatever the
    right-hand sides are, emits no binding, and changes neither the adjoint
    expressions nor the intern table nor a stamped field. *)
Theorem reverse_mode_unreached bs s :
  (∀ var value, VarBinding var value ∈ bs →
     adjoint_expr_map s !! var_addr var = None ∧
     Some (var_addr var) ≠ var_addr <$> target_var s) →
  ∃ s', reverse_mode gradient_op_map bs s = Ok s' ∧
    emitted s' = emitted s ∧
    adjoint_expr_map s' = adjoint_expr_map s ∧
    adjoint_binding_ s' = adjoint_binding_ s ∧
    checked_type_ s' = checked_type_ s ∧
    shape_ s' = shape_ s.
Proof.
  intros H. apply reverse_mode_skip. rewrite Forall_forall.
  intros [var value|] Hin; [| done].
  destruct (H var value Hin) as [Hnone Ht]. unfold reached, is_target.
  rewrite Hnone, bool_decide_eq_false_2 by by intros [? ?].
  by apply bool_decide_eq_false_2.
Qed.

(** X11: the seed of the reverse walk.  When [ReverseVisit] succeeds on
    the binding of the target and the target has no adjoint expression yet,
    it emits, as its only binding, the adjoint variable of the target bound
    to [ones] on the shape and element type of the target. *)
Theorem ReverseVisit_seed var value s s' :
  (∀ k u, adjoint_binding_ s !! k = Some u → k < next_addr s) →
  is_target s var = true →
  adjoint_expr_map s !! var_addr var = None →
  ReverseVisit gradient_op_map var value s = Ok s' →
  ∃ adjoint a ndim dtype,
    adjoint_var_map s' !! var_addr var = Some adjoint ∧
    checked_type s var = DynTensorType ndim dtype ∧
    emitted s' = emitted s ++
      [(emit_kind adjoint,
        VarBinding adjoint (Call a ones_op [shape s var] (InitAttrs dtype)))].
Proof.
  intros Hfresh Ht Hnone H. unfold ReverseVisit in H.
  destruct (CreateAdjointVar_frame var true s) as (He & Hb & Hem & Htv & _ & Hle).
  destruct (CreateAdjointVar_stamps var true s) as [Hct Hsh].
  set (s1 := CreateAdjointVar var true s) in *. clearbody s1.
  apply bind_Ok in H as [adj [Hadj H]]. apply at_Ok in Hadj.
  rewrite He, Hnone in H. unfold is_target in Ht. rewrite Htv, Ht in H.
  apply bind_Ok in H as [s2 [Hi H]].
  unfold InitGrad in Hi. apply bind_Ok in Hi as [dt [Hdt Hi]].
  simpl in Hi. injection Hi as <-.
  pose proof (propagate_Ok _ _ _ _ _ _ H) as Hm.
  apply propagate_emitted in H as (e & Hlook & H). simpl in *.
  rewrite lookup_insert_eq in Hlook. injection Hlook as <-.
  assert (checked_type s1 var = checked_type s var ∧ shape s1 var = shape s var)
    as [Hct' Hsh'] by (unfold checked_type, shape; by rewrite Hct, Hsh).
  unfold dtype_of in Hdt. rewrite Hct' in Hdt.
  destruct (checked_type s var) as [ndim dtype| | |]; try discriminate.
  injection Hdt as ->.
  exists adj, (next_addr s1), ndim, dt. rewrite Hm. split; [done |]. split; [done |].
  rewrite H, Hem, Hsh'. repeat f_equal. unfold interned. simpl. rewrite Hb.
  destruct (adjoint_binding_ s !! next_addr s1) as [u|] eqn:Hu; [| done].
  apply Hfresh in Hu. lia.
Qed.

End Walk.

(** ** Calls the reverse walk cannot propagate through *)

Lemma update_args_non_var args : ∀ partials s,
  length partials = length args →
  (∃ arg, arg ∈ args ∧ ∀ v, arg ≠ EVar v) →
  ∃ e, update_args args partials s = Fatal e.
Proof.
  induction args as [|arg args IH]; intros [|p partials] s Hlen (arg0 & Hin & Hnv);
    try discriminate.
  { by apply not_elem_of_nil in Hin. }
  destruct arg as [v| | | | | |]; try by eexists.
  apply elem_of_cons in Hin as [-> | Hin]; [by destruct (Hnv v) |].
  change (update_args (EVar v :: args) (p :: partials) s)
    with (UpdateExprMap (EVar v) p s ≫= update_args args partials).
  destruct (UpdateExprMap (EVar v) p s) as [s1|e]; [| by eexists].
  apply IH; [simpl in Hlen; lia | eauto].
Qed.

Section Calls.

Variable gradient_op_map :
  string → option (Expr → Var → addr → list Expr * addr).

Lemma propagate_call_non_var adjoint_var var a op args attrs0 s :
  (∃ arg, arg ∈ args ∧ ∀ v, arg ≠ EVar v) →
  ∃ e, propagate gradient_op_map adjoint_var var (Call a op args attrs0) s = Fatal e.
Proof.
  intros Hnv. unfold propagate.
  destruct (at_ _ _) as [e|]; simpl; [| by eexists].
  destruct op as [name|]; [| by eexists].
  destruct (gradient_op_map name) as [grad|]; [| by eexists].
  destruct (grad _ _ _) as [partials n].
  unfold ICHECK. case_bool_decide; simpl; [| by eexists].
  by apply update_args_non_var.
Qed.

(** X12: the reverse walk propagates through a call only when all of its
    arguments are variables: on a binding it reaches whose right-hand side
    is a call with an argument of another form (a constant, a tuple, a
    nested call), [ReverseVisit] ends in a fatal error. *)
Theorem ReverseVisit_call_arguments var a op args attrs0 s :
  reached s (VarBinding var (Call a op args attrs0)) = true →
  (∃ arg, arg ∈ args ∧ ∀ v, arg ≠ EVar v) →
  ∃ e, ReverseVisit gradient_op_map var (Call a op args attrs0) s = Fatal e.
Proof.
  intros Hr Hnv. unfold ReverseVisit.
  destruct (CreateAdjointVar_frame var true s) as (He & _ & _ & Ht & _).
  set (s1 := CreateAdjointVar var true s) in *. clearbody s1.
  destruct (at_ _ _) as [adj|]; simpl; [| by eexists].
  unfold reached, is_target in Hr. rewrite He, Ht.
  destruct (adjoint_expr_map s !! var_addr var) as [e|].
  - by apply propagate_call_non_var.
  - rewrite bool_decide_eq_false_2 in Hr by by intros [? ?]. simpl in Hr. rewrite Hr.
    destruct (InitGrad adj var s1) as [s2|]; simpl; [| by eexists].
    by apply propagate_call_non_var.
Qed.

End Calls.

(** ** The function transformation, stage by stage *)

Lemma create_input_adjoints_frame G old_new : ∀ s,
  adjoint_expr_map (create_input_adjoints G old_new s) = adjoint_expr_map s ∧
  adjoint_binding_ (create_input_adjoints G old_new s) = adjoint_binding_ s ∧
  emitted (create_input_adjoints G old_new s) = emitted s ∧
  target_var (create_input_adjoints G old_new s) = target_var s.
Proof.
  induction old_new as [|[p np] old_new IH]; intros s; simpl; [done |].
  destruct (IH (CreateAdjointVar np (negb (requires_grad G p)) s)) as (-> & -> & -> & ->).
  destruct (CreateAdjointVar_frame np (negb (requires_grad G p)) s) as (? & ? & ? & ? & _).
  done.
Qed.

Lemma VisitBinding_frame bs : ∀ s,
  adjoint_var_map (foldl (fun s b => VisitBinding b s) s bs) = adjoint_var_map s ∧
  adjoint_expr_map (foldl (fun s b => VisitBinding b s) s bs) = adjoint_expr_map s ∧
  adjoint_binding_ (foldl (fun s b => VisitBinding b s) s bs) = adjoint_binding_ s ∧
  (emitted (foldl (fun s b => VisitBinding b s) s bs)).*2 = (emitted s).*2 ++ bs.
Proof.
  induction bs as [|b bs IH]; intros s; simpl.
  - by rewrite app_nil_r.
  - destruct (IH (VisitBinding b s)) as (-> & -> & -> & ->).
    unfold VisitBinding, Emit, EmitOutput.
    destruct (var_is_dataflow _); simpl; rewrite fmap_app, <- app_assoc; done.
Qed.

Lemma before_target_frame G old_new block s :
  adjoint_expr_map (before_target G old_new block s) = adjoint_expr_map s ∧
  adjoint_binding_ (before_target G old_new block s) = adjoint_binding_ s ∧
  (emitted (before_target G old_new block s)).*2 = bindings block.
Proof.
  unfold before_target.
  destruct (create_input_adjoints_frame G old_new
              (foldl (fun s b => VisitBinding b s) (BeginDataflowBlock s) (bindings block)))
    as (-> & -> & -> & _).
  by destruct (VisitBinding_frame (bindings block) (BeginDataflowBlock s))
    as (_ & -> & -> & ->).
Qed.

Lemma clone_params_NoDup ps : ∀ s new_params s',
  clone_params ps s = (new_params, s') → NoDup (var_addr <$> new_params).
Proof.
  induction ps as [|p ps IH]; intros s nps s' H; simpl in H.
  - injection H as <- <-. constructor.
  - destruct (clone_params ps _) as [nps' s3] eqn:Hrec. injection H as <- <-.
    simpl. constructor; [| by eapply IH].
    apply clone_params_spec in Hrec as (_ & _ & _ & Hall). simpl in Hall.
    intros Hin. apply list_elem_of_fmap in Hin as (q & Heq & Hq).
    assert (Forall (fun p' : Var => S (next_addr s) ≤ var_addr p') nps') as Hge.
    { eapply Forall2_Forall_r; [exact Hall |].
      rewrite Forall_forall. intros p0 _ p' [_ ?]. lia. }
    rewrite Forall_forall in Hge. apply Hge in Hq. lia.
Qed.

Lemma create_input_adjoints_entries G old_new : ∀ s,
  NoDup (var_addr <$> old_new.*2) →
  Forall (fun on : Var * Var => adjoint_var_map s !! var_addr on.2 = None) old_new →
  (∀ key u, adjoint_var_map s !! key = Some u →
     adjoint_var_map (create_input_adjoints G old_new s) !! key = Some u) ∧
  Forall (fun on : Var * Var =>
            ∃ adjoint,
              adjoint_var_map (create_input_adjoints G old_new s) !! var_addr on.2
                = Some adjoint ∧
              var_is_dataflow adjoint = negb (requires_grad G on.1) ∧
              var_name adjoint = var_name on.2 +:+ "_adjoint") old_new.
Proof.
  induction old_new as [|[p np] old_new IH]; intros s Hnd Hnone; simpl.
  - split; [done | constructor].
  - simpl in Hnd. apply NoDup_cons in Hnd as [Hnp Hnd].
    apply Forall_cons in Hnone as [Hp Hnone]. simpl in Hp.
    set (s1 := CreateAdjointVar np (negb (requires_grad G p)) s).
    assert (adjoint_var_map s1 =
              <[var_addr np :=
                  mkVar (S (next_addr s)) (negb (requires_grad G p))
                    (mkId (next_addr s) (var_name np +:+ "_adjoint"))
                    (shape s np) (checked_type s np) None]> (adjoint_var_map s)) as Hs1.
    { unfold s1, CreateAdjointVar. by rewrite Hp. }
    destruct (IH s1 Hnd) as [Hmono Hall].
    { rewrite Forall_forall in Hnone. rewrite Forall_forall. intros [q nq] Hin. simpl.
      rewrite Hs1, lookup_insert_ne; [by apply (Hnone _ Hin) |].
      intros Heq. apply Hnp. rewrite Heq. apply list_elem_of_fmap. exists nq.
      split; [done |]. apply list_elem_of_fmap. by exists (q, nq). }
    split.
    + intros key u Hu. apply Hmono. rewrite Hs1, lookup_insert_ne; [done | congruence].
    + constructor; [| done]. simpl. eexists. split; [| split].
      * apply Hmono. rewrite Hs1. apply lookup_insert_eq.
      * done.
      * done.
Qed.

Lemma emit_input_adjoints_emitted G old_new : ∀ s out s',
  emit_input_adjoints G old_new s = Ok (out, s') →
  ∃ new, emitted s' = emitted s ++ new ∧ length new = length out ∧
         Forall (defines_adjoint s) new.
Proof.
  induction old_new as [|[p np] old_new IH]; intros s out s' H; simpl in H.
  - injection H as <- <-. exists []. by rewrite app_nil_r.
  - destruct (requires_grad G p); [| by apply IH].
    apply bind_Ok in H as [[av s1] [H1 H]].
    apply bind_Ok in H as [[out' s2] [H2 H]]. injection H as <- <-.
    pose proof (emit_input_adjoint_Ok _ _ _ _ H1) as (Hav & Hm & _).
    apply IH in H2 as (new & Hem & Hlen & Hall).
    assert (Forall (defines_adjoint s) new) as Hall'.
    { eapply Forall_impl; [exact Hall |]. intros b (k & v & e & Hk & ->).
      exists k, v, e. by rewrite <- Hm. }
    assert (∃ e, emitted s1 = emitted s ++ [(emit_kind av, VarBinding av e)]) as [e He].
    { unfold emit_input_adjoint in H1. apply bind_Ok in H1 as [av' [_ H1]].
      destruct (adjoint_expr_map s !! var_addr np) as [e|].
      - injection H1 as <- <-. rewrite BindAndEmit_emitted. eauto.
      - apply bind_Ok in H1 as [dt [_ H1]]. simpl in H1. injection H1 as <- <-.
        rewrite BindAndEmit_emitted. eauto. }
    exists ((emit_kind av, VarBinding av e) :: new).
    rewrite Hem, He, <- app_assoc. split; [done |]. split; [simpl; lia |].
    constructor; [| exact Hall']. by exists (var_addr np), av, e.
Qed.

Section Stages.

Variable gradient_op_map :
  string → option (Expr → Var → addr → list Expr * addr).
Variable VisitWithNewScope : gmap addr Var → FuncBody → addr → FuncBody * addr.
Variable Normalize : FuncBody → FuncBody.

(** X13: the forward computation is kept in what the pass emits.  The
    region the pass builds with the block builder, the one [FuncTransform]
    closes with [EndBlock] and hands to [Normalize], starts with the
    bindings of the reproduced region, in their order; every binding the
    pass emits after them defines an adjoint variable, and there is at most
    one of them per forward binding plus one per parameter that requires a
    gradient.  This is the region before normalization: what [Normalize]
    makes of it is not part of the statement. *)
Theorem FuncTransform_forward_prefix G node s f' s' :
  FuncTransform gradient_op_map VisitWithNewScope Normalize G node s = Ok (f', s') →
  ∃ block ret ret' forward_bindings adjoint_bindings,
    (forward_clone VisitWithNewScope node s).1.2 = SeqExpr [block] ret ∧
    body f' = Normalize (SeqExpr [EndBlock s'] ret') ∧
    emitted s' = forward_bindings ++ adjoint_bindings ∧
    forward_bindings.*2 = bindings block ∧
    length adjoint_bindings ≤
      length (bindings block) + length (selected_params G (zip (params node) (params f'))) ∧
    Forall (defines_adjoint s') adjoint_bindings.
Proof.
  intros H. unfold FuncTransform in H.
  apply bind_Ok in H as [_ [_ H]].
  destruct (forward_clone VisitWithNewScope node s) as [[new_params new_body] s1].
  pose proof (transform_body_params _ _ _ _ _ _ _ _ _ H) as Hparams.
  apply transform_body_Ok in H
    as (block & target & s_rev & out & s_out & -> & _ & _ & Hrev & Hout & -> & ->).
  destruct (before_target_frame G (zip (params node) new_params) block s1) as (_ & _ & Hpre).
  apply reverse_mode_emitted in Hrev as (_ & new1 & Hem1 & Hlen1 & Hall1).
  pose proof (emit_input_adjoints_Ok _ _ _ _ _ Hout) as (Hm & _ & Hsel).
  apply Forall2_length in Hsel. rewrite length_fmap in Hsel.
  apply emit_input_adjoints_emitted in Hout as (new2 & Hem2 & Hlen2 & Hall2).
  exists block, (EVar target). eexists _, _, (new1 ++ new2). simpl.
  split; [done |]. split; [reflexivity |]. split; [| split; [exact Hpre | split]].
  - rewrite Hem2, Hem1. simpl. by rewrite <- app_assoc.
  - rewrite length_app. simpl in Hparams. lia.
  - apply Forall_app. split.
    + eapply Forall_impl; [exact Hall1 |]. intros b (k & v & e & Hk & ->).
      exists k, v, e. simpl. by rewrite Hm.
    + eapply Forall_impl; [exact Hall2 |]. intros b (k & v & e & Hk & ->).
      exists k, v, e. simpl. by rewrite Hm.
Qed.

(** X14: every parameter of the output function has an adjoint variable,
    named after it; the adjoint variable is an output variable when the
    parameter requires a gradient and an intermediate one otherwise. *)
Theorem FuncTransform_input_adjoints G node s f' s' :
  adjoint_var_map s = ∅ →
  FuncTransform gradient_op_map VisitWithNewScope Normalize G node s = Ok (f', s') →
  ∀ param new_param,
    (param, new_param) ∈ zip (params node) (params f') →
    ∃ adjoint,
      adjoint_var_map s' !! var_addr new_param = Some adjoint ∧
      var_is_dataflow adjoint = negb (requires_grad G param) ∧
      var_name adjoint = var_name param +:+ "_adjoint".
Proof.
  intros Hv0 H param new_param Hin. unfold FuncTransform in H.
  apply bind_Ok in H as [_ [_ H]]. unfold forward_clone in H.
  destruct (clone_params (params node) s) as [new_params s1] eqn:Hc.
  destruct (VisitWithNewScope _ _ _) as [new_body n].
  pose proof (clone_params_tables _ _ _ _ Hc) as (Hv1 & _ & _).
  pose proof (clone_params_NoDup _ _ _ _ Hc) as Hnd.
  apply clone_params_spec in Hc as (_ & _ & _ & Hps).
  pose proof (transform_body_params _ _ _ _ _ _ _ _ _ H) as Hparams.
  rewrite Hparams in Hin.
  apply transform_body_Ok in H
    as (block & target & s_rev & out & s_out & -> & _ & _ & Hrev & Hout & -> & ->).
  apply reverse_mode_emitted in Hrev as (Hmono & _).
  apply emit_input_adjoints_Ok in Hout as (Hm & _ & _).
  set (old_new := zip (params node) new_params) in *.
  unfold before_target in Hmono. simpl in Hmono.
  set (s0 := foldl (fun s b => VisitBinding b s) (BeginDataflowBlock (set_next_addr n s1))
               (bindings block)) in *.
  assert (adjoint_var_map s0 = ∅) as Hs0.
  { unfold s0. destruct (VisitBinding_frame (bindings block)
                           (BeginDataflowBlock (set_next_addr n s1))) as (-> & _).
    simpl. by rewrite Hv1. }
  destruct (create_input_adjoints_entries G old_new s0) as [_ Hall].
  { unfold old_new. rewrite snd_zip; [done |]. apply Forall2_length in Hps. lia. }
  { rewrite Forall_forall. intros ? _. by rewrite Hs0. }
  rewrite Forall_forall in Hall. destruct (Hall _ Hin) as (adjoint & Hadj & Hdf & Hname).
  simpl in *. exists adjoint. rewrite Hm. split; [by apply Hmono |]. split; [done |].
  rewrite Hname. f_equal.
  assert (vid new_param = vid param) as Hvid; [| unfold var_name; by rewrite Hvid].
  clear - Hps Hin. unfold old_new in Hin.
  induction Hps as [|p p' ps ps' [(Hvid & _) _] _ IH]; simpl in Hin.
  - by apply not_elem_of_nil in Hin.
  - apply elem_of_cons in Hin as [[= -> ->] | Hin]; [done | by apply IH].
Qed.

Lemma FuncTransform_signature G node s f' s' :
  FuncTransform gradient_op_map VisitWithNewScope Normalize G node s = Ok (f', s') →
  attrs f' = attrs node ∧
  length (params f') = length (params node) ∧
  ∃ types, ret_type f' = TupleType [ret_type node; TupleType types] ∧
           length types = length (selected_params G (zip (params node) (params f'))).
Proof.
  intros H. unfold FuncTransform in H.
  apply bind_Ok in H as [_ [_ H]]. unfold forward_clone in H.
  destruct (clone_params (params node) s) as [new_params s1] eqn:Hc.
  destruct (VisitWithNewScope _ _ _) as [new_body n].
  apply clone_params_spec in Hc as (_ & _ & _ & Hps). apply Forall2_length in Hps.
  apply transform_body_Ok in H
    as (block & target & s_rev & out & s_out & -> & _ & _ & _ & Hout & -> & ->).
  apply emit_input_adjoints_Ok in Hout as (_ & _ & Hsel).
  apply Forall2_length in Hsel. rewrite length_fmap in Hsel.
  simpl. split; [done |]. split; [done |]. eexists. split; [done |].
  by rewrite length_fmap.
Qed.

(** X15: [relax::SimpleAD] called with the only reference to the module
    works in place: it returns the module it was given, with the adjoint
    function added to it under a new [GlobalVar] named [<F>_adjoint]; the
    other modules are as they were. *)
Theorem SimpleAD_in_place m var G h node m' h' :
  heap_modules h !! m = Some node →
  use_count node = 1 →
  SimpleAD gradient_op_map VisitWithNewScope Normalize m var G h = Ok (m', h') →
  m' = m ∧
  ∃ f_after,
    heap_modules h' =
      <[m := mkModule 1
               (<[heap_next h :=
                    (mkGlobalVar (heap_next h) (gv_name_hint var +:+ "_adjoint"),
                     RelaxFunction f_after)]> (functions node))]> (heap_modules h).
Proof.
  intros Hm Huse H. unfold SimpleAD, at_ in H. rewrite Hm in H. simpl in H.
  apply bind_Ok in H as [base_func [_ H]].
  destruct base_func as [F|]; [| discriminate].
  apply bind_Ok in H as [[] [_ H]].
  unfold SimpleAD_mutator, CopyOnWrite in H.
  rewrite bool_decide_eq_true_2 in H by done. simpl in H.
  apply bind_Ok in H as [[f_after mutator] [_ H]]. simpl in H.
  unfold at_ in H. rewrite Hm in H. simpl in H. injection H as <- <-.
  split; [done |]. eexists. simpl. unfold Add. simpl. by rewrite Huse.
Qed.

Section Contracts.

Hypothesis clone_allocates : ∀ remap b n, n ≤ (VisitWithNewScope remap b n).2.

Hypothesis partials_owned : ∀ name grad call adjoint_var n,
  gradient_op_map name = Some grad →
  n ≤ (grad call adjoint_var n).2 ∧
  Forall (owned (var_addr adjoint_var `min` n) (grad call adjoint_var n).2)
    (grad call adjoint_var n).1.

Lemma partials_owned_fresh : partials_fresh gradient_op_map.
Proof.
  intros name grad call adjoint_var n Hg Hlt.
  destruct (partials_owned name grad call adjoint_var n Hg) as [Hle Hall].
  split; [done |]. eapply Forall_impl; [exact Hall |].
  intros e. apply owned_mono; lia.
Qed.

(** X16: when no binding of the reproduced region defines the variable the
    function returns (the function returns one of its parameters, say), a
    successful transformation propagates nothing: no adjoint expression is
    ever created, and the adjoint variable of every parameter that requires
    a gradient, the returned one included, is bound to [zeros] on the shape
    and element type of the parameter. *)
Theorem FuncTransform_target_not_bound G node s f' s' block target :
  adjoint_var_map s = ∅ → adjoint_expr_map s = ∅ → adjoint_binding_ s = ∅ →
  (forward_clone VisitWithNewScope node s).1.2 = SeqExpr [block] (EVar target) →
  (∀ var value, VarBinding var value ∈ bindings block → var_addr var ≠ var_addr target) →
  FuncTransform gradient_op_map VisitWithNewScope Normalize G node s = Ok (f', s') →
  adjoint_expr_map s' = ∅ ∧
  ∃ block' ret,
    body f' = Normalize (SeqExpr [block'] ret) ∧
    ∀ param new_param,
      (param, new_param) ∈ zip (params node) (params f') →
      requires_grad G param = true →
      ∃ adjoint a ndim dtype,
        adjoint_var_map s' !! var_addr new_param = Some adjoint ∧
        checked_type s' new_param = DynTensorType ndim dtype ∧
        VarBinding adjoint (Call a zeros_op [shape s' new_param] (InitAttrs dtype))
          ∈ bindings block'.
Proof.
  intros Hv0 He0 Hb0 Hclone Hnb H.
  assert (adjoint_expr_map s' = ∅) as Hempty.
  { unfold FuncTransform in H. apply bind_Ok in H as [_ [_ H]].
    unfold forward_clone in *.
    destruct (clone_params (params node) s) as [new_params s1] eqn:Hc.
    destruct (VisitWithNewScope _ _ _) as [new_body n]. simpl in Hclone. subst new_body.
    apply clone_params_tables in Hc as (_ & He1 & _).
    apply transform_body_Ok in H
      as (block0 & target0 & s_rev & out & s_out & [= <- <-] & _ & _ & Hrev & Hout & -> & _).
    destruct (before_target_frame G (zip (params node) new_params) block (set_next_addr n s1))
      as (Hpre & _ & _).
    simpl in Hpre. rewrite He1, He0 in Hpre.
    destruct (reverse_mode_skip gradient_op_map (bindings block)
                (set_target_var (Some target)
                   (before_target G (zip (params node) new_params) block (set_next_addr n s1))))
      as (s_rev' & Hrev' & _ & Herev & _).
    { rewrite Forall_forall. intros [var value|] Hin; [| done].
      unfold reached, is_target. simpl. rewrite Hpre, lookup_empty.
      rewrite bool_decide_eq_false_2 by by intros [? ?]. simpl.
      apply bool_decide_eq_false_2. intros [= Heq]. by eapply Hnb. }
    rewrite Hrev in Hrev'. injection Hrev' as <-.
    apply emit_input_adjoints_Ok in Hout as (_ & He & _).
    simpl. rewrite He, Herev. exact Hpre. }
  split; [done |].
  destruct (FuncTransform_owned gradient_op_map VisitWithNewScope Normalize
              clone_allocates partials_owned_fresh G node s f' s' Hv0 He0 Hb0 H)
    as (lo & block' & ret & _ & _ & _ & Hbody & Hdef).
  exists block', ret. split; [done |]. intros param new_param Hin Hreq.
  apply (Hdef param new_param Hin Hreq). by rewrite Hempty.
Qed.

(** X17: the module a pass invocation returns still holds [F] under its
    [GlobalVar], and holds the adjoint function under the new one; the
    adjoint function has as many parameters as [F], the attributes of [F]
    with [global_symbol] set to [<F>_adjoint], and the return type
    [Tuple(ret_type of F, Tuple(...))] with one type per parameter that
    requires a gradient. *)
Theorem SimpleAD_pass_functions func G mod_ h node F m' h' :
  heap_wf h →
  heap_modules h !! mod_ = Some node →
  Lookup node func = Ok (RelaxFunction F) →
  SimpleAD_pass gradient_op_map VisitWithNewScope Normalize func G mod_ h = Ok (m', h') →
  ∃ node' adjoint_var f_after types,
    heap_modules h' !! m' = Some node' ∧
    Lookup node' func = Ok (RelaxFunction F) ∧
    Lookup node' adjoint_var = Ok (RelaxFunction f_after) ∧
    gv_name_hint adjoint_var = gv_name_hint func +:+ "_adjoint" ∧
    attrs f_after = <[kGlobalSymbol := gv_name_hint func +:+ "_adjoint"]> (attrs F) ∧
    length (params f_after) = length (params F) ∧
    ret_type f_after = TupleType [ret_type F; TupleType types] ∧
    length types = length (selected_params G (zip (params F) (params f_after))).
Proof.
  intros Hwf Hm HF H. destruct (Hwf _ _ Hm) as (Hlt & Huse & Hkeys).
  unfold SimpleAD_pass, at_ in H. rewrite Hm in H. simpl in H.
  unfold SimpleAD, at_ in H. simpl in H. rewrite lookup_insert_eq in H. simpl in H.
  unfold Lookup in HF, H. simpl in H.
  destruct (functions node !! gv_addr func) as [[gv F0]|] eqn:Hfunc; [| discriminate].
  injection HF as ->. simpl in H.
  apply bind_Ok in H as [[] [_ H]].
  unfold SimpleAD_mutator, CopyOnWrite in H. simpl in H.
  rewrite bool_decide_eq_false_2 in H by lia. simpl in H.
  rewrite lookup_insert_eq in H.
  apply bind_Ok in H as [[f_after mutator] [HT H]]. simpl in H.
  injection H as <- <-. simpl.
  apply FuncTransform_signature in HT as (Hattrs & Hlen & types & Hret & Htypes).
  eexists _, (mkGlobalVar (S (heap_next h)) (gv_name_hint func +:+ "_adjoint")), _, types.
  split; [apply lookup_insert_eq |].
  assert (gv_addr func < heap_next h) as Hf by (apply Hkeys; by eexists).
  unfold Lookup, Add, WithAttr. simpl.
  rewrite lookup_insert_ne by lia. rewrite Hfunc, lookup_insert_eq. simpl.
  by rewrite Hattrs.
Qed.

End Contracts.

End Stages.

(** ** The adjoints of the inputs that were reached *)

Lemma BindAndEmit_intern v e s :
  (∀ k u, adjoint_binding_ s !! k = Some u →
     adjoint_binding_ (BindAndEmit v e s) !! k = Some u) ∧
  ∃ u, adjoint_binding_ (BindAndEmit v e s) !! expr_addr e = Some u ∧
       ((u = v ∧ (emit_kind v, VarBinding v e) ∈ emitted (BindAndEmit v e s)) ∨
        (emit_kind v, VarBinding v (EVar u)) ∈ emitted (BindAndEmit v e s)).
Proof.
  rewrite BindAndEmit_emitted. unfold BindAndEmit, interned.
  destruct (adjoint_binding_ s !! expr_addr e) as [u|] eqn:Hu.
  - split; [by destruct (var_is_dataflow v) |].
    exists u. split; [by destruct (var_is_dataflow v) |]. right.
    apply elem_of_app. right. by apply list_elem_of_singleton.
  - split.
    + intros k u Hk. destruct (var_is_dataflow v); simpl;
        (rewrite lookup_insert_ne; [done | congruence]).
    + exists v. split; [destruct (var_is_dataflow v); simpl; apply lookup_insert_eq |].
      left. split; [done |]. apply elem_of_app. right. by apply list_elem_of_singleton.
Qed.

Lemma emit_input_adjoint_intern new_param s adjoint s' :
  emit_input_adjoint new_param s = Ok (adjoint, s') →
  (∀ k u, adjoint_binding_ s !! k = Some u → adjoint_binding_ s' !! k = Some u) ∧
  (∃ new, emitted s' = emitted s ++ new) ∧
  ∀ e, adjoint_expr_map s !! var_addr new_param = Some e →
    ∃ u, adjoint_binding_ s' !! expr_addr e = Some u ∧
         ((u = adjoint ∧ (emit_kind adjoint, VarBinding adjoint e) ∈ emitted s') ∨
          (emit_kind adjoint, VarBinding adjoint (EVar u)) ∈ emitted s').
Proof.
  unfold emit_input_adjoint. intros H.
  apply bind_Ok in H as [av [_ H]].
  destruct (adjoint_expr_map s !! var_addr new_param) as [e0|].
  - injection H as <- <-.
    destruct (BindAndEmit_intern av e0 s) as [Hmono Hu].
    split; [done |]. split; [rewrite BindAndEmit_emitted; eauto |].
    by intros e [= <-].
  - apply bind_Ok in H as [dt [_ H]]. simpl in H. injection H as <- <-.
    match goal with |- context [BindAndEmit ?v ?e ?s0] =>
      destruct (BindAndEmit_intern v e s0) as [Hmono _] end.
    split; [exact Hmono |]. split; [rewrite BindAndEmit_emitted; eauto | discriminate].
Qed.

Lemma emit_input_adjoints_intern G old_new : ∀ s out s',
  emit_input_adjoints G old_new s = Ok (out, s') →
  (∀ k u, adjoint_binding_ s !! k = Some u → adjoint_binding_ s' !! k = Some u) ∧
  (∃ new, emitted s' = emitted s ++ new) ∧
  Forall (fun on : Var * Var =>
            requires_grad G on.1 = true →
            ∀ e, adjoint_expr_map s !! var_addr on.2 = Some e →
              ∃ adjoint u,
                adjoint_var_map s !! var_addr on.2 = Some adjoint ∧
                adjoint_binding_ s' !! expr_addr e = Some u ∧
                ((u = adjoint ∧ (emit_kind adjoint, VarBinding adjoint e) ∈ emitted s') ∨
                 (emit_kind adjoint, VarBinding adjoint (EVar u)) ∈ emitted s')) old_new.
Proof.
  induction old_new as [|[p np] old_new IH]; intros s out s' H; simpl in H.
  - injection H as <- <-. split; [done |].
    split; [exists []; by rewrite app_nil_r | constructor].
  - destruct (requires_grad G p) eqn:Hreq.
    + apply bind_Ok in H as [[av s1] [H1 H]].
      apply bind_Ok in H as [[out' s2] [H2 H]]. injection H as <- <-.
      pose proof (emit_input_adjoint_Ok _ _ _ _ H1) as (Hav & Hm & He).
      apply emit_input_adjoint_intern in H1 as (Hmono1 & [new1 Hem1] & Hhead).
      apply IH in H2 as (Hmono2 & [new2 Hem2] & Hall).
      split; [auto |]. split; [exists (new1 ++ new2); by rewrite Hem2, Hem1, app_assoc |].
      constructor.
      * simpl. intros _ e Hlook. destruct (Hhead e Hlook) as (u & Hu & Hem).
        exists av, u. split; [done |]. split; [by apply Hmono2 |].
        rewrite Hem2. destruct Hem as [[-> Hin] | Hin]; [left; split; [done |] | right];
          apply elem_of_app; by left.
      * eapply Forall_impl; [exact Hall |]. intros [q nq] Hq. simpl in *.
        rewrite <- Hm, <- He. exact Hq.
    + apply IH in H as (Hmono & Hem & Hall).
      split; [done |]. split; [done |]. constructor; [simpl; congruence | done].
Qed.

Section Reached.

Variable gradient_op_map :
  string → option (Expr → Var → addr → list Expr * addr).
Variable VisitWithNewScope : gmap addr Var → FuncBody → addr → FuncBody * addr.
Variable Normalize : FuncBody → FuncBody.

(** X18: the adjoint of an input the target depends on.  In a successful
    transformation, for every parameter that requires a gradient and has an
    adjoint expression at the end of the reverse walk, the pass emits to the
    block builder the binding of its adjoint variable to that expression,
    or, when the expression was bound before, to the variable it was bound
    to; the intern table holds the variable the expression is bound to.
    The binding is in the region [FuncTransform] closes with [EndBlock] and
    hands to [Normalize]; what [Normalize] makes of it is not part of the
    statement. *)
Theorem FuncTransform_accumulated_adjoint G node s f' s' :
  FuncTransform gradient_op_map VisitWithNewScope Normalize G node s = Ok (f', s') →
  (∃ ret, body f' = Normalize (SeqExpr [EndBlock s'] ret)) ∧
  ∀ param new_param e,
    (param, new_param) ∈ zip (params node) (params f') →
    requires_grad G param = true →
    adjoint_expr_map s' !! var_addr new_param = Some e →
    ∃ adjoint u,
      adjoint_var_map s' !! var_addr new_param = Some adjoint ∧
      adjoint_binding_ s' !! expr_addr e = Some u ∧
      ((u = adjoint ∧ (emit_kind adjoint, VarBinding adjoint e) ∈ emitted s') ∨
       (emit_kind adjoint, VarBinding adjoint (EVar u)) ∈ emitted s').
Proof.
  intros H. unfold FuncTransform in H.
  apply bind_Ok in H as [_ [_ H]].
  destruct (forward_clone VisitWithNewScope node s) as [[new_params new_body] s1].
  apply transform_body_Ok in H
    as (block & target & s_rev & out & s_out & -> & _ & _ & _ & Hout & -> & ->).
  pose proof (emit_input_adjoints_Ok _ _ _ _ _ Hout) as (Hm & He & _).
  apply emit_input_adjoints_intern in Hout as (_ & _ & Hall).
  split; [eexists; reflexivity |]. simpl.
  intros param new_param e Hin Hreq Hlook. rewrite He in Hlook.
  rewrite Forall_forall in Hall.
  destruct (Hall _ Hin Hreq e Hlook) as (adjoint & u & Hav & Hu & Hem).
  exists adjoint, u. rewrite Hm. by repeat split.
Qed.

End Reached.

(** ** The requires-gradient list *)

Lemma create_input_adjoints_ext G G' old_new : ∀ s,
  Forall (fun on : Var * Var => requires_grad G on.1 = requires_grad G' on.1) old_new →
  create_input_adjoints G old_new s = create_input_adjoints G' old_new s.
Proof.
  induction old_new as [|[p np] old_new IH]; intros s H; [done |].
  apply Forall_cons in H as [Hp H]. simpl in *. rewrite Hp. by apply IH.
Qed.

Lemma emit_input_adjoints_ext G G' old_new : ∀ s,
  Forall (fun on : Var * Var => requires_grad G on.1 = requires_grad G' on.1) old_new →
  emit_input_adjoints G old_new s = emit_input_adjoints G' old_new s.
Proof.
  induction old_new as [|[p np] old_new IH]; intros s H; [done |].
  apply Forall_cons in H as [Hp H]. simpl in *. rewrite Hp.
  destruct (requires_grad G' p); [| by apply IH].
  destruct (emit_input_adjoint np s) as [[av s1]|]; simpl; [| done].
  by rewrite IH.
Qed.

Section RequireGrads.

Variable gradient_op_map :
  string → option (Expr → Var → addr → list Expr * addr).
Variable VisitWithNewScope : gmap addr Var → FuncBody → addr → FuncBody * addr.
Variable Normalize : FuncBody → FuncBody.

Lemma FuncTransform_ext G G' node s :
  (∀ p, p ∈ params node → requires_grad G p = requires_grad G' p) →
  FuncTransform gradient_op_map VisitWithNewScope Normalize G node s =
  FuncTransform gradient_op_map VisitWithNewScope Normalize G' node s.
Proof.
  intros Hext. unfold FuncTransform.
  destruct (ICHECK _ _); simpl; [| done].
  destruct (forward_clone VisitWithNewScope node s) as [[new_params new_body] s1].
  unfold transform_body. destruct new_body as [blocks seq_body|]; [| done].
  destruct blocks as [|block [|]]; try done. simpl.
  destruct (ICHECK _ _); simpl; [| done].
  assert (Forall (fun on : Var * Var => requires_grad G on.1 = requires_grad G' on.1)
            (zip (params node) new_params)) as Hall.
  { rewrite Forall_forall. intros [p np] Hin. apply Hext. by eapply elem_of_zip_l. }
  unfold before_target. rewrite (create_input_adjoints_ext G G' _ _ Hall).
  destruct seq_body; try done.
  destruct (CheckTarget _ _); simpl; [| done].
  destruct (reverse_mode _ _ _) as [s2|]; simpl; [| done].
  by rewrite (emit_input_adjoints_ext G G' _ _ Hall).
Qed.

Lemma requires_grad_same_set (G G' : list Var) (p : Var) :
  (∀ a, a ∈ var_addr <$> G ↔ a ∈ var_addr <$> G') →
  requires_grad G p = requires_grad G' p.
Proof.
  intros Hset. unfold requires_grad.
  assert (∀ L : list Var,
            existsb (fun g => bool_decide (var_addr g = var_addr p)) L = true
            ↔ var_addr p ∈ var_addr <$> L) as Hex.
  { intros L. rewrite existsb_exists, list_elem_of_fmap. split.
    - intros (g & Hg & Heq). apply bool_decide_eq_true in Heq.
      exists g. split; [done | by apply list_elem_of_In].
    - intros (g & Heq & Hg). exists g. split; [by apply list_elem_of_In |].
      by apply bool_decide_eq_true. }
  destruct G as [|g G], G' as [|g' G'].
  - done.
  - exfalso. specialize (Hset (var_addr g')). simpl in Hset.
    apply (not_elem_of_nil (var_addr g')), Hset. left.
  - exfalso. specialize (Hset (var_addr g)). simpl in Hset.
    apply (not_elem_of_nil (var_addr g)), Hset. left.
  - rewrite !(bool_decide_eq_false_2 (_ = [])) by done.
    rewrite !orb_false_l. apply eq_true_iff_eq. rewrite !Hex. apply Hset.
Qed.

Lemma params_check_same_set (G G' ps : list Var) :
  (∀ a, a ∈ var_addr <$> G ↔ a ∈ var_addr <$> G') →
  forallb (fun input => existsb (fun p => bool_decide (var_addr p = var_addr input)) ps) G =
  forallb (fun input => existsb (fun p => bool_decide (var_addr p = var_addr input)) ps) G'.
Proof.
  intros Hset. apply eq_true_iff_eq. rewrite !forallb_forall.
  assert (∀ L : list Var,
            (∀ x, In x L → existsb (fun p => bool_decide (var_addr p = var_addr x)) ps = true)
            ↔ ∀ a, a ∈ var_addr <$> L →
                existsb (fun p => bool_decide (var_addr p = a)) ps = true) as Hall.
  { intros L. split.
    - intros H a Ha. apply list_elem_of_fmap in Ha as (g & -> & Hg).
      apply H. by apply list_elem_of_In.
    - intros H x Hx. apply H. apply list_elem_of_fmap. exists x.
      split; [done | by apply list_elem_of_In]. }
  rewrite !Hall. split; intros H a Ha; apply H; by apply Hset.
Qed.

(** Two requires-gradient lists that name the same variables take
    [relax::SimpleAD] through the same checks and the same transformation. *)
Lemma SimpleAD_same_set m var (G G' : list Var) h :
  (∀ a, a ∈ var_addr <$> G ↔ a ∈ var_addr <$> G') →
  SimpleAD gradient_op_map VisitWithNewScope Normalize m var G h =
  SimpleAD gradient_op_map VisitWithNewScope Normalize m var G' h.
Proof.
  intros Hset. unfold SimpleAD.
  destruct (at_ (heap_modules h) m) as [node|]; simpl; [| done].
  destruct (Lookup node var) as [[n|]|]; simpl; try done.
  rewrite (params_check_same_set G G' (params n) Hset).
  destruct (ICHECK _ _); simpl; [| done].
  destruct (CopyOnWrite m node h) as [new_module h1].
  rewrite (FuncTransform_ext G G'); [done |].
  intros p _. by apply requires_grad_same_set.
Qed.

(** X19: [relax::SimpleAD] reads the requires-gradient list as a set.  For
    two lists that name the same variables, in any order and any number of
    times, one run returns exactly when the other does, with the same module
    and heap, and one run aborts exactly when the other does.  Nothing is
    said of the fatal error itself: the message of the check that an entry
    is a parameter names the first offending entry of the list, so it
    depends on the order. *)
Theorem SimpleAD_requires_grad_set m var (G G' : list Var) h :
  (∀ a, a ∈ var_addr <$> G ↔ a ∈ var_addr <$> G') →
  (∀ r, SimpleAD gradient_op_map VisitWithNewScope Normalize m var G h = Ok r ↔
        SimpleAD gradient_op_map VisitWithNewScope Normalize m var G' h = Ok r) ∧
  is_fatal (SimpleAD gradient_op_map VisitWithNewScope Normalize m var G h) =
  is_fatal (SimpleAD gradient_op_map VisitWithNewScope Normalize m var G' h).
Proof.
  intros Hset. by rewrite (SimpleAD_same_set m var G G' h Hset).
Qed.

(** X20: an empty requires-gradient list stands for all the parameters of
    the function: [relax::SimpleAD] gives the same result for both. *)
Theorem SimpleAD_empty_all m var h node n :
  heap_modules h !! m = Some node →
  Lookup node var = Ok (RelaxFunction n) →
  SimpleAD gradient_op_map VisitWithNewScope Normalize m var [] h =
  SimpleAD gradient_op_map VisitWithNewScope Normalize m var (params n) h.
Proof.
  intros Hm Hn. unfold SimpleAD, at_. rewrite Hm. simpl. rewrite Hn. simpl.
  assert (forallb (fun input =>
                     existsb (fun p => bool_decide (var_addr p = var_addr input)) (params n))
            (params n) = true) as ->.
  { apply forallb_forall. intros x Hx. apply existsb_exists. exists x.
    split; [done | by apply bool_decide_eq_true]. }
  simpl. destruct (CopyOnWrite m node h) as [new_module h1].
  rewrite (FuncTransform_ext [] (params n)); [done |].
  intros p Hp. unfold requires_grad. simpl. symmetry.
  apply orb_true_intro. right. apply existsb_exists. exists p.
  split; [by apply list_elem_of_In | by apply bool_decide_eq_true].
Qed.

End RequireGrads.

(** ** Struct info predicates *)

Lemma existsb_negb_false {A} (f : A → bool) (l : list A) :
  negb (existsb (fun x => negb (f x)) l) = forallb f l.
Proof. induction l as [|x l IH]; simpl; [done |]. rewrite <- IH. by destruct (f x). Qed.

(** X21: [IsNestedTensor] holds exactly when every struct info reached
    through the nesting of tuples is a tensor; so the empty tuple is a
    nested tensor, and one component that is no tensor (a shape, a prim
    value, an object, a function) at any depth makes it false. *)
Theorem IsNestedTensor_leaves sinfo :
  IsNestedTensor sinfo = true ↔ Forall is_tensor (sinfo_leaves sinfo).
Proof.
  induction sinfo as [| | | |fields IH|] using StructInfo_fields_ind; simpl.
  1-3, 6: split; [discriminate |]; intros H; apply Forall_cons in H as [(? & ? & ?) _];
    discriminate.
  - split; [| done]. intros _. repeat constructor. by eexists _, _.
  - rewrite existsb_negb_false.
    induction IH as [|f fields Hf _ IHl]; simpl; [split; [constructor | done] |].
    rewrite andb_true_iff, Forall_app. by rewrite Hf, IHl.
Qed.

(** X22: on a nested tensor, [KnowAllShapeValues] holds exactly when
    every tensor of the nest has a shape that is a [ShapeExpr]. *)
Theorem KnowAllShapeValues_nested sinfo :
  IsNestedTensor sinfo = true →
  (KnowAllShapeValues sinfo = true ↔ Forall has_shape_values (sinfo_leaves sinfo)).
Proof.
  induction sinfo as [| | |shape dtype|fields IH|] using StructInfo_fields_ind; simpl;
    try discriminate.
  - intros _. split.
    + destruct shape as [[]|]; try discriminate. intros _. repeat constructor.
      by eexists _, _, _.
    + intros H. apply Forall_cons in H as [(? & ? & ? & [= -> ->]) _]. done.
  - rewrite existsb_negb_false.
    induction IH as [|f fields Hf _ IHl]; simpl; [split; [constructor | done] |].
    rewrite andb_true_iff. intros [Hn Hns].
    rewrite andb_true_iff, Forall_app. by rewrite (Hf Hn), (IHl Hns).
Qed.

(** X23: a scalar tensor is a tensor whose shape is the [ShapeExpr]
    without dimensions; it is a nested tensor all of whose shape values
    are known. *)
Theorem IsScalarTensor_nested_known sinfo :
  IsScalarTensor sinfo = true →
  IsNestedTensor sinfo = true ∧ KnowAllShapeValues sinfo = true ∧
  ∃ a dtype, sinfo = TensorStructInfo (Some (ShapeExpr a [])) dtype.
Proof.
  destruct sinfo as [| | |[[| | | |a values| |]|] dtype| |]; try discriminate.
  simpl. intros H. apply bool_decide_eq_true in H.
  destruct values; [| discriminate]. repeat split. by eexists _, _.
Qed.

(** ** Binary broadcast operators *)

Lemma values_at_reverse values i :
  1 ≤ i ≤ length values →
  ∃ dim, values_at values (length values) i = Inferred dim ∧
         reverse values !! (i - 1) = Some dim.
Proof.
  intros Hi. unfold values_at. rewrite bool_decide_eq_true_2 by lia.
  destruct (lookup_lt_is_Some_2 values (length values - i)) as [dim Hdim]; [lia |].
  exists dim. rewrite Hdim. split; [done |].
  rewrite reverse_lookup by lia. rewrite <- Hdim. f_equal. lia.
Qed.

Lemma aligned_dims_Some EqualConstInt EqualCheck dims0 : ∀ dims1 out,
  aligned_dims EqualConstInt EqualCheck dims0 dims1 = Some out →
  length out = length dims0 `min` length dims1 ∧
  ∀ j dim0 dim1, dims0 !! j = Some dim0 → dims1 !! j = Some dim1 →
    compatible EqualConstInt EqualCheck dim0 dim1 = true ∧
    out !! j = Some (broadcast_dim EqualConstInt dim0 dim1).
Proof.
  induction dims0 as [|dim0 dims0 IH]; intros [|dim1 dims1] out H; simpl in H;
    try (injection H as <-; split; [simpl; lia | intros j ? ?; by rewrite ?lookup_nil]).
  destruct (compatible _ _ dim0 dim1) eqn:Hc; [| discriminate].
  destruct (aligned_dims _ _ dims0 dims1) as [out'|] eqn:Hrec; [| discriminate].
  injection H as <-. apply IH in Hrec as [Hlen Hnth].
  split; [simpl; lia |]. intros [|j] d0 d1; simpl.
  - by intros [= <-] [= <-].
  - apply Hnth.
Qed.

Lemma aligned_dims_None EqualConstInt EqualCheck dims0 : ∀ dims1,
  aligned_dims EqualConstInt EqualCheck dims0 dims1 = None →
  ∃ j dim0 dim1, dims0 !! j = Some dim0 ∧ dims1 !! j = Some dim1 ∧
    compatible EqualConstInt EqualCheck dim0 dim1 = false.
Proof.
  induction dims0 as [|dim0 dims0 IH]; intros [|dim1 dims1] H; simpl in H;
    try discriminate.
  destruct (compatible _ _ dim0 dim1) eqn:Hc; [| by exists 0, dim0, dim1].
  destruct (aligned_dims _ _ dims0 dims1) as [out'|] eqn:Hrec; [discriminate |].
  apply IH in Hrec as (j & d0 & d1 & ? & ? & ?). by exists (S j), d0, d1.
Qed.

Section BroadcastProperties.

Variable shape_of : Expr → Expr.
Variable checked_type_of : Expr → Type_.
Variable EqualConstInt : PrimExpr → Z → bool.
Variable EqualCheck : PrimExpr → PrimExpr → bool.
Variable IsUnknownDtype : DataType → bool.
Variable IsUnknownNdim : Z → bool.

Lemma common_dims_aligned values0 values1 rounds : ∀ k output_shape,
  rounds + k = length values0 `min` length values1 →
  common_dims EqualConstInt EqualCheck values0 values1 rounds (S k) output_shape =
    Inferred (app output_shape <$>
                aligned_dims EqualConstInt EqualCheck
                  (drop k (reverse values0)) (drop k (reverse values1))).
Proof.
  induction rounds as [|rounds IH]; intros k out Hk; simpl.
  - assert (aligned_dims EqualConstInt EqualCheck
              (drop k (reverse values0)) (drop k (reverse values1)) = Some []) as ->.
    { destruct (decide (length values0 ≤ length values1)).
      - rewrite (drop_ge (reverse values0)) by (rewrite length_reverse; lia). done.
      - rewrite (drop_ge (reverse values1)) by (rewrite length_reverse; lia).
        by destruct (drop k (reverse values0)). }
    simpl. by rewrite app_nil_r.
  - destruct (values_at_reverse values0 (S k)) as (dim0 & -> & H0); [lia |].
    destruct (values_at_reverse values1 (S k)) as (dim1 & -> & H1); [lia |].
    simpl in *. rewrite Nat.sub_0_r in H0, H1.
    rewrite (drop_S _ _ _ H0), (drop_S _ _ _ H1). simpl.
    unfold compatible, broadcast_dim.
    destruct (EqualConstInt dim0 1) eqn:E0; simpl.
    { rewrite IH by lia. f_equal.
      destruct (aligned_dims _ _ _ _); simpl; [| done]. by rewrite <- app_assoc. }
    destruct (EqualConstInt dim1 1) eqn:E1; simpl.
    { rewrite IH by lia. f_equal.
      destruct (aligned_dims _ _ _ _); simpl; [| done]. by rewrite <- app_assoc. }
    destruct (EqualCheck dim0 dim1) eqn:E2; simpl; [| done].
    rewrite IH by lia. f_equal.
    destruct (aligned_dims _ _ _ _); simpl; [| done]. by rewrite <- app_assoc.
Qed.

Lemma leading_dims_drop longer_shape rounds : ∀ k output_shape,
  rounds + k = length longer_shape →
  leading_dims longer_shape (length longer_shape) rounds (S k) output_shape =
    Inferred (output_shape ++ drop k (reverse longer_shape)).
Proof.
  induction rounds as [|rounds IH]; intros k out Hk; simpl.
  - rewrite drop_ge by (rewrite length_reverse; lia). by rewrite app_nil_r.
  - destruct (values_at_reverse longer_shape (S k)) as (dim & -> & Hd); [lia |].
    simpl in *. rewrite Nat.sub_0_r in Hd.
    rewrite IH by lia. rewrite (drop_S _ _ _ Hd). by rewrite <- app_assoc.
Qed.

(** The result of [InferShapeBinaryBroadcast] on two shape expressions, in
    one piece. *)
Lemma InferShape_values lhs rhs a0 values0 a1 values1 s :
  shape_of lhs = ShapeExpr a0 values0 →
  shape_of rhs = ShapeExpr a1 values1 →
  InferShapeBinaryBroadcast shape_of EqualConstInt EqualCheck [lhs; rhs] s =
    match aligned_dims EqualConstInt EqualCheck (reverse values0) (reverse values1) with
    | None =>
        Inferred (Call (next_addr s) (NotOp "vm.binary_broadcast_shape_infer")
                    [lhs; rhs] NoAttrs,
                  set_checked_type_ (<[next_addr s := ShapeType]> (checked_type_ s))
                    (alloc s).2)
    | Some common =>
        Inferred (ShapeExpr (next_addr s)
                    (reverse
                       (common ++
                          drop (length values0 `min` length values1)
                            (reverse (if bool_decide (length values1 < length values0)
                                      then values0 else values1)))),
                  (alloc s).2)
    end.
Proof.
  intros H0 H1. unfold InferShapeBinaryBroadcast. rewrite H0, H1.
  rewrite (common_dims_aligned values0 values1 _ 0 []) by lia.
  rewrite !drop_0. simpl.
  destruct (aligned_dims _ _ _ _) as [common|]; simpl; [| done].
  set (longer := if bool_decide _ then values0 else values1).
  assert (length values0 `max` length values1 = length longer) as ->.
  { unfold longer. case_bool_decide; lia. }
  rewrite leading_dims_drop; [done |].
  unfold longer. case_bool_decide; lia.
Qed.

Lemma broadcast_rank values0 values1 common :
  aligned_dims EqualConstInt EqualCheck (reverse values0) (reverse values1) = Some common →
  length (reverse
            (common ++
               drop (length values0 `min` length values1)
                 (reverse (if bool_decide (length values1 < length values0)
                           then values0 else values1))))
    = length values0 `max` length values1.
Proof.
  intros Hc. apply aligned_dims_Some in Hc as [Hlen _].
  rewrite length_reverse, length_app, length_drop, Hlen, !length_reverse.
  case_bool_decide; rewrite ?length_reverse; lia.
Qed.

(** X24: with two arguments, [InferShapeBinaryBroadcast] always returns:
    it raises no diagnostic and reads no dimension out of range.  The
    result is a new node: for two shape expressions a [ShapeExpr] whose
    rank is the larger of the two ranks, or the deferred call
    [vm.binary_broadcast_shape_infer(lhs, rhs)] stamped with [ShapeType];
    a [RuntimeDepShape] when a shape is no shape expression. *)
Theorem InferShape_two_arguments lhs rhs s :
  ∃ r s', InferShapeBinaryBroadcast shape_of EqualConstInt EqualCheck [lhs; rhs] s
            = Inferred (r, s') ∧
    expr_addr r = next_addr s ∧ next_addr s' = S (next_addr s) ∧
    match shape_of lhs, shape_of rhs with
    | ShapeExpr _ values0, ShapeExpr _ values1 =>
        (∃ output_shape,
           r = ShapeExpr (next_addr s) output_shape ∧
           length output_shape = length values0 `max` length values1 ∧
           checked_type_ s' = checked_type_ s) ∨
        (r = Call (next_addr s) (NotOp "vm.binary_broadcast_shape_infer")
               [lhs; rhs] NoAttrs ∧
         checked_type_ s' = <[next_addr s := ShapeType]> (checked_type_ s))
    | _, _ => r = RuntimeDepShape (next_addr s) ∧ checked_type_ s' = checked_type_ s
    end.
Proof.
  destruct (shape_of lhs) as [| | | |a0 values0| |] eqn:H0;
    try (unfold InferShapeBinaryBroadcast; rewrite H0; simpl;
         eexists _, _; split; [reflexivity |]; by repeat split).
  destruct (shape_of rhs) as [| | | |a1 values1| |] eqn:H1;
    try (unfold InferShapeBinaryBroadcast; rewrite H0, H1; simpl;
         eexists _, _; split; [reflexivity |]; by repeat split).
  rewrite (InferShape_values lhs rhs a0 values0 a1 values1 s H0 H1).
  destruct (aligned_dims _ _ _ _) as [common|] eqn:Hc.
  - eexists _, _. split; [reflexivity |]. repeat split. left.
    eexists. split; [reflexivity |]. split; [| done].
    by apply broadcast_rank.
  - eexists _, _. split; [reflexivity |]. repeat split. by right.
Qed.

(** X25: the broadcasting rule.  When [InferShapeBinaryBroadcast]
    returns a [ShapeExpr], its dimensions are those of the operands aligned
    from the last one: where both operands have a dimension the two are
    compatible (one of them is the constant 1 or they are equal) and the
    output has the right one when the left one is 1 and the left one
    otherwise; before that it has the dimensions of the longer shape. *)
Theorem InferShape_dimensions lhs rhs a0 values0 a1 values1 a output_shape s s' :
  shape_of lhs = ShapeExpr a0 values0 →
  shape_of rhs = ShapeExpr a1 values1 →
  InferShapeBinaryBroadcast shape_of EqualConstInt EqualCheck [lhs; rhs] s
    = Inferred (ShapeExpr a output_shape, s') →
  ∀ j,
    reverse output_shape !! j =
      match reverse values0 !! j, reverse values1 !! j with
      | Some dim0, Some dim1 => Some (broadcast_dim EqualConstInt dim0 dim1)
      | Some dim0, None => Some dim0
      | None, Some dim1 => Some dim1
      | None, None => None
      end ∧
    (∀ dim0 dim1, reverse values0 !! j = Some dim0 → reverse values1 !! j = Some dim1 →
       compatible EqualConstInt EqualCheck dim0 dim1 = true).
Proof.
  intros H0 H1. rewrite (InferShape_values lhs rhs a0 values0 a1 values1 s H0 H1).
  destruct (aligned_dims _ _ _ _) as [common|] eqn:Hc; [| discriminate].
  intros [= <- <- <-] j. rewrite reverse_involutive.
  apply aligned_dims_Some in Hc as [Hlen Hnth]. rewrite !length_reverse in Hlen.
  split; [| intros d0 d1 Hd0 Hd1; by apply (Hnth j)].
  destruct (decide (j < length values0 `min` length values1)) as [Hj|Hj].
  - rewrite lookup_app_l by lia.
    destruct (lookup_lt_is_Some_2 (reverse values0) j) as [d0 Hd0];
      [rewrite length_reverse; lia |].
    destruct (lookup_lt_is_Some_2 (reverse values1) j) as [d1 Hd1];
      [rewrite length_reverse; lia |].
    rewrite Hd0, Hd1. by apply Hnth.
  - rewrite lookup_app_r by lia. rewrite lookup_drop, Hlen.
    replace (length values0 `min` length values1 + (j - length values0 `min` length values1))
      with j by lia.
    case_bool_decide.
    + rewrite (lookup_ge_None_2 (reverse values1)) by (rewrite length_reverse; lia).
      by destruct (reverse values0 !! j).
    + rewrite (lookup_ge_None_2 (reverse values0)) by (rewrite length_reverse; lia).
      by destruct (reverse values1 !! j).
Qed.

(** X26: for two shape expressions, [InferShapeBinaryBroadcast] defers
    the shape to the runtime exactly when some pair of aligned dimensions
    is not compatible. *)
Theorem InferShape_deferred lhs rhs a0 values0 a1 values1 s :
  shape_of lhs = ShapeExpr a0 values0 →
  shape_of rhs = ShapeExpr a1 values1 →
  (∃ a s', InferShapeBinaryBroadcast shape_of EqualConstInt EqualCheck [lhs; rhs] s
             = Inferred (Call a (NotOp "vm.binary_broadcast_shape_infer")
                           [lhs; rhs] NoAttrs, s')) ↔
  (∃ j dim0 dim1, reverse values0 !! j = Some dim0 ∧ reverse values1 !! j = Some dim1 ∧
     compatible EqualConstInt EqualCheck dim0 dim1 = false).
Proof.
  intros H0 H1. rewrite (InferShape_values lhs rhs a0 values0 a1 values1 s H0 H1).
  destruct (aligned_dims _ _ _ _) as [common|] eqn:Hc.
  - split; [intros (? & ? & ?); discriminate |].
    intros (j & d0 & d1 & Hd0 & Hd1 & Hn).
    apply aligned_dims_Some in Hc as [_ Hnth].
    destruct (Hnth j d0 d1 Hd0 Hd1). congruence.
  - split; [| by eexists _, _]. intros _. by apply aligned_dims_None.
Qed.

(** X27: broadcasting against a scalar gives the shape of the other
    operand, whatever its dimensions are: no dimension is compared. *)
Theorem InferShape_scalar lhs rhs a0 a1 values s :
  (shape_of lhs = ShapeExpr a0 [] ∧ shape_of rhs = ShapeExpr a1 values) ∨
  (shape_of lhs = ShapeExpr a0 values ∧ shape_of rhs = ShapeExpr a1 []) →
  InferShapeBinaryBroadcast shape_of EqualConstInt EqualCheck [lhs; rhs] s
    = Inferred (ShapeExpr (next_addr s) values, (alloc s).2).
Proof.
  intros [[H0 H1] | [H0 H1]];
    rewrite (InferShape_values lhs rhs _ _ _ _ s H0 H1).
  - change (reverse []) with (@nil PrimExpr). simpl.
    by rewrite drop_0, reverse_involutive.
  - change (reverse []) with (@nil PrimExpr).
    assert (aligned_dims EqualConstInt EqualCheck (reverse values) [] = Some []) as ->
      by by destruct (reverse values).
    simpl. rewrite Nat.min_0_r, drop_0. case_bool_decide.
    + by rewrite reverse_involutive.
    + destruct values; [done | simpl in *; lia].
Qed.

(** On two arguments [InferTypeBinaryBroadcast] makes the same checks in
    either order. *)
Lemma InferType_exchange lhs rhs :
  InferTypeBinaryBroadcast checked_type_of IsUnknownDtype IsUnknownNdim [lhs; rhs] =
  InferTypeBinaryBroadcast checked_type_of IsUnknownDtype IsUnknownNdim [rhs; lhs].
Proof.
  unfold InferTypeBinaryBroadcast.
  destruct (checked_type_of lhs) as [n0 d0| | |], (checked_type_of rhs) as [n1 d1| | |];
    try reflexivity.
  rewrite (orb_comm (IsUnknownDtype d1)), (orb_comm (IsUnknownNdim n1)), (Z.max_comm n1).
  destruct (IsUnknownDtype d0 || IsUnknownDtype d1); [reflexivity |].
  repeat case_bool_decide; simpl; congruence.
Qed.

(** X28: the type [InferTypeBinaryBroadcast] returns does not depend on the
    order of the two arguments: it returns a type for one order exactly when
    it does for the other, and then the same type; it raises a diagnostic
    for one order exactly when it does for the other.  Nothing is said of
    the diagnostic itself: its text prints the two types in argument
    order. *)
Theorem InferType_symmetric lhs rhs :
  (∀ t, InferTypeBinaryBroadcast checked_type_of IsUnknownDtype IsUnknownNdim [lhs; rhs]
          = Inferred t ↔
        InferTypeBinaryBroadcast checked_type_of IsUnknownDtype IsUnknownNdim [rhs; lhs]
          = Inferred t) ∧
  ((∃ d, InferTypeBinaryBroadcast checked_type_of IsUnknownDtype IsUnknownNdim [lhs; rhs]
           = EmitFatal d) ↔
   (∃ d, InferTypeBinaryBroadcast checked_type_of IsUnknownDtype IsUnknownNdim [rhs; lhs]
           = EmitFatal d)) ∧
  (∀ e, InferTypeBinaryBroadcast checked_type_of IsUnknownDtype IsUnknownNdim [lhs; rhs]
          ≠ Aborted e).
Proof.
  rewrite (InferType_exchange lhs rhs). split; [done |]. split; [done |].
  intros e. unfold InferTypeBinaryBroadcast.
  destruct (checked_type_of rhs) as [n0 d0| | |], (checked_type_of lhs) as [n1 d1| | |];
    try discriminate.
  destruct (IsUnknownDtype d0 || IsUnknownDtype d1); [discriminate |].
  case_bool_decide; discriminate.
Qed.

(** X29: [InferTypeLess] is stricter than [InferTypeBinaryBroadcast].
    When it returns, its result is a [bool] tensor, and
    [InferTypeBinaryBroadcast] returns a tensor type of the same [ndim] on
    the same arguments. *)
Theorem InferTypeLess_broadcast args t :
  InferTypeLess checked_type_of IsUnknownNdim args = Inferred t →
  ∃ ndim dtype,
    t = DynTensorType ndim Bool ∧
    InferTypeBinaryBroadcast checked_type_of IsUnknownDtype IsUnknownNdim args
      = Inferred (DynTensorType ndim dtype).
Proof.
  unfold InferTypeLess, InferTypeBinaryBroadcast.
  destruct args as [|lhs [|rhs [|]]]; try discriminate.
  destruct (checked_type_of lhs) as [n0 d0| | |], (checked_type_of rhs) as [n1 d1| | |];
    try discriminate.
  case_bool_decide; [discriminate |]. intros [= <-].
  destruct (IsUnknownDtype d0 || IsUnknownDtype d1); simpl; by eexists _, _.
Qed.

(** X30: the shape and the type inferred for a broadcast agree on the
    rank.  When the [ndim] of each operand type is known and is the rank of
    its shape expression, the inferred [ndim] is the larger rank, which is
    the rank of the inferred [ShapeExpr]. *)
Theorem InferShape_InferType_rank lhs rhs a0 values0 a1 values1 ndim0 dtype0 ndim1 dtype1
    r s s' t :
  shape_of lhs = ShapeExpr a0 values0 → shape_of rhs = ShapeExpr a1 values1 →
  checked_type_of lhs = DynTensorType ndim0 dtype0 →
  checked_type_of rhs = DynTensorType ndim1 dtype1 →
  ndim0 = Z.of_nat (length values0) → ndim1 = Z.of_nat (length values1) →
  IsUnknownNdim ndim0 = false → IsUnknownNdim ndim1 = false →
  InferShapeBinaryBroadcast shape_of EqualConstInt EqualCheck [lhs; rhs] s
    = Inferred (r, s') →
  InferTypeBinaryBroadcast checked_type_of IsUnknownDtype IsUnknownNdim [lhs; rhs]
    = Inferred t →
  ∃ dtype, t = DynTensorType (Z.of_nat (length values0 `max` length values1)) dtype ∧
    ∀ a output_shape, r = ShapeExpr a output_shape →
      t = DynTensorType (Z.of_nat (length output_shape)) dtype.
Proof.
  intros H0 H1 Ht0 Ht1 -> -> Hu0 Hu1 Hs Ht.
  unfold InferTypeBinaryBroadcast in Ht. rewrite Ht0, Ht1, Hu0, Hu1 in Ht. simpl in Ht.
  destruct (if IsUnknownDtype dtype0 || IsUnknownDtype dtype1 then _ else _)
    as [dtype| |]; try discriminate.
  simpl in Ht. injection Ht as <-. exists dtype.
  rewrite <- Nat2Z.inj_max. split; [done |]. intros a out ->.
  rewrite (InferShape_values lhs rhs a0 values0 a1 values1 s H0 H1) in Hs.
  destruct (aligned_dims _ _ _ _) as [common|] eqn:Hc; [| discriminate].
  injection Hs as <- <- _. by rewrite broadcast_rank.
Qed.

End BroadcastProperties.

(** ** The statements on concrete programs *)

Module Witnesses.
Import Examples.

Lemma reverse_walk_bindings_witness :
  reverse_mode gradients constant_region at_target = Fatal ErrUnsupportedBinding ∧
  ∃ var value, VarBinding var value ∈ constant_region ∧ supported_value value = false.
Proof.
  split; [reflexivity |].
  apply (proj2 (proj2 (reverse_walk_bindings gradients)) constant_region at_target).
  reflexivity.
Defined.

Lemma ReverseVisit_adjoint_var_witness :
  ReverseVisit gradients lv1 (Call 13 (Op "relax.sum") [EVar lv0] NoAttrs) at_target
    = Ok after_lv1 ∧
  ∃ adjoint,
    adjoint_var_map after_lv1 !! var_addr lv1 = Some adjoint ∧
    var_is_dataflow adjoint = true ∧
    var_name adjoint = var_name lv1 +:+ "_adjoint" ∧
    var_shape adjoint = shape at_target lv1 ∧
    var_type adjoint = checked_type at_target lv1.
Proof.
  split; [vm_compute; reflexivity |].
  apply (ReverseVisit_adjoint_var gradients lv1
           (Call 13 (Op "relax.sum") [EVar lv0] NoAttrs) at_target after_lv1);
    vm_compute; reflexivity.
Defined.

(** C4 as stated fails: in the transformation of [main], [lv1] is an output
    variable and its adjoint variable is an intermediate one. *)
Lemma output_var_gets_dataflow_adjoint :
  ∃ adjoint,
    FuncTransform gradients clone normalize [x; y] main mutator0 = Ok main_xy ∧
    var_is_dataflow lv1 = false ∧
    adjoint_var_map main_xy.2 !! var_addr lv1 = Some adjoint ∧
    var_is_dataflow adjoint = true.
Proof.
  eexists. split; [vm_compute; reflexivity |].
  split; [reflexivity |]. split; vm_compute; reflexivity.
Qed.


Lemma FuncTransform_return_witness :
  FuncTransform gradients clone normalize [y; x] main mutator0 = Ok main_yx ∧
  ∃ blocks ret block a1 a2 adjoints,
    (forward_clone clone main mutator0).1.2 = SeqExpr blocks ret ∧
    body main_yx.1
      = normalize (SeqExpr [block] (Tuple a2 [ret; Tuple a1 (EVar <$> adjoints)])) ∧
    Forall2 (fun new_param adjoint =>
               adjoint_var_map main_yx.2 !! var_addr new_param = Some adjoint)
      (selected_params [y; x] (zip (params main) (params main_yx.1))) adjoints.
Proof.
  split; [vm_compute; reflexivity |].
  apply (FuncTransform_return gradients clone normalize [y; x] main mutator0
           main_yx.1 main_yx.2).
  vm_compute; reflexivity.
Defined.

(** C1 as stated fails: with the requires-gradient list [y; x] the adjoint
    tuple of [main] is (x_adjoint, y_adjoint): its first element is the
    adjoint of [x], the second element of the list. *)
Lemma adjoints_in_parameter_order :
  ∃ block a1 a2 xa ya,
    FuncTransform gradients clone normalize [y; x] main mutator0 = Ok main_yx ∧
    body main_yx.1
      = SeqExpr [block] (Tuple a2 [EVar lv1; Tuple a1 [EVar xa; EVar ya]]) ∧
    var_name xa = "x_adjoint" ∧ var_name ya = "y_adjoint".
Proof.
  eexists _, _, _, _, _. split; [vm_compute; reflexivity |].
  split; [vm_compute; reflexivity |]. split; reflexivity.
Qed.

Lemma SimpleAD_aborts_witness :
  (* the function is not found *)
  (∃ e, SimpleAD gradients clone normalize 16 gv_other [] heap1 = Fatal e) ∧
  (* [lv0] is not a parameter *)
  (∃ e, SimpleAD gradients clone normalize 16 gv_main [lv0] heap1 = Fatal e) ∧
  (* the body is no sequence of regions *)
  (∃ e, SimpleAD gradients clone normalize 16 gv_main [] (heap_of main_expr) = Fatal e) ∧
  (* two regions *)
  (∃ e, SimpleAD gradients clone normalize 16 gv_main [] (heap_of main_two_regions)
          = Fatal e) ∧
  (* the terminator is a tuple *)
  (∃ e, SimpleAD gradients clone normalize 16 gv_main [] (heap_of main_tuple_ret)
          = Fatal e) ∧
  (* the target [x] has the shape (5, 5) *)
  (∃ e, SimpleAD gradients clone normalize 16 gv_main [] (heap_of main_x) = Fatal e).
Proof.
  repeat split.
  - apply (SimpleAD_aborts gradients clone normalize 16 gv_other [] heap1 module0);
      [reflexivity |].
    left. intros [F HF]. discriminate.
  - apply (SimpleAD_aborts gradients clone normalize 16 gv_main [lv0] heap1 module0);
      [reflexivity |].
    right. exists main. split; [reflexivity |]. left.
    exists lv0. split; [set_solver |].
    intros p Hp. apply list_elem_of_In in Hp. simpl in Hp.
    destruct Hp as [<- | [<- | []]]; discriminate.
  - apply (SimpleAD_aborts gradients clone normalize 16 gv_main [] (heap_of main_expr)
             (module_of main_expr)); [reflexivity |].
    right. exists main_expr. split; [reflexivity |]. right. left.
    intros blocks ret. discriminate.
  - apply (SimpleAD_aborts gradients clone normalize 16 gv_main []
             (heap_of main_two_regions) (module_of main_two_regions)); [reflexivity |].
    right. exists main_two_regions. split; [reflexivity |]. do 3 right.
    split; [vm_compute; repeat split |].
    apply regions_not_one. simpl. lia.
  - apply (SimpleAD_aborts gradients clone normalize 16 gv_main []
             (heap_of main_tuple_ret) (module_of main_tuple_ret)); [reflexivity |].
    right. exists main_tuple_ret. split; [reflexivity |]. do 3 right.
    split; [vm_compute; repeat split |].
    apply terminator_not_var. intros v. discriminate.
  - apply (SimpleAD_aborts gradients clone normalize 16 gv_main []
             (heap_of main_x) (module_of main_x)); [reflexivity |].
    right. exists main_x. split; [reflexivity |]. do 3 right.
    split; [vm_compute; repeat split |].
    apply target_not_scalar. reflexivity.
Defined.

(** C8 as stated fails: [main_two_regions] has two regions, and with a
    cloner that leaves out the regions without bindings the pass returns:
    the number of regions is checked on the reproduced body. *)
Lemma two_regions_pass :
  (∃ region0 region1 ret, body main_two_regions = SeqExpr [region0; region1] ret) ∧
  ∃ r, SimpleAD gradients clone_nonempty normalize 16 gv_main [x; y]
         (heap_of main_two_regions) = Ok r.
Proof.
  split; [by eexists _, _, _ |]. eexists. vm_compute. reflexivity.
Qed.

Lemma BindAndEmit_interned_witness :
  adjoint_binding_ bound_state !! expr_addr ones
    = Some lv1_adjoint ∧
  BindAndEmit x_adjoint ones bound_state =
    set_emitted
      (emitted bound_state ++
         [(ByEmitOutput, VarBinding x_adjoint (EVar lv1_adjoint))])
      bound_state.
Proof.
  split; [reflexivity |].
  apply (BindAndEmit_interned x_adjoint ones lv1_adjoint).
  reflexivity.
Defined.

(** C2 as stated fails: with [ones] interned to [lv1_adjoint], binding
    [x_adjoint] to [ones] does emit a binding into the region. *)
Lemma BindAndEmit_interned_emits :
  adjoint_binding_ bound_state !! expr_addr ones
    = Some lv1_adjoint ∧
  emitted (BindAndEmit x_adjoint ones bound_state)
    ≠ emitted bound_state.
Proof. split; [reflexivity | discriminate]. Qed.

(** C6 as stated fails: a tuple literal added to an expression that is no
    tuple literal is a fatal error, not an [add] call. *)
Lemma DoAdd_tuple_with_leaf :
  DoAdd (Tuple 1 []) (Constant 2) (new_mutator heap0)
    = Fatal ErrTypeNotMatch ∧
  DoAdd_claimed (Tuple 1 []) (Constant 2) (new_mutator heap0)
    = Ok (Call 20 add_op [Tuple 1 []; Constant 2] NoAttrs,
          set_next_addr 21 (new_mutator heap0)).
Proof. split; reflexivity. Qed.


(** The concrete collaborators keep their contracts. *)
Lemma clone_keeps_contract remap b n : n ≤ (clone remap b n).2.
Proof. by destruct b. Qed.

Lemma clone_allocates_forward : allocates_forward clone.
Proof. intros remap b n. by destruct b. Qed.

Lemma gradients_keep_contract name grad call adjoint_var n :
  gradients name = Some grad →
  n ≤ (grad call adjoint_var n).2 ∧
  Forall (owned (var_addr adjoint_var `min` n) (grad call adjoint_var n).2)
    (grad call adjoint_var n).1.
Proof.
  unfold gradients. intros Hg.
  destruct (String.eqb name "relax.sum"); [| destruct (String.eqb name "relax.add")];
    try discriminate; injection Hg as <-.
  - destruct call as [| | |c op [|x0 [|]] at0| | |]; simpl;
      (split; [lia |]); repeat apply Forall_cons_2; try apply Forall_nil_2;
      apply owned_leaf; simpl; try done; lia.
  - destruct call as [| | |c op [|x0 [|y0 [|]]] at0| | |]; simpl;
      (split; [lia |]); repeat apply Forall_cons_2; try apply Forall_nil_2;
      apply owned_leaf; simpl; try done; lia.
Qed.

Lemma gradients_partials_fresh : partials_fresh gradients.
Proof.
  intros name grad call adjoint_var n Hg Hlt.
  destruct (gradients_keep_contract name grad call adjoint_var n Hg) as [Hle Hall].
  split; [done |]. eapply Forall_impl; [exact Hall |].
  intros e. apply owned_mono; lia.
Qed.

(** A gradient function may hand back the adjoint variable it was given. *)
Example adjoint_variable_is_fresh :
  partials_fresh (fun _ => Some (fun _ grad n => ([EVar grad; EVar grad], n))).
Proof.
  intros name grad call adjoint_var n [= <-] Hlt. simpl. split; [done |].
  repeat constructor; simpl; lia.
Qed.

Lemma heap1_wf : heap_wf heap1.
Proof.
  intros m node Hm. simpl in Hm. apply lookup_singleton_Some in Hm as [<- <-].
  split; [simpl; lia |]. split; [simpl; lia |].
  intros k [f Hk]. simpl in Hk. apply lookup_singleton_Some in Hk as [<- _].
  simpl. lia.
Qed.

Lemma UpdateExprMap_stores_witness :
  (UpdateExprMap (EVar x) ones bound_state
     = Ok (set_adjoint_expr x (EVar lv1_adjoint) bound_state) ∧
   match adjoint_expr_map bound_state !! var_addr x with
   | None =>
       adjoint_expr_map (set_adjoint_expr x (EVar lv1_adjoint) bound_state) !! var_addr x
         = Some (interned bound_state ones)
   | Some current =>
       ∃ updated s1,
         DoAdd current ones bound_state = Ok (updated, s1) ∧
         adjoint_expr_map (set_adjoint_expr x (EVar lv1_adjoint) bound_state) !! var_addr x
           = Some updated
   end) ∧
  (UpdateExprMap (TupleGetItem 24 (EVar a) 0) ones mutator2 = Ok after_projection ∧
   ∃ a0 origin_fields a' fields',
     match adjoint_expr_map mutator2 !! var_addr a with
     | Some current => current = Tuple a0 origin_fields
     | None =>
         mirrors (zeros_tracker_ after_projection) (shape mutator2 a)
           (Tuple a0 origin_fields)
     end ∧
     adjoint_expr_map after_projection !! var_addr a = Some (Tuple a' fields') ∧
     length fields' = length origin_fields ∧
     ∀ j, Z.of_nat j ≠ 0%Z → fields' !! j = origin_fields !! j).
Proof.
  split; (split; [vm_compute; reflexivity |]).
  - apply (proj1 UpdateExprMap_stores x ones bound_state
             (set_adjoint_expr x (EVar lv1_adjoint) bound_state)).
    reflexivity.
  - apply (proj2 UpdateExprMap_stores 24 a 0%Z ones mutator2 after_projection).
    vm_compute; reflexivity.
Defined.

(** C3: the variable branch of [UpdateExprMap] breaks the invariant, and the
    projection branch then stops on the assertion that states it.  In the
    transformation of [main_alias] the adjoint expression of the tuple-typed
    parameter [t] is, after the update for [a = t], the variable
    [a_adjoint], not a tuple literal.  In [main_shared] a projection of [t]
    is met after that update: the pass aborts, "adjoint of var is not
    tuple", on a program within its preconditions. *)
Theorem tuple_adjoint_variable_aborts :
  var_type t = TupleType [DynTensorType 2 f32; DynTensorType 2 f32] ∧
  (∃ new_t a_adjoint,
     FuncTransform gradients clone normalize [] main_alias mutator2 = Ok main_alias_all ∧
     params main_alias_all.1 = [new_t] ∧
     var_type new_t = var_type t ∧
     adjoint_expr_map main_alias_all.2 !! var_addr new_t = Some (EVar a_adjoint) ∧
     is_tuple_literal (EVar a_adjoint) = false) ∧
  FuncTransform gradients clone normalize [] main_shared mutator2
    = Fatal ErrAdjointNotTuple ∧
  FuncTransform gradients clone normalize [t] main_shared mutator2
    = Fatal ErrAdjointNotTuple.
Proof.
  split; [reflexivity |]. split; [| split; vm_compute; reflexivity].
  eexists _, _. split; [vm_compute; reflexivity |].
  split; [vm_compute; reflexivity |].
  split; [reflexivity |]. split; [vm_compute; reflexivity | reflexivity].
Qed.

Lemma FuncTransform_default_adjoint_witness :
  FuncTransform gradients clone normalize [x; y] main_unused mutator0
    = Ok main_unused_xy ∧
  ∃ block ret,
    body main_unused_xy.1 = normalize (SeqExpr [block] ret) ∧
    ∀ param new_param,
      (param, new_param) ∈ zip (params main_unused) (params main_unused_xy.1) →
      requires_grad [x; y] param = true →
      adjoint_expr_map main_unused_xy.2 !! var_addr new_param = None →
      ∃ adjoint a ndim dtype,
        adjoint_var_map main_unused_xy.2 !! var_addr new_param = Some adjoint ∧
        checked_type main_unused_xy.2 new_param = DynTensorType ndim dtype ∧
        VarBinding adjoint
          (Call a zeros_op [shape main_unused_xy.2 new_param] (InitAttrs dtype))
          ∈ bindings block.
Proof.
  split; [vm_compute; reflexivity |].
  apply (FuncTransform_default_adjoint gradients clone normalize
           clone_allocates_forward gradients_partials_fresh [x; y] main_unused mutator0
           main_unused_xy.1 main_unused_xy.2);
    [reflexivity | reflexivity | reflexivity | vm_compute; reflexivity].
Defined.

(** The unused input [y] of [main_unused] gets [y_adjoint = zeros((5, 5), f32)]. *)
Example unused_input_gets_zeros :
  ∃ y_adjoint a,
    var_name y_adjoint = "y_adjoint" ∧
    (ByEmitOutput, VarBinding y_adjoint (Call a zeros_op [T 5] (InitAttrs f32)))
      ∈ emitted main_unused_xy.2.
Proof.
  eexists _, _. split; [| vm_compute; do 3 right; left]. reflexivity.
Qed.

(** C5: a tuple-typed input that the target does not depend on gets no
    default adjoint.  In [main_t] the input [t] is a pair of tensors and
    the target depends on [x] only: the default branch downcasts the type
    of [t] to a tensor type and the pass aborts, with the requires-gradient
    list [t] and with the empty list alike.  The leaf-by-leaf zero of [t]
    is what [BuildEmptyNestedTupleExpr], which the projection branch of
    [UpdateExprMap] calls, builds from the shape and the type of [t]. *)
Theorem unused_tuple_input_aborts :
  var_type t = TupleType [DynTensorType 2 f32; DynTensorType 2 f32] ∧
  FuncTransform gradients clone normalize [t] main_t mutator0 = Fatal ErrDowncast ∧
  FuncTransform gradients clone normalize [] main_t mutator0 = Fatal ErrDowncast ∧
  ∃ a0 a1 a2 s',
    BuildEmptyNestedTupleExpr (var_shape t) [DynTensorType 2 f32; DynTensorType 2 f32]
      mutator0
      = Ok (Tuple a0 [Call a1 zeros_op [T 14] (InitAttrs f32);
                      Call a2 zeros_op [T 15] (InitAttrs f32)], s') ∧
    a1 ∈ zeros_tracker_ s' ∧ a2 ∈ zeros_tracker_ s'.
Proof.
  split; [reflexivity |]. split; [vm_compute; reflexivity |].
  split; [vm_compute; reflexivity |].
  eexists _, _, _, _. split; [vm_compute; reflexivity |].
  split; vm_compute; set_solver.
Qed.

Lemma heap_of_wf F : heap_wf (heap_of F).
Proof.
  intros m node Hm. simpl in Hm. apply lookup_singleton_Some in Hm as [<- <-].
  split; [simpl; lia |]. split; [simpl; lia |].
  intros k [f Hk]. simpl in Hk. apply lookup_singleton_Some in Hk as [<- _].
  simpl. lia.
Qed.

Lemma SimpleAD_pass_frame_witness :
  (* an invocation that returns *)
  (run_on_main = Returned pass_on_main ∧
   forget run_on_main = SimpleAD_pass gradients clone normalize gv_main [x; y] 16 heap1 ∧
   (∃ node', heap_modules (end_heap run_on_main) !! 16 = Some node' ∧
             functions node' = functions module0) ∧
   (∀ m node0, m ≠ 16 → heap_modules heap1 !! m = Some node0 →
      heap_modules (end_heap run_on_main) !! m = Some node0) ∧
   (∀ k, k < heap_next heap1 →
      heap_checked_type_ (end_heap run_on_main) !! k = heap_checked_type_ heap1 !! k ∧
      heap_shape_ (end_heap run_on_main) !! k = heap_shape_ heap1 !! k) ∧
   ∀ m' h', run_on_main = Returned (m', h') →
     heap_modules h' !! 16 = Some module0 ∧
     (∀ m, m ≠ m' → heap_modules h' !! m = heap_modules heap1 !! m) ∧
     heap_modules heap1 !! m' = None ∧
     ∃ adjoint_var f_after,
       gv_name_hint adjoint_var = gv_name_hint gv_main +:+ "_adjoint" ∧
       functions module0 !! gv_addr adjoint_var = None ∧
       heap_modules h' !! m'
         = Some (mkModule 1
                   (<[gv_addr adjoint_var := (adjoint_var, RelaxFunction f_after)]>
                      (functions module0)))) ∧
  (* an invocation that ends in a fatal error, after it has bound adjoints *)
  ((∃ h_end, run_on_main_t = Raised ErrDowncast h_end ∧
             heap_next (heap_of main_t) < heap_next h_end ∧
             heap_checked_type_ h_end ≠ heap_checked_type_ (heap_of main_t)) ∧
   (∃ node', heap_modules (end_heap run_on_main_t) !! 16 = Some node' ∧
             functions node' = functions (module_of main_t)) ∧
   (∀ m node0, m ≠ 16 → heap_modules (heap_of main_t) !! m = Some node0 →
      heap_modules (end_heap run_on_main_t) !! m = Some node0) ∧
   ∀ k, k < heap_next (heap_of main_t) →
     heap_checked_type_ (end_heap run_on_main_t) !! k
       = heap_checked_type_ (heap_of main_t) !! k ∧
     heap_shape_ (end_heap run_on_main_t) !! k = heap_shape_ (heap_of main_t) !! k).
Proof.
  split.
  - split; [vm_compute; reflexivity |].
    destruct (SimpleAD_pass_frame gradients clone normalize gv_main [x; y] 16 heap1
                module0 heap1_wf eq_refl) as (H1 & H2 & H3 & H4 & H5).
    split; [exact H1 |]. split; [exact H2 |]. split; [exact H3 |].
    split; [exact (H4 clone_allocates_forward gradients_partials_fresh) | exact H5].
  - split.
    { eexists. split; [vm_compute; reflexivity |]. split; [simpl; lia |].
      intros Heq. apply (f_equal (fun m => m !! 30)) in Heq. vm_compute in Heq.
      discriminate. }
    destruct (SimpleAD_pass_frame gradients clone normalize gv_main [t] 16
                (heap_of main_t) (module_of main_t) (heap_of_wf main_t) eq_refl)
      as (_ & H2 & H3 & H4 & _).
    split; [exact H2 |]. split; [exact H3 |].
    exact (H4 clone_allocates_forward gradients_partials_fresh).
Defined.

(** C7 as stated fails: a node of the input module can be written to.  With
    a registry whose gradient of [relax.multiply] hands back the factors
    themselves, the pass binds the adjoint variable of [lv2] to the variable
    [lv0] of [main_product], a node of the input module, and writes the
    shape of [lv2] into its [shape_] field. *)
Lemma forward_node_is_written :
  ∃ m' h',
    SimpleAD_pass gradients_product clone normalize gv_main [] 16 heap_product
      = Ok (m', h') ∧
    var_addr lv0 < heap_next heap_product ∧
    heap_shape_ heap_product !! var_addr lv0 = None ∧
    var_shape lv0 = T 8 ∧
    heap_shape_ h' !! var_addr lv0 = Some (T 62) ∧
    heap_shape_ h' !! var_addr lv0 ≠ heap_shape_ heap_product !! var_addr lv0.
Proof.
  eexists _, _. split; [vm_compute; reflexivity |].
  split; [simpl; lia |]. split; [reflexivity |]. split; [reflexivity |].
  split; [vm_compute; reflexivity |]. vm_compute. discriminate.
Qed.

Lemma SimpleAD_requires_grad_set_witness :
  (∀ a, a ∈ var_addr <$> [x; y] ↔ a ∈ var_addr <$> [y; x; x]) ∧
  (∀ r, SimpleAD gradients clone normalize 16 gv_main [x; y] heap1 = Ok r ↔
        SimpleAD gradients clone normalize 16 gv_main [y; x; x] heap1 = Ok r) ∧
  is_fatal (SimpleAD gradients clone normalize 16 gv_main [x; y] heap1) =
  is_fatal (SimpleAD gradients clone normalize 16 gv_main [y; x; x] heap1).
Proof.
  assert (∀ a, a ∈ var_addr <$> [x; y] ↔ a ∈ var_addr <$> [y; x; x]) as H.
  { intros a. simpl. rewrite !elem_of_cons. split; intros Ha; destruct_or!; auto.
    all: by apply not_elem_of_nil in Ha. }
  split; [exact H |].
  exact (SimpleAD_requires_grad_set gradients clone normalize 16 gv_main
           [x; y] [y; x; x] heap1 H).
Defined.

Lemma SimpleAD_empty_all_witness :
  heap_modules heap1 !! 16 = Some module0 ∧
  Lookup module0 gv_main = Ok (RelaxFunction main) ∧
  SimpleAD gradients clone normalize 16 gv_main [] heap1 =
  SimpleAD gradients clone normalize 16 gv_main [x; y] heap1.
Proof.
  split; [reflexivity |]. split; [reflexivity |].
  apply (SimpleAD_empty_all gradients clone normalize 16 gv_main heap1 module0 main);
    reflexivity.
Defined.

Lemma reverse_mode_unreached_witness :
  ∃ s', reverse_mode gradients
          [VarBinding lv0 (Call 12 add_op [EVar x; EVar y] NoAttrs);
           VarBinding lv1 (Constant 13)] x_is_target = Ok s' ∧
    emitted s' = emitted x_is_target ∧
    adjoint_expr_map s' = adjoint_expr_map x_is_target ∧
    adjoint_binding_ s' = adjoint_binding_ x_is_target ∧
    checked_type_ s' = checked_type_ x_is_target ∧
    shape_ s' = shape_ x_is_target.
Proof.
  apply (reverse_mode_unreached gradients).
  intros var value Hin. rewrite !elem_of_cons in Hin.
  destruct Hin as [[= -> ->] | [[= -> ->] | Hin]];
    [split; [reflexivity | discriminate] .. | by apply not_elem_of_nil in Hin].
Defined.

Lemma FuncTransform_target_not_bound_witness :
  FuncTransform gradients clone normalize [w] main_id mutator0 = Ok main_id_w ∧
  adjoint_expr_map main_id_w.2 = ∅ ∧
  ∃ block' ret,
    body main_id_w.1 = normalize (SeqExpr [block'] ret) ∧
    ∀ param new_param,
      (param, new_param) ∈ zip (params main_id) (params main_id_w.1) →
      requires_grad [w] param = true →
      ∃ adjoint a ndim dtype,
        adjoint_var_map main_id_w.2 !! var_addr new_param = Some adjoint ∧
        checked_type main_id_w.2 new_param = DynTensorType ndim dtype ∧
        VarBinding adjoint (Call a zeros_op [shape main_id_w.2 new_param] (InitAttrs dtype))
          ∈ bindings block'.
Proof.
  split; [vm_compute; reflexivity |].
  apply (FuncTransform_target_not_bound gradients clone normalize
           clone_keeps_contract gradients_keep_contract
           [w] main_id mutator0 main_id_w.1 main_id_w.2
           (mkBlock true []) (mkVar 20 false (mkId 0 "w") (Sc 2) (DynTensorType 0 f32) None));
    [reflexivity | reflexivity | reflexivity | vm_compute; reflexivity | | vm_compute; reflexivity].
  intros var value Hin. by apply not_elem_of_nil in Hin.
Defined.

(** The adjoint of the returned parameter is [zeros], not [ones]. *)
Example returned_parameter_gets_zeros :
  ∃ block a1 a2 w' w_adjoint a,
    FuncTransform gradients clone normalize [w] main_id mutator0 = Ok main_id_w ∧
    body main_id_w.1 = SeqExpr [block] (Tuple a2 [EVar w'; Tuple a1 [EVar w_adjoint]]) ∧
    bindings block = [VarBinding w_adjoint (Call a zeros_op [Sc 2] (InitAttrs f32))].
Proof.
  eexists _, _, _, _, _, _. split; [vm_compute; reflexivity |].
  split; vm_compute; reflexivity.
Qed.

Lemma BindAndEmit_once_witness :
  emitted (BindAndEmit x_adjoint ones
             (BindAndEmit lv1_adjoint ones (new_mutator (mkHeap 29 ∅ ∅ ∅)))) =
    [(ByEmit, VarBinding lv1_adjoint ones);
     (ByEmitOutput, VarBinding x_adjoint (EVar lv1_adjoint))].
Proof.
  apply (BindAndEmit_once lv1_adjoint x_adjoint ones (new_mutator (mkHeap 29 ∅ ∅ ∅))).
  reflexivity.
Defined.

Lemma DoAddInTuple_out_of_range_witness :
  DoAddInTuple [EVar x; EVar y] 2 ones mutator0
    = Ok (Tuple 20 [EVar x; EVar y], (alloc mutator0).2) ∧
  DoAddInTuple [EVar x; EVar y] (-1) ones mutator0
    = Ok (Tuple 20 [EVar x; EVar y], (alloc mutator0).2).
Proof.
  split.
  - apply (DoAddInTuple_out_of_range [EVar x; EVar y] 2 ones mutator0). right. simpl. lia.
  - apply (DoAddInTuple_out_of_range [EVar x; EVar y] (-1) ones mutator0). left. lia.
Defined.

Lemma DoAddInTuple_in_range_witness :
  DoAddInTuple [EVar x; EVar y] 1 ones mutator0
    = Ok (Tuple 21 [EVar x; Call 20 add_op [EVar y; ones] NoAttrs],
          set_next_addr 22 mutator0).
Proof.
  exact (DoAddInTuple_in_range [EVar x; EVar y] 1 (EVar y) ones mutator0 eq_refl).
Defined.

Lemma UpdateExprMap_tuple_too_short_witness :
  ∃ e, UpdateExprMap pair_xy (Tuple 32 [ones]) mutator0 = Fatal e.
Proof.
  apply (UpdateExprMap_tuple_too_short 30 [EVar x; EVar y] 32 [ones] mutator0).
  simpl. lia.
Defined.

Lemma DoAdd_same_nesting_witness :
  ∃ r s', DoAdd pair_xy pair_yx mutator0 = Ok (r, s') ∧
          same_nesting pair_xy r ∧ same_nesting pair_yx r.
Proof.
  apply (DoAdd_same_nesting pair_xy pair_yx mutator0).
  apply same_nesting_tuple. repeat constructor.
Defined.

Lemma DoAdd_zero_identity_witness :
  (∃ r s', DoAdd zero_of_t.1 pair_xy zero_of_t.2 = Ok (r, s') ∧
           leaves r = leaves pair_xy ∧ same_nesting pair_xy r ∧
           alloc_only zero_of_t.2 s') ∧
  (∃ r s', DoAdd pair_xy zero_of_t.1 zero_of_t.2 = Ok (r, s') ∧
           leaves r = leaves pair_xy ∧ same_nesting pair_xy r ∧
           alloc_only zero_of_t.2 s').
Proof.
  apply (DoAdd_zero_identity (Tuple 5 [T 14; T 15]) zero_of_t.1 pair_xy zero_of_t.2).
  - apply (BuildEmpty_mirrors (Tuple 5 [T 14; T 15])
             [DynTensorType 2 f32; DynTensorType 2 f32] mutator2).
    vm_compute; reflexivity.
  - apply same_nesting_tuple. repeat constructor.
  - apply zero_free_tuple; [by vm_compute |].
    repeat apply Forall_cons_2; try apply Forall_nil_2;
      (apply zero_free_leaf; [reflexivity | by vm_compute]).
Defined.

Lemma FuncTransform_input_adjoints_witness :
  FuncTransform gradients clone normalize [x] main mutator0
    = Ok (result (FuncTransform gradients clone normalize [x] main mutator0)
            (main, mutator0)) ∧
  ∀ param new_param,
    (param, new_param)
      ∈ zip (params main)
          (params (result (FuncTransform gradients clone normalize [x] main mutator0)
                     (main, mutator0)).1) →
    ∃ adjoint,
      adjoint_var_map
        (result (FuncTransform gradients clone normalize [x] main mutator0)
           (main, mutator0)).2 !! var_addr new_param = Some adjoint ∧
      var_is_dataflow adjoint = negb (requires_grad [x] param) ∧
      var_name adjoint = var_name param +:+ "_adjoint".
Proof.
  split; [vm_compute; reflexivity |].
  apply (FuncTransform_input_adjoints gradients clone normalize [x] main mutator0);
    [reflexivity | vm_compute; reflexivity].
Defined.

Lemma SimpleAD_in_place_witness :
  SimpleAD gradients clone normalize 16 gv_main [x; y] heap1 = Ok in_place_on_main ∧
  in_place_on_main.1 = 16 ∧
  ∃ f_after,
    heap_modules in_place_on_main.2 =
      <[16 := mkModule 1
                (<[heap_next heap1 :=
                     (mkGlobalVar (heap_next heap1) (gv_name_hint gv_main +:+ "_adjoint"),
                      RelaxFunction f_after)]> (functions module0))]> (heap_modules heap1).
Proof.
  split; [vm_compute; reflexivity |].
  apply (SimpleAD_in_place gradients clone normalize 16 gv_main [x; y] heap1 module0
           in_place_on_main.1 in_place_on_main.2);
    [reflexivity | reflexivity | vm_compute; reflexivity].
Defined.

Lemma SimpleAD_pass_functions_witness :
  SimpleAD_pass gradients clone normalize gv_main [x; y] 16 heap1 = Ok pass_on_main ∧
  ∃ node' adjoint_var f_after types,
    heap_modules pass_on_main.2 !! pass_on_main.1 = Some node' ∧
    Lookup node' gv_main = Ok (RelaxFunction main) ∧
    Lookup node' adjoint_var = Ok (RelaxFunction f_after) ∧
    gv_name_hint adjoint_var = gv_name_hint gv_main +:+ "_adjoint" ∧
    attrs f_after = <[kGlobalSymbol := gv_name_hint gv_main +:+ "_adjoint"]> (attrs main) ∧
    length (params f_after) = length (params main) ∧
    ret_type f_after = TupleType [ret_type main; TupleType types] ∧
    length types = length (selected_params [x; y] (zip (params main) (params f_after))).
Proof.
  split; [vm_compute; reflexivity |].
  apply (SimpleAD_pass_functions gradients clone normalize gv_main [x; y] 16 heap1 module0
           main pass_on_main.1 pass_on_main.2);
    [apply heap1_wf | reflexivity | reflexivity | vm_compute; reflexivity].
Defined.

Lemma FuncTransform_forward_prefix_witness :
  FuncTransform gradients clone normalize [x; y] main mutator0 = Ok main_xy ∧
  ∃ block ret ret' forward_bindings adjoint_bindings,
    (forward_clone clone main mutator0).1.2 = SeqExpr [block] ret ∧
    body main_xy.1 = normalize (SeqExpr [EndBlock main_xy.2] ret') ∧
    emitted main_xy.2 = forward_bindings ++ adjoint_bindings ∧
    forward_bindings.*2 = bindings block ∧
    length adjoint_bindings ≤
      length (bindings block) +
      length (selected_params [x; y] (zip (params main) (params main_xy.1))) ∧
    Forall (defines_adjoint main_xy.2) adjoint_bindings.
Proof.
  split; [vm_compute; reflexivity |].
  apply (FuncTransform_forward_prefix gradients clone normalize [x; y] main mutator0
           main_xy.1 main_xy.2).
  vm_compute; reflexivity.
Defined.

Lemma ReverseVisit_seed_witness :
  ReverseVisit gradients lv1 (Call 13 (Op "relax.sum") [EVar lv0] NoAttrs) at_target
    = Ok after_lv1 ∧
  ∃ adjoint a ndim dtype,
    adjoint_var_map after_lv1 !! var_addr lv1 = Some adjoint ∧
    checked_type at_target lv1 = DynTensorType ndim dtype ∧
    emitted after_lv1 = emitted at_target ++
      [(emit_kind adjoint,
        VarBinding adjoint (Call a ones_op [shape at_target lv1] (InitAttrs dtype)))].
Proof.
  split; [vm_compute; reflexivity |].
  apply (ReverseVisit_seed gradients lv1 (Call 13 (Op "relax.sum") [EVar lv0] NoAttrs)
           at_target after_lv1);
    [| reflexivity | reflexivity | vm_compute; reflexivity].
  intros k u Hk. simpl in Hk. by rewrite lookup_empty in Hk.
Defined.

Lemma UpdateExprMap_first_projection_witness :
  UpdateExprMap (TupleGetItem 24 (EVar a) 0) ones mutator2 = Ok after_projection ∧
  ∃ a' fields,
    adjoint_expr_map after_projection !! var_addr a = Some (Tuple a' fields) ∧
    fields !! 0 = Some ones ∧
    length fields = 2.
Proof.
  split; [vm_compute; reflexivity |].
  apply (UpdateExprMap_first_projection 24 a 0 ones mutator2 after_projection
           5 [T 14; T 15] 14 [IntImm 5; IntImm 5]);
    [reflexivity | reflexivity | reflexivity | vm_compute; reflexivity].
Defined.

Lemma KnowAllShapeValues_nested_witness :
  IsNestedTensor nested_sinfo = true ∧
  (KnowAllShapeValues nested_sinfo = true ↔
   Forall has_shape_values (sinfo_leaves nested_sinfo)).
Proof.
  split; [reflexivity |]. apply (KnowAllShapeValues_nested nested_sinfo). reflexivity.
Defined.

Lemma IsScalarTensor_nested_known_witness :
  IsScalarTensor scalar_sinfo = true ∧
  IsNestedTensor scalar_sinfo = true ∧ KnowAllShapeValues scalar_sinfo = true ∧
  ∃ a dtype, scalar_sinfo = TensorStructInfo (Some (ShapeExpr a [])) dtype.
Proof.
  split; [reflexivity |]. apply (IsScalarTensor_nested_known scalar_sinfo). reflexivity.
Defined.

Lemma InferShape_dimensions_witness :
  InferShapeBinaryBroadcast shape_of EqualConstInt EqualCheck [EVar row; EVar x] mutator0
    = Inferred (ShapeExpr 20 [IntImm 5; IntImm 5], (alloc mutator0).2) ∧
  ∀ j,
    reverse [IntImm 5; IntImm 5] !! j =
      match reverse [IntImm 1; IntImm 5] !! j, reverse [IntImm 5; IntImm 5] !! j with
      | Some dim0, Some dim1 => Some (broadcast_dim EqualConstInt dim0 dim1)
      | Some dim0, None => Some dim0
      | None, Some dim1 => Some dim1
      | None, None => None
      end ∧
    (∀ dim0 dim1,
       reverse [IntImm 1; IntImm 5] !! j = Some dim0 →
       reverse [IntImm 5; IntImm 5] !! j = Some dim1 →
       compatible EqualConstInt EqualCheck dim0 dim1 = true).
Proof.
  split; [reflexivity |].
  apply (InferShape_dimensions shape_of EqualConstInt EqualCheck (EVar row) (EVar x)
           52 [IntImm 1; IntImm 5] 2 [IntImm 5; IntImm 5] 20 [IntImm 5; IntImm 5]
           mutator0 (alloc mutator0).2); reflexivity.
Defined.

Lemma InferShape_deferred_witness :
  (∃ a s', InferShapeBinaryBroadcast shape_of EqualConstInt EqualCheck
             [EVar x; EVar three] mutator0
             = Inferred (Call a (NotOp "vm.binary_broadcast_shape_infer")
                           [EVar x; EVar three] NoAttrs, s')) ↔
  (∃ j dim0 dim1,
     reverse [IntImm 5; IntImm 5] !! j = Some dim0 ∧ reverse [IntImm 3] !! j = Some dim1 ∧
     compatible EqualConstInt EqualCheck dim0 dim1 = false).
Proof.
  apply (InferShape_deferred shape_of EqualConstInt EqualCheck (EVar x) (EVar three)
           2 [IntImm 5; IntImm 5] 55 [IntImm 3] mutator0); reflexivity.
Defined.

(** Tensor((5, 5)) against Tensor((3,)): deferred to the runtime. *)
Example mismatch_is_deferred :
  ∃ s', InferShapeBinaryBroadcast shape_of EqualConstInt EqualCheck
          [EVar x; EVar three] mutator0
          = Inferred (Call 20 (NotOp "vm.binary_broadcast_shape_infer")
                        [EVar x; EVar three] NoAttrs, s') ∧
        checked_type_ s' !! 20 = Some ShapeType.
Proof. eexists. split; reflexivity. Qed.

Lemma InferShape_scalar_witness :
  InferShapeBinaryBroadcast shape_of EqualConstInt EqualCheck [EVar lv1; EVar x] mutator0
    = Inferred (ShapeExpr 20 [IntImm 5; IntImm 5], (alloc mutator0).2).
Proof.
  apply (InferShape_scalar shape_of EqualConstInt EqualCheck (EVar lv1) (EVar x)
           11 2 [IntImm 5; IntImm 5] mutator0).
  left. split; reflexivity.
Defined.

Lemma InferTypeLess_broadcast_witness :
  InferTypeLess checked_type_of IsUnknownNdim [EVar x; EVar row]
    = Inferred (DynTensorType 2 Bool) ∧
  ∃ ndim dtype,
    DynTensorType 2 Bool = DynTensorType ndim Bool ∧
    InferTypeBinaryBroadcast checked_type_of IsUnknownDtype IsUnknownNdim [EVar x; EVar row]
      = Inferred (DynTensorType ndim dtype).
Proof.
  split; [reflexivity |].
  apply (InferTypeLess_broadcast checked_type_of IsUnknownDtype IsUnknownNdim
           [EVar x; EVar row] (DynTensorType 2 Bool)).
  reflexivity.
Defined.

Lemma InferShape_InferType_rank_witness :
  ∃ dtype,
    DynTensorType 2 f32 = DynTensorType (Z.of_nat (2 `max` 2)) dtype ∧
    ∀ a output_shape, ShapeExpr 20 [IntImm 5; IntImm 5] = ShapeExpr a output_shape →
      DynTensorType 2 f32 = DynTensorType (Z.of_nat (length output_shape)) dtype.
Proof.
  apply (InferShape_InferType_rank shape_of checked_type_of EqualConstInt EqualCheck
           IsUnknownDtype IsUnknownNdim (EVar x) (EVar lv0)
           2 [IntImm 5; IntImm 5] 8 [IntImm 5; IntImm 5] 2 f32 2 f32
           (ShapeExpr 20 [IntImm 5; IntImm 5]) mutator0 (alloc mutator0).2
           (DynTensorType 2 f32)); reflexivity.
Defined.

Lemma ReverseVisit_call_arguments_witness :
  reached at_target (VarBinding lv1 (Call 13 (Op "relax.sum") [Constant 50] NoAttrs)) = true ∧
  ∃ e, ReverseVisit gradients lv1 (Call 13 (Op "relax.sum") [Constant 50] NoAttrs) at_target
         = Fatal e.
Proof.
  split; [reflexivity |].
  apply (ReverseVisit_call_arguments gradients lv1 13 (Op "relax.sum") [Constant 50] NoAttrs
           at_target); [reflexivity |].
  exists (Constant 50). split; [apply elem_of_cons; by left | discriminate].
Defined.

Lemma FuncTransform_accumulated_adjoint_witness :
  FuncTransform gradients clone normalize [x; y] main mutator0 = Ok main_xy ∧
  (∃ ret, body main_xy.1 = normalize (SeqExpr [EndBlock main_xy.2] ret)) ∧
  ∀ param new_param e,
    (param, new_param) ∈ zip (params main) (params main_xy.1) →
    requires_grad [x; y] param = true →
    adjoint_expr_map main_xy.2 !! var_addr new_param = Some e →
    ∃ adjoint u,
      adjoint_var_map main_xy.2 !! var_addr new_param = Some adjoint ∧
      adjoint_binding_ main_xy.2 !! expr_addr e = Some u ∧
      ((u = adjoint ∧ (emit_kind adjoint, VarBinding adjoint e) ∈ emitted main_xy.2) ∨
       (emit_kind adjoint, VarBinding adjoint (EVar u)) ∈ emitted main_xy.2).
Proof.
  split; [vm_compute; reflexivity |].
  apply (FuncTransform_accumulated_adjoint gradients clone normalize [x; y] main mutator0
           main_xy.1 main_xy.2).
  vm_compute; reflexivity.
Defined.

End Witnesses.
